(** * The MDS journal events of mds/journal.cc

    A shallow embedding of the event methods [has_expired], [expire] and
    [replay] of [src/branches/sage/cephmds2/mds/journal.cc], and the
    properties of them that the journal's specification states.

    The MDS handle [MDS *mds] is a record of the subsystems the methods
    reach through it.  A failed [assert] ends the process: a method that
    can hit one returns an [option], [None] standing for the abort. *)

From Stdlib Require Import ZArith Bool List Lia.
From stdpp Require Import gmap strings list fin_maps.

Local Open Scope Z_scope.

(** ** Identifiers *)

(** [version_t] is an unsigned 64-bit integer, [inodeno_t] and [frag_t]
    are unsigned, [off_t] is signed; the methods below only compare them,
    except for the two subtractions whose wrap-around is written out where
    they occur. *)
Abbreviation version_t := Z (only parsing).
Abbreviation inodeno_t := Z (only parsing).
Abbreviation frag_t := Z (only parsing).
Abbreviation off_t := Z (only parsing).
Abbreviation idno_t := Z (only parsing).

Record dirfrag_t := mk_dirfrag { df_ino : inodeno_t; df_frag : frag_t }.

#[global] Instance dirfrag_eq_dec : EqDecision dirfrag_t.
Proof. solve_decision. Defined.

#[global] Instance dirfrag_countable : Countable dirfrag_t.
Proof.
  refine (inj_countable' (λ d, (df_ino d, df_frag d))
                         (λ p, mk_dirfrag p.1 p.2) _).
  by intros [].
Defined.

Record metareqid_t := mk_reqid { req_client : Z; req_tid : Z }.

#[global] Instance metareqid_eq_dec : EqDecision metareqid_t.
Proof. solve_decision. Defined.

#[global] Instance metareqid_countable : Countable metareqid_t.
Proof.
  refine (inj_countable' (λ r, (req_client r, req_tid r))
                         (λ p, mk_reqid p.1 p.2) _).
  by intros [].
Defined.

(** ** Completions *)

(** A [Context*] is a one-shot completion.  The journal sees two kinds: the
    one its caller passes in, and the subs a [C_Gather] hands out. *)
Inductive Context :=
  | Ctx (id : nat)
  | C_GatherSub (num : nat).

#[global] Instance Context_eq_dec : EqDecision Context.
Proof. solve_decision. Defined.

(** ** The payload of a MetaBlob *)

Record inode_t := mk_inode {
  i_ino : inodeno_t;
  i_is_symlink : bool;
  i_size : off_t
}.

Record fullbit := mk_fullbit {
  fb_dn : string;
  fb_dnv : version_t;
  fb_inode : inode_t;
  fb_symlink : string;
  fb_dirty : bool
}.

Record remotebit := mk_remotebit {
  rb_dn : string;
  rb_dnv : version_t;
  rb_ino : inodeno_t;
  rb_dirty : bool
}.

Record nullbit := mk_nullbit {
  nb_dn : string;
  nb_dnv : version_t;
  nb_dirty : bool
}.

Record dirlump := mk_dirlump {
  dirv : version_t;
  lump_is_dirty : bool;
  lump_is_complete : bool;
  dfull : list fullbit;
  dremote : list remotebit;
  dnull : list nullbit
}.

(** [lump_map] is a [map<dirfrag_t,dirlump>]; the methods walk it from
    [begin()] to [end()], so it is kept as the list of its entries in that
    order.  [lump_order] is the order in which replay visits the lumps. *)
Record EMetaBlob := mk_EMetaBlob {
  lump_order : list dirfrag_t;
  lump_map : list (dirfrag_t * dirlump);
  atids : list version_t;
  truncated_inodes : list (inode_t * off_t);
  client_reqs : list metareqid_t
}.

(** ** The MDS and its subsystems

    None of the classes behind [MDS *mds] is defined in journal.cc.  Each is
    a record of what the journal reads from it or writes to it. *)

Inductive linkage :=
  | LinkNull
  | LinkPrimary (ino : inodeno_t)
  | LinkRemote (ino : inodeno_t).

Record CDentry := mk_CDentry {
  dn_version : version_t;
  dn_dirty : bool;
  dn_linkage : linkage
}.

Record CDir := mk_CDir {
  dir_authority : Z * Z;              (* authority() *)
  dir_committed_version : version_t;  (* get_committed_version() *)
  dir_ambiguous_auth : bool;          (* is_ambiguous_dir_auth() *)
  dir_exporting : bool;               (* is_exporting() *)
  dir_can_auth_pin : bool;            (* can_auth_pin() *)
  dir_subtree_root : dirfrag_t;       (* mdcache->get_subtree_root(dir) *)
  dir_version : version_t;
  dir_dirty : bool;
  dir_complete : bool;
  dir_auth : Z * Z;                   (* what set_dir_auth stores *)
  dir_items : gmap string CDentry
}.

Record CInode := mk_CInode {
  in_inode : inode_t;
  in_symlink : string;
  in_parent : option (dirfrag_t * string);  (* get_parent_dn() *)
  in_dirty : bool;
  in_any_caps : bool;                       (* is_any_caps() *)
  last_open_journaled : off_t
}.

Record MDCache := mk_MDCache {
  dirfrags : gmap dirfrag_t CDir;
  inode_map : gmap inodeno_t CInode;
  purging : gset (inodeno_t * off_t);        (* is_purging(ino, size) *)
  recovered_purges : list (inode_t * off_t);
  uncommitted_slave_updates : gmap metareqid_t EMetaBlob;
  migrator_exporting : gset dirfrag_t        (* migrator->is_exporting(dir) *)
}.

Record AnchorClient := mk_AnchorClient {
  ac_committed : gset version_t;             (* has_committed(atid) *)
  ac_journaled_agree : list version_t;
  ac_journaled_ack : list version_t
}.

Record AnchorTable := mk_AnchorTable {
  at_version : version_t;
  at_committed_version : version_t
}.

Record ClientMap := mk_ClientMap {
  cm_version : version_t;
  cm_committed : version_t;
  cm_committing : version_t;
  cm_completed_requests : gset metareqid_t   (* have_completed_request *)
}.

Record IdAlloc := mk_IdAlloc {
  ia_version : version_t;
  ia_committed_version : version_t;
  ia_free : list idno_t
}.

Record MDLog := mk_MDLog {
  last_import_map : off_t;
  log_capped : bool;                         (* is_capped() *)
  import_map_expire_waiters : list Context
}.

Record MDS := mk_MDS {
  nodeid : Z;                                (* get_nodeid() *)
  mdcache : MDCache;
  anchorclient : AnchorClient;
  anchortable : AnchorTable;
  clientmap : ClientMap;
  idalloc : IdAlloc;
  mdlog : MDLog
}.

Definition get_dirfrag (mds : MDS) (df : dirfrag_t) : option CDir :=
  dirfrags (mdcache mds) !! df.

Definition get_inode (mds : MDS) (ino : inodeno_t) : option CInode :=
  inode_map (mdcache mds) !! ino.

(** [mdcache->get_subtree_root(dir)] is a dir of the cache; its flag is read
    through the dirfrag map. *)
Definition subtree_root_is_exporting (mds : MDS) (dir : CDir) : bool :=
  match get_dirfrag mds (dir_subtree_root dir) with
  | Some ex => dir_exporting ex
  | None => false
  end.

Definition has_committed (mds : MDS) (atid : version_t) : bool :=
  bool_decide (atid ∈ ac_committed (anchorclient mds)).

Definition is_purging (mds : MDS) (ino : inodeno_t) (newsize : off_t) : bool :=
  bool_decide ((ino, newsize) ∈ purging (mdcache mds)).

Definition have_completed_request (mds : MDS) (r : metareqid_t) : bool :=
  bool_decide (r ∈ cm_completed_requests (clientmap mds)).

(** ** EMetaBlob::has_expired *)

(** One turn of the loop over [lump_map]: go on to the next lump, return
    false, or fall through to the [assert(0)] that closes the body. *)
Inductive lump_verdict :=
  | LumpContinue
  | LumpReturnFalse
  | LumpAssert.

Definition has_expired_lump (mds : MDS) (lp : dirfrag_t * dirlump)
  : lump_verdict :=
  match get_dirfrag mds lp.1 with
  | None => LumpContinue                                   (* we expired it *)
  | Some dir =>
      if bool_decide ((dir_authority dir).1 ≠ nodeid mds) then
        LumpContinue                                       (* not our problem *)
      else if bool_decide (dir_committed_version dir >= dirv lp.2) then
        LumpContinue                                       (* yay *)
      else if dir_ambiguous_auth dir then
        (if subtree_root_is_exporting mds dir
         then LumpReturnFalse else LumpReturnFalse)
      else if bool_decide (dir_committed_version dir < dirv lp.2) then
        LumpReturnFalse                                    (* not committed *)
      else LumpAssert
  end.

(** [Some true]: every lump said continue; [Some false]: one returned false;
    [None]: the assert was reached. *)
Fixpoint has_expired_lumps (mds : MDS) (lumps : list (dirfrag_t * dirlump))
  : option bool :=
  match lumps with
  | [] => Some true
  | lp :: rest =>
      match has_expired_lump mds lp with
      | LumpContinue => has_expired_lumps mds rest
      | LumpReturnFalse => Some false
      | LumpAssert => None
      end
  end.

Definition atids_committed (mds : MDS) (b : EMetaBlob) : bool :=
  forallb (has_committed mds) (atids b).

Definition none_purging (mds : MDS) (b : EMetaBlob) : bool :=
  forallb (λ p, negb (is_purging mds (i_ino p.1) p.2)) (truncated_inodes b).

Definition none_completed (mds : MDS) (b : EMetaBlob) : bool :=
  forallb (λ r, negb (have_completed_request mds r)) (client_reqs b).

Definition EMetaBlob_has_expired (mds : MDS) (b : EMetaBlob) : option bool :=
  match has_expired_lumps mds (lump_map b) with
  | None => None
  | Some false => Some false
  | Some true =>
      if negb (atids_committed mds b) then Some false
      else if negb (none_purging mds b) then Some false
      else if negb (none_completed mds b) then Some false
      else Some true       (* all dirlumps expired, etc. *)
  end.

(** ** What expire asks of the other subsystems

    [expire] never blocks: it hands completions to the cache, the migrator,
    the tables and the server and returns.  Those calls are the method's
    whole effect, so [expire] is modelled by the list of calls it makes, in
    order. *)

Inductive waiter_tag := WAIT_AUTHPINNABLE | WAIT_IMPORTED.

Inductive call :=
  | Dir_commit (dir : dirfrag_t) (want : version_t) (c : Context)
  | Dir_add_waiter (dir : dirfrag_t) (tag : waiter_tag) (c : Context)
  | Migrator_add_export_finish_waiter (dir : dirfrag_t) (c : Context)
  | AnchorClient_wait_for_ack (atid : version_t) (c : Context)
  | MDCache_wait_for_purge (ino : inodeno_t) (newsize : off_t) (c : Context)
  | ClientMap_add_trim_waiter (r : metareqid_t) (c : Context)
  | ClientMap_add_commit_waiter (c : Context)
  | MDS_log_clientmap (c : Context)
  | IdAlloc_save (c : Context) (v : version_t)
  | AnchorTable_save (c : Context)
  | Server_queue_journal_open (ino : inodeno_t)
  | Server_add_journal_open_waiter (c : Context)
  | Server_maybe_journal_opens
  | MDLog_import_map_expire_waiters_push_back (c : Context).

(** The completion a call carries, if any. *)
Definition call_context (k : call) : option Context :=
  match k with
  | Dir_commit _ _ c | Dir_add_waiter _ _ c
  | Migrator_add_export_finish_waiter _ c
  | AnchorClient_wait_for_ack _ c | MDCache_wait_for_purge _ _ c
  | ClientMap_add_trim_waiter _ c | ClientMap_add_commit_waiter c
  | MDS_log_clientmap c | IdAlloc_save c _ | AnchorTable_save c
  | Server_add_journal_open_waiter c
  | MDLog_import_map_expire_waiters_push_back c => Some c
  | Server_queue_journal_open _ | Server_maybe_journal_opens => None
  end.

(** ** C_Gather *)

(** Modelled from the spec: [C_Gather] (include/Context.h) is not among the
    sources.  The specification's Gather wraps a target completion;
    [new_sub()] hands out a fresh sub-completion and increments a pending
    counter; each sub, when fired, decrements the counter, and when it
    reaches zero the target fires.  A gather of which no sub was ever made
    fires its target during its creator's next pump. *)
Record C_Gather := mk_C_Gather {
  gather_onfinish : Context;
  gather_pending : nat;
  gather_num : nat
}.

Definition C_Gather_new (c : Context) : C_Gather :=
  {| gather_onfinish := c; gather_pending := 0; gather_num := 0 |}.

Definition new_sub (g : C_Gather) : Context * C_Gather :=
  (C_GatherSub (S (gather_num g)),
   {| gather_onfinish := gather_onfinish g;
      gather_pending := S (gather_pending g);
      gather_num := S (gather_num g) |}).

(** One sub fires: the gather afterwards, and the completions it fired. *)
Definition sub_finish (g : C_Gather) : C_Gather * list Context :=
  match gather_pending g with
  | O => (g, [])
  | S n =>
      ({| gather_onfinish := gather_onfinish g;
          gather_pending := n;
          gather_num := gather_num g |},
       match n with O => [gather_onfinish g] | S _ => [] end)
  end.

(** [k] subs fire one after the other. *)
Fixpoint subs_finish (k : nat) (g : C_Gather) : C_Gather * list Context :=
  match k with
  | O => (g, [])
  | S k' =>
      let '(g1, fired1) := sub_finish g in
      let '(g2, fired2) := subs_finish k' g1 in
      (g2, fired1 ++ fired2)
  end.

(** The creator's next pump: the target of a gather that never handed out a
    sub fires; a gather that did waits for its subs. *)
Definition gather_pump (g : C_Gather) : list Context :=
  match gather_num g with
  | O => [gather_onfinish g]
  | S _ => []
  end.

(** ** EMetaBlob::expire *)

Record expire_lists := mk_expire_lists {
  commit : gmap dirfrag_t version_t;   (* map<CDir*,version_t>, a cached dir
                                          being named by its dirfrag *)
  waitfor_export : list dirfrag_t;
  waitfor_import : list dirfrag_t;
  ncommit : Z                          (* counted, never read *)
}.

Definition expire_lists_empty : expire_lists :=
  {| commit := ∅; waitfor_export := []; waitfor_import := []; ncommit := 0 |}.

Definition expire_lump (mds : MDS) (acc : expire_lists)
    (lp : dirfrag_t * dirlump) : option expire_lists :=
  match get_dirfrag mds lp.1 with
  | None => Some acc                                       (* we expired it *)
  | Some dir =>
      if bool_decide ((dir_authority dir).1 ≠ nodeid mds) then
        Some acc                                           (* not our problem *)
      else if bool_decide (dir_committed_version dir >= dirv lp.2) then
        Some acc                                           (* yay *)
      else if dir_ambiguous_auth dir then
        let ex := dir_subtree_root dir in
        if subtree_root_is_exporting mds dir then
          Some {| commit := commit acc;
                  waitfor_export := waitfor_export acc ++ [ex];
                  waitfor_import := waitfor_import acc;
                  ncommit := ncommit acc |}
        else
          Some {| commit := commit acc;
                  waitfor_export := waitfor_export acc;
                  waitfor_import := waitfor_import acc ++ [ex];
                  ncommit := ncommit acc |}
      else if bool_decide (dir_committed_version dir < dirv lp.2) then
        Some {| commit :=
                  <[lp.1 := Z.max (default 0 (commit acc !! lp.1)) (dirv lp.2)]>
                    (commit acc);
                waitfor_export := waitfor_export acc;
                waitfor_import := waitfor_import acc;
                ncommit := ncommit acc + 1 |}
      else None                                            (* assert(0) *)
  end.

Fixpoint expire_lumps (mds : MDS) (acc : expire_lists)
    (lumps : list (dirfrag_t * dirlump)) : option expire_lists :=
  match lumps with
  | [] => Some acc
  | lp :: rest =>
      match expire_lump mds acc lp with
      | Some acc' => expire_lumps mds acc' rest
      | None => None
      end
  end.

(** The registration loops thread the gather and the calls made so far. *)
Definition registering : Type := (C_Gather * list call)%type.

(** [mk (gather->new_sub())] *)
Definition with_new_sub (mk : Context → call) (st : registering) : registering :=
  let '(sub, g) := new_sub st.1 in (g, st.2 ++ [mk sub]).

Definition dir_can_auth_pin_at (mds : MDS) (df : dirfrag_t) : bool :=
  match get_dirfrag mds df with
  | Some dir => dir_can_auth_pin dir
  | None => false
  end.

Definition register_commits (mds : MDS) (l : list (dirfrag_t * version_t))
    (st : registering) : registering :=
  fold_left
    (λ st p,
       if dir_can_auth_pin_at mds p.1
       then with_new_sub (Dir_commit p.1 p.2) st
       else with_new_sub (Dir_add_waiter p.1 WAIT_AUTHPINNABLE) st)
    l st.

Definition register_exports (l : list dirfrag_t) (st : registering)
  : registering :=
  fold_left (λ st ex, with_new_sub (Migrator_add_export_finish_waiter ex) st)
            l st.

Definition register_imports (l : list dirfrag_t) (st : registering)
  : registering :=
  fold_left (λ st ex, with_new_sub (Dir_add_waiter ex WAIT_IMPORTED) st) l st.

Definition register_atids (mds : MDS) (l : list version_t) (st : registering)
  : registering :=
  fold_left
    (λ st p,
       if negb (has_committed mds p)
       then with_new_sub (AnchorClient_wait_for_ack p) st else st)
    l st.

Definition register_purges (mds : MDS) (l : list (inode_t * off_t))
    (st : registering) : registering :=
  fold_left
    (λ st p,
       if is_purging mds (i_ino p.1) p.2
       then with_new_sub (MDCache_wait_for_purge (i_ino p.1) p.2) st else st)
    l st.

Definition register_reqs (mds : MDS) (l : list metareqid_t) (st : registering)
  : registering :=
  fold_left
    (λ st p,
       if have_completed_request mds p
       then with_new_sub (ClientMap_add_trim_waiter p) st else st)
    l st.

(** The body after the first loop.  The source walks [commit] in the order
    of its keys, which are addresses; the model walks it in the order
    [map_to_list] gives.  Only the numbering of the subs depends on it. *)
Definition expire_register (mds : MDS) (b : EMetaBlob) (c : Context)
    (acc : expire_lists) : registering :=
  let st := (C_Gather_new c, []) in
  let st := register_commits mds (map_to_list (commit acc)) st in
  let st := register_exports (waitfor_export acc) st in
  let st := register_imports (waitfor_import acc) st in
  let st := register_atids mds (atids b) st in
  let st := register_purges mds (truncated_inodes b) st in
  register_reqs mds (client_reqs b) st.

Definition EMetaBlob_expire (mds : MDS) (b : EMetaBlob) (c : Context)
  : option registering :=
  match expire_lumps mds expire_lists_empty (lump_map b) with
  | None => None
  | Some acc => Some (expire_register mds b c acc)
  end.

(** ** The other events

    Every event carries the log offsets [get_start_off()] and
    [get_end_off()] of its LogEvent base; a record keeps the one its methods
    read. *)

Record EString := mk_EString { event : string }.

Record EClientMap := mk_EClientMap { cmap_cmapv : version_t }.

Record ESession := mk_ESession {
  sess_cmapv : version_t;
  sess_open : bool;
  sess_client : Z
}.

Inductive ealloc_what :=
  | EALLOC_EV_ALLOC
  | EALLOC_EV_FREE
  | EALLOC_EV_other (what : Z).

Record EAlloc := mk_EAlloc {
  alloc_what : ealloc_what;
  alloc_id_ : idno_t;
  table_version : version_t
}.

Record EAnchor := mk_EAnchor {
  anchor_atid : version_t;
  anchor_version : version_t
}.

Record EAnchorClient := mk_EAnchorClient { anchorclient_atid : version_t }.

Record EUpdate := mk_EUpdate { update_metablob : EMetaBlob }.

Record EOpen := mk_EOpen {
  open_start_off : off_t;
  inos : list inodeno_t;
  open_metablob : EMetaBlob
}.

Inductive slave_op :=
  | OP_PREPARE
  | OP_COMMIT
  | OP_ABORT
  | OP_other (op : Z).

Record ESlaveUpdate := mk_ESlaveUpdate {
  slave_op_ : slave_op;
  reqid : metareqid_t;
  slave_metablob : EMetaBlob
}.

Record EImportMap := mk_EImportMap {
  importmap_end_off : off_t;
  imports : list dirfrag_t;
  importmap_metablob : EMetaBlob
}.

Record EPurgeFinish := mk_EPurgeFinish {
  purge_ino : inodeno_t;
  purge_newsize : off_t
}.

Record EExport := mk_EExport {
  export_base : dirfrag_t;
  export_bounds : list dirfrag_t;
  export_metablob : EMetaBlob
}.

Record EImportStart := mk_EImportStart {
  importstart_base : dirfrag_t;
  importstart_bounds : list dirfrag_t;
  importstart_metablob : EMetaBlob
}.

Record EImportFinish := mk_EImportFinish {
  importfinish_base : dirfrag_t;
  importfinish_success : bool
}.

(** *** has_expired *)

Definition EString_has_expired (mds : MDS) (e : EString) : bool := true.

Definition EClientMap_has_expired (mds : MDS) (e : EClientMap) : bool :=
  if bool_decide (cm_committed (clientmap mds) >= cmap_cmapv e) then true
  else if bool_decide (cm_committing (clientmap mds) >= cmap_cmapv e) then false
  else false.

Definition ESession_has_expired (mds : MDS) (e : ESession) : bool :=
  if bool_decide (cm_committed (clientmap mds) >= sess_cmapv e) then true
  else if bool_decide (cm_committing (clientmap mds) >= sess_cmapv e) then false
  else false.

Definition EAlloc_has_expired (mds : MDS) (e : EAlloc) : bool :=
  let cv := ia_committed_version (idalloc mds) in
  if bool_decide (cv < table_version e) then false else true.

Definition EAnchor_has_expired (mds : MDS) (e : EAnchor) : bool :=
  let cv := at_committed_version (anchortable mds) in
  if bool_decide (cv < anchor_version e) then false else true.

Definition EAnchorClient_has_expired (mds : MDS) (e : EAnchorClient) : bool :=
  true.

Definition EUpdate_has_expired (mds : MDS) (e : EUpdate) : option bool :=
  EMetaBlob_has_expired mds (update_metablob e).

(** The test an inode of [inos] must pass for the loop to return false. *)
Definition open_still_refers (mds : MDS) (e : EOpen) (p : inodeno_t) : bool :=
  match get_inode mds p with
  | Some i =>
      in_any_caps i &&
      negb (bool_decide (last_open_journaled i > open_start_off e)
            || bool_decide (last_open_journaled i = 0))
  | None => false
  end.

Fixpoint EOpen_has_expired_loop (mds : MDS) (e : EOpen) (l : list inodeno_t)
  : bool :=
  match l with
  | [] => true
  | p :: rest =>
      if open_still_refers mds e p then false
      else EOpen_has_expired_loop mds e rest
  end.

Definition EOpen_has_expired (mds : MDS) (e : EOpen) : bool :=
  EOpen_has_expired_loop mds e (inos e).

Definition ESlaveUpdate_has_expired (mds : MDS) (e : ESlaveUpdate)
  : option bool :=
  EMetaBlob_has_expired mds (slave_metablob e).

Definition EImportMap_has_expired (mds : MDS) (e : EImportMap) : bool :=
  if bool_decide (last_import_map (mdlog mds) > importmap_end_off e) then true
  else if log_capped (mdlog mds) then true
  else false.

Definition EPurgeFinish_has_expired (mds : MDS) (e : EPurgeFinish) : bool :=
  true.

Definition EExport_has_expired (mds : MDS) (e : EExport) : bool :=
  match get_dirfrag mds (export_base e) with
  | None => true
  | Some dir =>
      if negb (bool_decide (export_base e ∈ migrator_exporting (mdcache mds)))
      then true
      else false
  end.

Definition EImportStart_has_expired (mds : MDS) (e : EImportStart)
  : option bool :=
  EMetaBlob_has_expired mds (importstart_metablob e).

Definition EImportFinish_has_expired (mds : MDS) (e : EImportFinish) : bool :=
  true.

(** *** expire

    [Some calls]: the method returned, having made [calls]; [None]: it hit
    an assert. *)

Definition EString_expire (mds : MDS) (e : EString) (c : Context)
  : option (list call) :=
  Some [].

Definition EClientMap_expire (mds : MDS) (e : EClientMap) (c : Context)
  : option (list call) :=
  if bool_decide (cm_committing (clientmap mds) >= cmap_cmapv e) then
    if bool_decide (cm_committing (clientmap mds) > cm_committed (clientmap mds))
    then Some [ClientMap_add_commit_waiter c]
    else None
  else Some [MDS_log_clientmap c].

Definition ESession_expire (mds : MDS) (e : ESession) (c : Context)
  : option (list call) :=
  if bool_decide (cm_committing (clientmap mds) >= sess_cmapv e) then
    if bool_decide (cm_committing (clientmap mds) > cm_committed (clientmap mds))
    then Some [ClientMap_add_commit_waiter c]
    else None
  else Some [MDS_log_clientmap c].

Definition EAlloc_expire (mds : MDS) (e : EAlloc) (c : Context)
  : option (list call) :=
  Some [IdAlloc_save c (table_version e)].

Definition EAnchor_expire (mds : MDS) (e : EAnchor) (c : Context)
  : option (list call) :=
  Some [AnchorTable_save c].

Definition EAnchorClient_expire (mds : MDS) (e : EAnchorClient) (c : Context)
  : option (list call) :=
  None.

Definition EUpdate_expire (mds : MDS) (e : EUpdate) (c : Context)
  : option (list call) :=
  snd <$> EMetaBlob_expire mds (update_metablob e) c.

Definition EOpen_expire_queue (mds : MDS) (l : list inodeno_t) : list call :=
  flat_map
    (λ p, match get_inode mds p with
          | None => []
          | Some i =>
              if negb (in_any_caps i) then []
              else [Server_queue_journal_open p]
          end)
    l.

Definition EOpen_expire (mds : MDS) (e : EOpen) (c : Context)
  : option (list call) :=
  if log_capped (mdlog mds) then None
  else Some (EOpen_expire_queue mds (inos e)
             ++ [Server_add_journal_open_waiter c; Server_maybe_journal_opens]).

Definition ESlaveUpdate_expire (mds : MDS) (e : ESlaveUpdate) (c : Context)
  : option (list call) :=
  snd <$> EMetaBlob_expire mds (slave_metablob e) c.

Definition EImportMap_expire (mds : MDS) (e : EImportMap) (c : Context)
  : option (list call) :=
  Some [MDLog_import_map_expire_waiters_push_back c].

Definition EPurgeFinish_expire (mds : MDS) (e : EPurgeFinish) (c : Context)
  : option (list call) :=
  None.

Definition EExport_expire (mds : MDS) (e : EExport) (c : Context)
  : option (list call) :=
  match get_dirfrag mds (export_base e) with
  | None => None
  | Some dir =>
      if bool_decide (export_base e ∈ migrator_exporting (mdcache mds))
      then Some [Migrator_add_export_finish_waiter (export_base e) c]
      else None
  end.

Definition EImportStart_expire (mds : MDS) (e : EImportStart) (c : Context)
  : option (list call) :=
  snd <$> EMetaBlob_expire mds (importstart_metablob e) c.

Definition EImportFinish_expire (mds : MDS) (e : EImportFinish) (c : Context)
  : option (list call) :=
  None.

(** *** The events of the log, and the virtual calls on them *)

Inductive LogEvent :=
  | Ev_String (e : EString)
  | Ev_ClientMap (e : EClientMap)
  | Ev_Session (e : ESession)
  | Ev_Alloc (e : EAlloc)
  | Ev_Anchor (e : EAnchor)
  | Ev_AnchorClient (e : EAnchorClient)
  | Ev_Update (e : EUpdate)
  | Ev_Open (e : EOpen)
  | Ev_SlaveUpdate (e : ESlaveUpdate)
  | Ev_ImportMap (e : EImportMap)
  | Ev_PurgeFinish (e : EPurgeFinish)
  | Ev_Export (e : EExport)
  | Ev_ImportStart (e : EImportStart)
  | Ev_ImportFinish (e : EImportFinish).

Definition has_expired (mds : MDS) (ev : LogEvent) : option bool :=
  match ev with
  | Ev_String e => Some (EString_has_expired mds e)
  | Ev_ClientMap e => Some (EClientMap_has_expired mds e)
  | Ev_Session e => Some (ESession_has_expired mds e)
  | Ev_Alloc e => Some (EAlloc_has_expired mds e)
  | Ev_Anchor e => Some (EAnchor_has_expired mds e)
  | Ev_AnchorClient e => Some (EAnchorClient_has_expired mds e)
  | Ev_Update e => EUpdate_has_expired mds e
  | Ev_Open e => Some (EOpen_has_expired mds e)
  | Ev_SlaveUpdate e => ESlaveUpdate_has_expired mds e
  | Ev_ImportMap e => Some (EImportMap_has_expired mds e)
  | Ev_PurgeFinish e => Some (EPurgeFinish_has_expired mds e)
  | Ev_Export e => Some (EExport_has_expired mds e)
  | Ev_ImportStart e => EImportStart_has_expired mds e
  | Ev_ImportFinish e => Some (EImportFinish_has_expired mds e)
  end.

Definition expire (mds : MDS) (ev : LogEvent) (c : Context)
  : option (list call) :=
  match ev with
  | Ev_String e => EString_expire mds e c
  | Ev_ClientMap e => EClientMap_expire mds e c
  | Ev_Session e => ESession_expire mds e c
  | Ev_Alloc e => EAlloc_expire mds e c
  | Ev_Anchor e => EAnchor_expire mds e c
  | Ev_AnchorClient e => EAnchorClient_expire mds e c
  | Ev_Update e => EUpdate_expire mds e c
  | Ev_Open e => EOpen_expire mds e c
  | Ev_SlaveUpdate e => ESlaveUpdate_expire mds e c
  | Ev_ImportMap e => EImportMap_expire mds e c
  | Ev_PurgeFinish e => EPurgeFinish_expire mds e c
  | Ev_Export e => EExport_expire mds e c
  | Ev_ImportStart e => EImportStart_expire mds e c
  | Ev_ImportFinish e => EImportFinish_expire mds e c
  end.

(** ** Replay: writing to the cache *)

Definition with_mdcache (f : MDCache → MDCache) (mds : MDS) : MDS :=
  {| nodeid := nodeid mds;
     mdcache := f (mdcache mds);
     anchorclient := anchorclient mds;
     anchortable := anchortable mds;
     clientmap := clientmap mds;
     idalloc := idalloc mds;
     mdlog := mdlog mds |}.

Definition with_dirfrags (f : gmap dirfrag_t CDir → gmap dirfrag_t CDir)
    (mds : MDS) : MDS :=
  with_mdcache
    (λ mc, {| dirfrags := f (dirfrags mc);
              inode_map := inode_map mc;
              purging := purging mc;
              recovered_purges := recovered_purges mc;
              uncommitted_slave_updates := uncommitted_slave_updates mc;
              migrator_exporting := migrator_exporting mc |})
    mds.

Definition with_inode_map (f : gmap inodeno_t CInode → gmap inodeno_t CInode)
    (mds : MDS) : MDS :=
  with_mdcache
    (λ mc, {| dirfrags := dirfrags mc;
              inode_map := f (inode_map mc);
              purging := purging mc;
              recovered_purges := recovered_purges mc;
              uncommitted_slave_updates := uncommitted_slave_updates mc;
              migrator_exporting := migrator_exporting mc |})
    mds.

Definition with_uncommitted_slave_updates
    (f : gmap metareqid_t EMetaBlob → gmap metareqid_t EMetaBlob)
    (mds : MDS) : MDS :=
  with_mdcache
    (λ mc, {| dirfrags := dirfrags mc;
              inode_map := inode_map mc;
              purging := purging mc;
              recovered_purges := recovered_purges mc;
              uncommitted_slave_updates := f (uncommitted_slave_updates mc);
              migrator_exporting := migrator_exporting mc |})
    mds.

Definition with_dir (f : CDir → CDir) (d : dirfrag_t) (mds : MDS) : MDS :=
  with_dirfrags (alter f d) mds.

Definition with_inode (f : CInode → CInode) (i : inodeno_t) (mds : MDS) : MDS :=
  with_inode_map (alter f i) mds.

Definition with_dir_items (f : gmap string CDentry → gmap string CDentry)
    (dir : CDir) : CDir :=
  {| dir_authority := dir_authority dir;
     dir_committed_version := dir_committed_version dir;
     dir_ambiguous_auth := dir_ambiguous_auth dir;
     dir_exporting := dir_exporting dir;
     dir_can_auth_pin := dir_can_auth_pin dir;
     dir_subtree_root := dir_subtree_root dir;
     dir_version := dir_version dir;
     dir_dirty := dir_dirty dir;
     dir_complete := dir_complete dir;
     dir_auth := dir_auth dir;
     dir_items := f (dir_items dir) |}.

Definition with_dentry (f : CDentry → CDentry) (d : dirfrag_t) (dn : string)
    (mds : MDS) : MDS :=
  with_dir (with_dir_items (alter f dn)) d mds.

(** The macros of the inode-number layout are not defined in journal.cc;
    replay takes them as given. *)
Record ino_layout := mk_ino_layout {
  MDS_INO_ROOT : inodeno_t;
  MDS_INO_STRAY_OFFSET : inodeno_t;
  MDS_INO_IS_STRAY : inodeno_t → bool
}.

(** The comment above [EMetaBlob::has_expired] writes the unknown authority
    as [-2]. *)
Definition CDIR_AUTH_UNKNOWN : Z := -2.

(** [lp->ino - MDS_INO_STRAY_OFFSET], an unsigned 64-bit difference, stored
    in an [int]. *)
Definition to_int (z : Z) : Z := (z + 2 ^ 31) mod 2 ^ 32 - 2 ^ 31.

Definition stray_whose (k : ino_layout) (ino : inodeno_t) : Z :=
  to_int ((ino - MDS_INO_STRAY_OFFSET k) mod 2 ^ 64).

(** Modelled from the spec: the constructors of [CInode], [CDir] and
    [CDentry] are not among the sources.  A new object carries what the
    journal writes to it; every other field starts cleared. *)
Definition new_CInode (i : inode_t) : CInode :=
  {| in_inode := i; in_symlink := ""; in_parent := None; in_dirty := false;
     in_any_caps := false; last_open_journaled := 0 |}.

Definition new_CDir (d : dirfrag_t) : CDir :=
  {| dir_authority := (CDIR_AUTH_UNKNOWN, CDIR_AUTH_UNKNOWN);
     dir_committed_version := 0;
     dir_ambiguous_auth := false;
     dir_exporting := false;
     dir_can_auth_pin := false;
     dir_subtree_root := d;
     dir_version := 0;
     dir_dirty := false;
     dir_complete := false;
     dir_auth := (CDIR_AUTH_UNKNOWN, CDIR_AUTH_UNKNOWN);
     dir_items := ∅ |}.

Definition new_CDentry (l : linkage) : CDentry :=
  {| dn_version := 0; dn_dirty := false; dn_linkage := l |}.

(** Modelled from the spec: [MDCache::create_root_inode] and
    [MDCache::create_stray_inode] are not among the sources.  "Create root"
    puts an inode numbered [MDS_INO_ROOT] in the cache; "create the stray"
    of node [whose] puts there the inode numbered [whose] past the stray
    base.  Each returns the inode it made, named here by its number. *)
Definition create_root_inode (k : ino_layout) (mds : MDS) : MDS * inodeno_t :=
  let ino := MDS_INO_ROOT k in
  (with_inode_map (<[ino := new_CInode (mk_inode ino false 0)]>) mds, ino).

Definition create_stray_inode (k : ino_layout) (whose : Z) (mds : MDS)
  : MDS * inodeno_t :=
  let ino := (MDS_INO_STRAY_OFFSET k + whose) mod 2 ^ 64 in
  (with_inode_map (<[ino := new_CInode (mk_inode ino false 0)]>) mds, ino).

(** Modelled from the spec: [CInode::get_or_open_dirfrag] is not among the
    sources.  "Obtain-or-open the dirfrag on that inode": the inode's
    dirfrag [frag] if the cache has it, a new one put there otherwise. *)
Definition get_or_open_dirfrag (mds : MDS) (diri : inodeno_t) (fg : frag_t)
  : MDS * dirfrag_t :=
  let d := mk_dirfrag diri fg in
  match get_dirfrag mds d with
  | Some _ => (mds, d)
  | None => (with_dirfrags (<[d := new_CDir d]>) mds, d)
  end.

(** Modelled from the spec: the setters of [CDir], [CDentry] and [CInode]
    are not among the sources; each stores its argument in the field it
    names. *)
Definition set_dir_auth (a : Z) (dir : CDir) : CDir :=
  {| dir_authority := dir_authority dir;
     dir_committed_version := dir_committed_version dir;
     dir_ambiguous_auth := dir_ambiguous_auth dir;
     dir_exporting := dir_exporting dir;
     dir_can_auth_pin := dir_can_auth_pin dir;
     dir_subtree_root := dir_subtree_root dir;
     dir_version := dir_version dir;
     dir_dirty := dir_dirty dir;
     dir_complete := dir_complete dir;
     dir_auth := (a, CDIR_AUTH_UNKNOWN);
     dir_items := dir_items dir |}.

Definition dir_set_version (v : version_t) (dir : CDir) : CDir :=
  {| dir_authority := dir_authority dir;
     dir_committed_version := dir_committed_version dir;
     dir_ambiguous_auth := dir_ambiguous_auth dir;
     dir_exporting := dir_exporting dir;
     dir_can_auth_pin := dir_can_auth_pin dir;
     dir_subtree_root := dir_subtree_root dir;
     dir_version := v;
     dir_dirty := dir_dirty dir;
     dir_complete := dir_complete dir;
     dir_auth := dir_auth dir;
     dir_items := dir_items dir |}.

Definition dir_mark (dirty complete : bool) (dir : CDir) : CDir :=
  {| dir_authority := dir_authority dir;
     dir_committed_version := dir_committed_version dir;
     dir_ambiguous_auth := dir_ambiguous_auth dir;
     dir_exporting := dir_exporting dir;
     dir_can_auth_pin := dir_can_auth_pin dir;
     dir_subtree_root := dir_subtree_root dir;
     dir_version := dir_version dir;
     dir_dirty := dir_dirty dir || dirty;
     dir_complete := dir_complete dir || complete;
     dir_auth := dir_auth dir;
     dir_items := dir_items dir |}.

(** [dn->set_version(dnv); if (dirty) dn->_mark_dirty();] *)
Definition dn_touch (dnv : version_t) (dirty : bool) (dn : CDentry) : CDentry :=
  {| dn_version := dnv; dn_dirty := dn_dirty dn || dirty;
     dn_linkage := dn_linkage dn |}.

Definition dn_set_linkage (l : linkage) (dn : CDentry) : CDentry :=
  {| dn_version := dn_version dn; dn_dirty := dn_dirty dn; dn_linkage := l |}.

Definition in_set_parent (p : option (dirfrag_t * string)) (i : CInode)
  : CInode :=
  {| in_inode := in_inode i; in_symlink := in_symlink i; in_parent := p;
     in_dirty := in_dirty i; in_any_caps := in_any_caps i;
     last_open_journaled := last_open_journaled i |}.

(** [in->inode = p->inode; if (in->inode.is_symlink()) in->symlink = p->symlink;] *)
Definition in_set_inode (p : fullbit) (i : CInode) : CInode :=
  {| in_inode := fb_inode p;
     in_symlink := if i_is_symlink (fb_inode p) then fb_symlink p
                   else in_symlink i;
     in_parent := in_parent i; in_dirty := in_dirty i;
     in_any_caps := in_any_caps i;
     last_open_journaled := last_open_journaled i |}.

Definition in_mark_dirty (dirty : bool) (i : CInode) : CInode :=
  {| in_inode := in_inode i; in_symlink := in_symlink i;
     in_parent := in_parent i; in_dirty := in_dirty i || dirty;
     in_any_caps := in_any_caps i;
     last_open_journaled := last_open_journaled i |}.

Definition dir_lookup (mds : MDS) (d : dirfrag_t) (dn : string)
  : option CDentry :=
  match get_dirfrag mds d with
  | Some dir => dir_items dir !! dn
  | None => None
  end.

(** Modelled from the spec: [CDir::add_dentry], [CDir::link_inode] and
    [CDir::unlink_inode] are not among the sources.  A dentry is added null
    or pointing at a remote inode number; linking points the dentry at the
    inode and the inode back at the dentry; unlinking clears both. *)
Definition add_dentry (d : dirfrag_t) (dn : string) (l : linkage) (mds : MDS)
  : MDS :=
  with_dir (with_dir_items (<[dn := new_CDentry l]>)) d mds.

Definition link_inode (d : dirfrag_t) (dn : string) (i : inodeno_t) (mds : MDS)
  : MDS :=
  with_inode (in_set_parent (Some (d, dn))) i
    (with_dentry (dn_set_linkage (LinkPrimary i)) d dn mds).

Definition unlink_inode (d : dirfrag_t) (dn : string) (mds : MDS) : MDS :=
  let mds' :=
    match dir_lookup mds d dn with
    | Some {| dn_linkage := LinkPrimary i |} =>
        with_inode (in_set_parent None) i mds
    | _ => mds
    end in
  with_dentry (dn_set_linkage LinkNull) d dn mds'.

(** ** EMetaBlob::replay *)

(** [lump_map[d]]: the lump stored for [d]; indexing a [std::map] at a key it
    lacks makes a default lump there. *)
Definition default_dirlump : dirlump :=
  {| dirv := 0; lump_is_dirty := false; lump_is_complete := false;
     dfull := []; dremote := []; dnull := [] |}.

Fixpoint lump_map_at (lm : list (dirfrag_t * dirlump)) (d : dirfrag_t)
  : dirlump :=
  match lm with
  | [] => default_dirlump
  | e :: rest => if decide (e.1 = d) then e.2 else lump_map_at rest d
  end.

(** The containing inode of a dirfrag the cache lacks: the cached one, the
    root or a stray made on the spot, or the [assert(0)]. *)
Definition replay_get_diri (k : ino_layout) (mds : MDS) (lp : dirfrag_t)
  : option (MDS * inodeno_t) :=
  match get_inode mds (df_ino lp) with
  | Some _ => Some (mds, df_ino lp)
  | None =>
      if bool_decide (df_ino lp = MDS_INO_ROOT k) then
        Some (create_root_inode k mds)
      else if MDS_INO_IS_STRAY k (df_ino lp) then
        let whose := stray_whose k (df_ino lp) in
        Some (create_stray_inode k whose mds)
      else None
  end.

(** The dir a lump is replayed into: the cached one, or one opened on the
    containing inode. *)
Definition replay_get_dir (k : ino_layout) (mds : MDS) (lp : dirfrag_t)
  : option (MDS * dirfrag_t) :=
  match get_dirfrag mds lp with
  | Some _ => Some (mds, lp)
  | None =>
      match replay_get_diri k mds lp with
      | None => None
      | Some (mds1, diri) =>
          let '(mds2, d) := get_or_open_dirfrag mds1 diri (df_frag lp) in
          let mds3 :=
            if bool_decide (df_ino lp = 1)
            then with_dir (set_dir_auth CDIR_AUTH_UNKNOWN) d mds2
            else mds2 in
          Some (mds3, d)
      end
  end.

Definition replay_fullbit (d : dirfrag_t) (mds : MDS) (p : fullbit) : MDS :=
  let mds1 :=
    match dir_lookup mds d (fb_dn p) with
    | None => add_dentry d (fb_dn p) LinkNull mds
    | Some _ => mds
    end in
  let mds2 := with_dentry (dn_touch (fb_dnv p) (fb_dirty p)) d (fb_dn p) mds1 in
  let ino := i_ino (fb_inode p) in
  match get_inode mds2 ino with
  | None =>
      let mds3 :=
        with_inode_map (<[ino := in_set_inode p (new_CInode (fb_inode p))]>)
                       mds2 in
      let mds4 := link_inode d (fb_dn p) ino mds3 in
      with_inode (in_mark_dirty (fb_dirty p)) ino mds4
  | Some i =>
      let mds3 :=
        match in_parent i with
        | Some (pd, pn) => unlink_inode pd pn mds2
        | None => mds2
        end in
      let mds4 := with_inode (in_set_inode p) ino mds3 in
      let mds5 := link_inode d (fb_dn p) ino mds4 in
      with_inode (in_mark_dirty (fb_dirty p)) ino mds5
  end.

Definition dn_is_null (dn : CDentry) : bool :=
  match dn_linkage dn with LinkNull => true | _ => false end.

Definition replay_remotebit (d : dirfrag_t) (mds : MDS) (p : remotebit) : MDS :=
  let mds1 :=
    match dir_lookup mds d (rb_dn p) with
    | None => add_dentry d (rb_dn p) (LinkRemote (rb_ino p)) mds
    | Some dn => if negb (dn_is_null dn) then unlink_inode d (rb_dn p) mds
                 else mds
    end in
  let mds2 := with_dentry (dn_set_linkage (LinkRemote (rb_ino p))) d (rb_dn p)
                          mds1 in
  with_dentry (dn_touch (rb_dnv p) (rb_dirty p)) d (rb_dn p) mds2.

Definition replay_nullbit (d : dirfrag_t) (mds : MDS) (p : nullbit) : MDS :=
  let mds1 :=
    match dir_lookup mds d (nb_dn p) with
    | None => add_dentry d (nb_dn p) LinkNull mds
    | Some dn => if negb (dn_is_null dn) then unlink_inode d (nb_dn p) mds
                 else mds
    end in
  with_dentry (dn_touch (nb_dnv p) (nb_dirty p)) d (nb_dn p) mds1.

(** One turn of the walk through [lump_order].  [lump._decode_bits()] turns
    the lump's encoded bytes into its three lists; a [dirlump] here holds
    the lists themselves. *)
Definition replay_lump (k : ino_layout) (lm : list (dirfrag_t * dirlump))
    (mds : MDS) (lp : dirfrag_t) : option MDS :=
  let lump := lump_map_at lm lp in
  match replay_get_dir k mds lp with
  | None => None
  | Some (mds1, d) =>
      let mds2 := with_dir (dir_set_version (dirv lump)) d mds1 in
      let mds3 :=
        with_dir (dir_mark (lump_is_dirty lump) (lump_is_complete lump)) d
                 mds2 in
      let mds4 := fold_left (replay_fullbit d) (dfull lump) mds3 in
      let mds5 := fold_left (replay_remotebit d) (dremote lump) mds4 in
      Some (fold_left (replay_nullbit d) (dnull lump) mds5)
  end.

Fixpoint replay_lumps (k : ino_layout) (lm : list (dirfrag_t * dirlump))
    (mds : MDS) (order : list dirfrag_t) : option MDS :=
  match order with
  | [] => Some mds
  | lp :: rest =>
      match replay_lump k lm mds lp with
      | None => None
      | Some mds' => replay_lumps k lm mds' rest
      end
  end.

(** Modelled from the spec: [AnchorClient::got_journaled_agree],
    [MDCache::add_recovered_purge] and [ClientMap::add_completed_request]
    are not among the sources; each records its argument. *)
Definition replay_notes (b : EMetaBlob) (mds : MDS) : MDS :=
  {| nodeid := nodeid mds;
     mdcache :=
       {| dirfrags := dirfrags (mdcache mds);
          inode_map := inode_map (mdcache mds);
          purging := purging (mdcache mds);
          recovered_purges :=
            recovered_purges (mdcache mds) ++ truncated_inodes b;
          uncommitted_slave_updates :=
            uncommitted_slave_updates (mdcache mds);
          migrator_exporting := migrator_exporting (mdcache mds) |};
     anchorclient :=
       {| ac_committed := ac_committed (anchorclient mds);
          ac_journaled_agree :=
            ac_journaled_agree (anchorclient mds) ++ atids b;
          ac_journaled_ack := ac_journaled_ack (anchorclient mds) |};
     anchortable := anchortable mds;
     clientmap :=
       {| cm_version := cm_version (clientmap mds);
          cm_committed := cm_committed (clientmap mds);
          cm_committing := cm_committing (clientmap mds);
          cm_completed_requests :=
            cm_completed_requests (clientmap mds)
              ∪ list_to_set (client_reqs b) |};
     idalloc := idalloc mds;
     mdlog := mdlog mds |}.

Definition EMetaBlob_replay (k : ino_layout) (mds : MDS) (b : EMetaBlob)
  : option MDS :=
  match replay_lumps k (lump_map b) mds (lump_order b) with
  | None => None
  | Some mds' => Some (replay_notes b mds')
  end.

(** ** ESlaveUpdate::replay *)

Definition slave_count (mds : MDS) (r : metareqid_t) : bool :=
  bool_decide (is_Some (uncommitted_slave_updates (mdcache mds) !! r)).

Definition ESlaveUpdate_replay (k : ino_layout) (mds : MDS) (e : ESlaveUpdate)
  : option MDS :=
  match slave_op_ e with
  | OP_PREPARE =>
      if negb (slave_count mds (reqid e)) then
        Some (with_uncommitted_slave_updates
                (<[reqid e := slave_metablob e]>) mds)
      else None
  | OP_COMMIT =>
      match uncommitted_slave_updates (mdcache mds) !! reqid e with
      | Some saved =>
          match EMetaBlob_replay k mds saved with
          | Some mds' =>
              Some (with_uncommitted_slave_updates (delete (reqid e)) mds')
          | None => None
          end
      | None => Some mds
      end
  | OP_ABORT =>
      if slave_count mds (reqid e) then
        Some (with_uncommitted_slave_updates (delete (reqid e)) mds)
      else Some mds
  | OP_other _ => None
  end.

(** Slave updates replayed one after the other, as the log holds them. *)
Fixpoint ESlaveUpdate_replay_all (k : ino_layout) (mds : MDS)
    (l : list ESlaveUpdate) : option MDS :=
  match l with
  | [] => Some mds
  | e :: rest =>
      match ESlaveUpdate_replay k mds e with
      | None => None
      | Some mds' => ESlaveUpdate_replay_all k mds' rest
      end
  end.

(** ** EAlloc::replay *)

(** [IdAlloc::alloc_id] and [IdAlloc::reclaim_id] are not defined in
    journal.cc; replay takes them as given. *)
Record IdAlloc_methods := mk_IdAlloc_methods {
  alloc_id : IdAlloc → bool → idno_t * IdAlloc;
  reclaim_id : IdAlloc → idno_t → bool → IdAlloc
}.

Definition with_idalloc (ia : IdAlloc) (mds : MDS) : MDS :=
  {| nodeid := nodeid mds;
     mdcache := mdcache mds;
     anchorclient := anchorclient mds;
     anchortable := anchortable mds;
     clientmap := clientmap mds;
     idalloc := ia;
     mdlog := mdlog mds |}.

(** The allocator after the event's operation, [None] when an assert on the
    way fails. *)
Definition EAlloc_apply (m : IdAlloc_methods) (ia : IdAlloc) (e : EAlloc)
  : option IdAlloc :=
  match alloc_what e with
  | EALLOC_EV_ALLOC =>
      let '(nid, ia') := alloc_id m ia true in
      if bool_decide (nid = alloc_id_ e) then Some ia' else None
  | EALLOC_EV_FREE => Some (reclaim_id m ia (alloc_id_ e) true)
  | EALLOC_EV_other _ => None
  end.

Definition EAlloc_replay (m : IdAlloc_methods) (mds : MDS) (e : EAlloc)
  : option MDS :=
  if bool_decide (ia_version (idalloc mds) >= table_version e) then Some mds
  else if negb (bool_decide ((table_version e - 1) mod 2 ^ 64
                             = ia_version (idalloc mds))) then None
  else
    match EAlloc_apply m (idalloc mds) e with
    | None => None
    | Some ia =>
        if bool_decide (table_version e = ia_version ia)
        then Some (with_idalloc ia mds)
        else None
    end.

(** ** Notions the properties are stated with *)

(** The client map version a ClientMap or Session event records. *)
Definition cmapv_of (ev : LogEvent) : option version_t :=
  match ev with
  | Ev_ClientMap e => Some (cmap_cmapv e)
  | Ev_Session e => Some (sess_cmapv e)
  | _ => None
  end.

(** A lump asks nothing more of its dir: the dir has left the cache, or its
    first authority is another node, or it has committed the lump's
    version. *)
Definition lump_satisfied (mds : MDS) (lp : dirfrag_t * dirlump) : bool :=
  match get_dirfrag mds lp.1 with
  | None => true
  | Some dir =>
      bool_decide ((dir_authority dir).1 ≠ nodeid mds)
      || bool_decide (dir_committed_version dir >= dirv lp.2)
  end.

(** [cache_grows mds mds']: every dirfrag and every inode cached in [mds] is
    cached in [mds']. *)
Definition cache_grows (mds mds' : MDS) : Prop :=
  (∀ d, is_Some (get_dirfrag mds d) → is_Some (get_dirfrag mds' d))
  ∧ (∀ i, is_Some (get_inode mds i) → is_Some (get_inode mds' i)).

(** Replay can resolve the dir of [lp]: the dirfrag or its inode is cached,
    or the inode is the root or a stray. *)
Definition resolvable (k : ino_layout) (mds : MDS) (lp : dirfrag_t) : Prop :=
  is_Some (get_dirfrag mds lp) ∨ is_Some (get_inode mds (df_ino lp))
  ∨ df_ino lp = MDS_INO_ROOT k ∨ MDS_INO_IS_STRAY k (df_ino lp) = true.

(** The blob cut down to the dirfrags [pre] that come first in its
    [lump_order]: replaying it leaves the state in which the replay of the
    whole blob reaches the dirfrag that follows [pre]. *)
Definition blob_before (b : EMetaBlob) (pre : list dirfrag_t) : EMetaBlob :=
  {| lump_order := pre; lump_map := lump_map b; atids := [];
     truncated_inodes := []; client_reqs := [] |}.

(** The number of the inode replay makes for the stray dirfrag on [ino]:
    [create_stray_inode] takes the offset that replay stored in an [int]. *)
Definition stray_ino (k : ino_layout) (ino : inodeno_t) : inodeno_t :=
  (MDS_INO_STRAY_OFFSET k + stray_whose k ino) mod 2 ^ 64.

(** The lists of the first loop are all empty. *)
Definition expire_lists_nil (acc : expire_lists) : Prop :=
  commit acc = ∅ ∧ waitfor_export acc = [] ∧ waitfor_import acc = [].

(** What a gather and the calls made with its subs satisfy throughout
    [expire]: the target is [c], every sub handed out is pending, and the
    calls carry the subs numbered 1, 2, ... in turn. *)
Definition registering_ok (c : Context) (st : registering) : Prop :=
  gather_onfinish st.1 = c
  ∧ gather_pending st.1 = length st.2
  ∧ gather_num st.1 = length st.2
  ∧ call_context <$> st.2 = (λ n, Some (C_GatherSub n)) <$> seq 1 (length st.2).

(** The completions that have fired once the creator's next pump has run
    and every sub the gather handed out has fired. *)
Definition completions_fired (st : registering) : list Context :=
  gather_pump st.1 ++ (subs_finish (gather_pending st.1) st.1).2.

(** [progresses s s']: from [s] to [s'] durable state only moves forward.
    Nothing enters the cache, no dir comes back under this node's authority,
    no export, purge, completed request or capability appears, committed
    versions and the last import map's offset do not go back, a capped log
    stays capped, and the [last_open_journaled] of an inode with
    capabilities stays unset if it was, and otherwise only grows. *)
Record progresses (s s' : MDS) : Prop := mk_progresses {
  prog_nodeid : nodeid s' = nodeid s;
  prog_dirs : ∀ df d', get_dirfrag s' df = Some d' →
      ∃ d, get_dirfrag s df = Some d
           ∧ ((dir_authority d).1 ≠ nodeid s → (dir_authority d').1 ≠ nodeid s)
           ∧ dir_committed_version d <= dir_committed_version d';
  prog_exporting :
      migrator_exporting (mdcache s') ⊆ migrator_exporting (mdcache s);
  prog_inodes : ∀ p i', get_inode s' p = Some i' → in_any_caps i' = true →
      ∃ i, get_inode s p = Some i ∧ in_any_caps i = true
           ∧ (last_open_journaled i = 0 → last_open_journaled i' = 0)
           ∧ (last_open_journaled i ≠ 0 →
              last_open_journaled i <= last_open_journaled i');
  prog_purging : purging (mdcache s') ⊆ purging (mdcache s);
  prog_anchorclient :
      ac_committed (anchorclient s) ⊆ ac_committed (anchorclient s');
  prog_requests :
      cm_completed_requests (clientmap s')
        ⊆ cm_completed_requests (clientmap s);
  prog_clientmap : cm_committed (clientmap s) <= cm_committed (clientmap s');
  prog_idalloc :
      ia_committed_version (idalloc s) <= ia_committed_version (idalloc s');
  prog_anchortable :
      at_committed_version (anchortable s)
        <= at_committed_version (anchortable s');
  prog_import_map : last_import_map (mdlog s) <= last_import_map (mdlog s');
  prog_capped : log_capped (mdlog s) = true → log_capped (mdlog s') = true
}.

(** ** States and events to run the methods on *)

Definition empty_mdcache : MDCache :=
  {| dirfrags := ∅; inode_map := ∅; purging := ∅; recovered_purges := [];
     uncommitted_slave_updates := ∅; migrator_exporting := ∅ |}.

(** An MDS numbered 0 with an empty cache and all tables at version 0. *)
Definition fresh_mds : MDS :=
  {| nodeid := 0;
     mdcache := empty_mdcache;
     anchorclient := {| ac_committed := ∅; ac_journaled_agree := [];
                        ac_journaled_ack := [] |};
     anchortable := {| at_version := 0; at_committed_version := 0 |};
     clientmap := {| cm_version := 0; cm_committed := 0; cm_committing := 0;
                     cm_completed_requests := ∅ |};
     idalloc := {| ia_version := 0; ia_committed_version := 0; ia_free := [] |};
     mdlog := {| last_import_map := 0; log_capped := false;
                 import_map_expire_waiters := [] |} |}.

Definition empty_blob : EMetaBlob :=
  {| lump_order := []; lump_map := []; atids := []; truncated_inodes := [];
     client_reqs := [] |}.

Definition df_a : dirfrag_t := mk_dirfrag 4096 0.

(** A dir this node is first authority of, committed at [cv], with the given
    ambiguity, its own subtree root. *)
Definition auth_dir (cv : version_t) (ambiguous exporting : bool) : CDir :=
  {| dir_authority := (0, 1);
     dir_committed_version := cv;
     dir_ambiguous_auth := ambiguous;
     dir_exporting := exporting;
     dir_can_auth_pin := true;
     dir_subtree_root := df_a;
     dir_version := cv;
     dir_dirty := false;
     dir_complete := false;
     dir_auth := (0, 1);
     dir_items := ∅ |}.

Definition mds_with_dir (dir : CDir) : MDS :=
  with_dirfrags (<[df_a := dir]>) fresh_mds.

(** A blob with one lump, for [df_a], at version [v]. *)
Definition lump_at (v : version_t) : dirlump :=
  {| dirv := v; lump_is_dirty := true; lump_is_complete := false;
     dfull := []; dremote := []; dnull := [] |}.

Definition one_lump_blob (v : version_t) : EMetaBlob :=
  {| lump_order := [df_a]; lump_map := [(df_a, lump_at v)]; atids := [];
     truncated_inodes := []; client_reqs := [] |}.

(** An MDS whose client map has version 3 committed and version 5 being
    committed. *)
Definition mds_committing : MDS :=
  {| nodeid := 0;
     mdcache := empty_mdcache;
     anchorclient := anchorclient fresh_mds;
     anchortable := anchortable fresh_mds;
     clientmap := {| cm_version := 5; cm_committed := 3; cm_committing := 5;
                     cm_completed_requests := ∅ |};
     idalloc := idalloc fresh_mds;
     mdlog := mdlog fresh_mds |}.

(** An inode-number layout to run replay on: the root is inode 1 and the
    strays are the 256 inodes from 768 on. *)
Definition example_layout : ino_layout :=
  {| MDS_INO_ROOT := 1;
     MDS_INO_STRAY_OFFSET := 768;
     MDS_INO_IS_STRAY := λ i, bool_decide (768 <= i) && bool_decide (i < 1024) |}.

(** An allocator to run replay on: it hands out the head of its free list
    and takes a reclaimed id back at the head, moving one version on each
    time. *)
Definition list_idalloc : IdAlloc_methods :=
  {| alloc_id := λ ia _,
       (hd 0 (ia_free ia),
        {| ia_version := ia_version ia + 1;
           ia_committed_version := ia_committed_version ia;
           ia_free := tl (ia_free ia) |});
     reclaim_id := λ ia id _,
       {| ia_version := ia_version ia + 1;
          ia_committed_version := ia_committed_version ia;
          ia_free := id :: ia_free ia |} |}.

(** An MDS whose allocator is at version 4 with ids 10 and 11 free. *)
Definition mds_idalloc : MDS :=
  with_idalloc {| ia_version := 4; ia_committed_version := 4;
                  ia_free := [10; 11] |} fresh_mds.

Definition req_a : metareqid_t := mk_reqid 7 1.

(** A blob with a lump for the root dir and one for the first stray dir. *)
Definition root_and_stray_blob : EMetaBlob :=
  {| lump_order := [mk_dirfrag 1 0; mk_dirfrag 768 0];
     lump_map := [(mk_dirfrag 1 0, lump_at 2); (mk_dirfrag 768 0, lump_at 3)];
     atids := []; truncated_inodes := []; client_reqs := [] |}.

(** An MDS caching inode 2000 with capabilities, its open last journaled
    at offset [loj]. *)
Definition mds_with_open_inode (loj : off_t) : MDS :=
  with_inode_map
    (<[2000 := {| in_inode := mk_inode 2000 false 0; in_symlink := "";
                  in_parent := None; in_dirty := false; in_any_caps := true;
                  last_open_journaled := loj |}]>)
    fresh_mds.

(** An MDS whose log wrote its last import map at offset [off]. *)
Definition mds_with_import_map (off : off_t) (capped : bool) : MDS :=
  {| nodeid := 0;
     mdcache := empty_mdcache;
     anchorclient := anchorclient fresh_mds;
     anchortable := anchortable fresh_mds;
     clientmap := clientmap fresh_mds;
     idalloc := idalloc fresh_mds;
     mdlog := {| last_import_map := off; log_capped := capped;
                 import_map_expire_waiters := [] |} |}.

(** The dir of [auth_dir] seen from a node that is not its first
    authority. *)
Definition mds_not_auth (dir : CDir) : MDS :=
  {| nodeid := 3;
     mdcache := mdcache (mds_with_dir dir);
     anchorclient := anchorclient fresh_mds;
     anchortable := anchortable fresh_mds;
     clientmap := clientmap fresh_mds;
     idalloc := idalloc fresh_mds;
     mdlog := mdlog fresh_mds |}.

(** ** More of journal.cc *)

(** The test [EOpen::expire] makes before it queues an inode: cached, with
    capabilities. *)
Definition open_has_caps (mds : MDS) (p : inodeno_t) : bool :=
  match get_inode mds p with
  | Some i => in_any_caps i
  | None => false
  end.

(** [lists_within acc acc']: what the first loop of [EMetaBlob::expire] has
    noted in [acc] is still noted in [acc'], a dir to commit at no lower a
    version. *)
Definition lists_within (acc acc' : expire_lists) : Prop :=
  (∀ d v, commit acc !! d = Some v →
          ∃ v', commit acc' !! d = Some v' ∧ v <= v')
  ∧ (∀ ex, ex ∈ waitfor_export acc → ex ∈ waitfor_export acc')
  ∧ (∀ ex, ex ∈ waitfor_import acc → ex ∈ waitfor_import acc').

(** The lump of [dir], cached at [df], is short of its version under this
    node's authority. *)
Definition lump_pending (mds : MDS) (df : dirfrag_t) (lump : dirlump)
    (dir : CDir) : Prop :=
  get_dirfrag mds df = Some dir
  ∧ (dir_authority dir).1 = nodeid mds
  ∧ dir_committed_version dir < dirv lump.

(** What the first loop notes for a pending lump. *)
Definition lump_noted (mds : MDS) (acc : expire_lists) (df : dirfrag_t)
    (lump : dirlump) (dir : CDir) : Prop :=
  if dir_ambiguous_auth dir then
    if subtree_root_is_exporting mds dir
    then dir_subtree_root dir ∈ waitfor_export acc
    else dir_subtree_root dir ∈ waitfor_import acc
  else ∃ v, commit acc !! df = Some v ∧ dirv lump <= v.

(** Every note in [acc] comes from a pending lump of [lumps]: a commit from
    one whose dir is not ambiguous and is short of the noted version, a wait
    for an export or an import from one whose dir is ambiguous. *)
Definition lists_justified (mds : MDS) (lumps : list (dirfrag_t * dirlump))
    (acc : expire_lists) : Prop :=
  (∀ d v, commit acc !! d = Some v →
     ∃ lump dir, (d, lump) ∈ lumps ∧ lump_pending mds d lump dir
                 ∧ dir_ambiguous_auth dir = false
                 ∧ dir_committed_version dir < v)
  ∧ (∀ ex, ex ∈ waitfor_export acc →
       ∃ df lump dir, (df, lump) ∈ lumps ∧ lump_pending mds df lump dir
                      ∧ dir_ambiguous_auth dir = true
                      ∧ subtree_root_is_exporting mds dir = true
                      ∧ ex = dir_subtree_root dir)
  ∧ (∀ ex, ex ∈ waitfor_import acc →
       ∃ df lump dir, (df, lump) ∈ lumps ∧ lump_pending mds df lump dir
                      ∧ dir_ambiguous_auth dir = true
                      ∧ subtree_root_is_exporting mds dir = false
                      ∧ ex = dir_subtree_root dir).

(** What a call of [EMetaBlob::expire] must come from. *)
Definition call_justified (mds : MDS) (b : EMetaBlob) (k : call) : Prop :=
  match k with
  | Dir_commit d v (C_GatherSub _) =>
      dir_can_auth_pin_at mds d = true
      ∧ ∃ lump dir, (d, lump) ∈ lump_map b ∧ lump_pending mds d lump dir
                    ∧ dir_ambiguous_auth dir = false
                    ∧ dir_committed_version dir < v
  | Dir_add_waiter d WAIT_AUTHPINNABLE (C_GatherSub _) =>
      dir_can_auth_pin_at mds d = false
      ∧ ∃ lump dir, (d, lump) ∈ lump_map b ∧ lump_pending mds d lump dir
                    ∧ dir_ambiguous_auth dir = false
  | Dir_add_waiter ex WAIT_IMPORTED (C_GatherSub _) =>
      ∃ df lump dir, (df, lump) ∈ lump_map b ∧ lump_pending mds df lump dir
                     ∧ dir_ambiguous_auth dir = true
                     ∧ subtree_root_is_exporting mds dir = false
                     ∧ ex = dir_subtree_root dir
  | Migrator_add_export_finish_waiter ex (C_GatherSub _) =>
      ∃ df lump dir, (df, lump) ∈ lump_map b ∧ lump_pending mds df lump dir
                     ∧ dir_ambiguous_auth dir = true
                     ∧ subtree_root_is_exporting mds dir = true
                     ∧ ex = dir_subtree_root dir
  | AnchorClient_wait_for_ack atid (C_GatherSub _) =>
      atid ∈ atids b ∧ has_committed mds atid = false
  | MDCache_wait_for_purge ino newsize (C_GatherSub _) =>
      (∃ i, (i, newsize) ∈ truncated_inodes b ∧ i_ino i = ino)
      ∧ is_purging mds ino newsize = true
  | ClientMap_add_trim_waiter r (C_GatherSub _) =>
      r ∈ client_reqs b ∧ have_completed_request mds r = true
  | _ => False
  end.

(** The call [expire] makes for a dir in [commit]. *)
Definition commit_call (mds : MDS) (p : dirfrag_t * version_t)
  : Context → call :=
  if dir_can_auth_pin_at mds p.1 then Dir_commit p.1 p.2
  else Dir_add_waiter p.1 WAIT_AUTHPINNABLE.

(** A registration loop: a turn hands a new sub to [mk x] when [fires x]. *)
Definition registration_loop {A} (fires : A → bool) (mk : A → Context → call)
    (l : list A) (st : registering) : registering :=
  fold_left (λ st x, if fires x then with_new_sub (mk x) st else st) l st.

(** A dir this node is first authority of, committed at version 5, frozen:
    it cannot be auth-pinned. *)
Definition frozen_dir : CDir :=
  {| dir_authority := (0, 1);
     dir_committed_version := 5;
     dir_ambiguous_auth := false;
     dir_exporting := false;
     dir_can_auth_pin := false;
     dir_subtree_root := df_a;
     dir_version := 5;
     dir_dirty := false;
     dir_complete := false;
     dir_auth := (0, 1);
     dir_items := ∅ |}.

(** [lumps_frame mds mds']: the two states differ at most in the dirfrags
    and the inodes of the cache. *)
Definition lumps_frame (mds mds' : MDS) : Prop :=
  nodeid mds' = nodeid mds
  ∧ purging (mdcache mds') = purging (mdcache mds)
  ∧ recovered_purges (mdcache mds') = recovered_purges (mdcache mds)
  ∧ uncommitted_slave_updates (mdcache mds')
    = uncommitted_slave_updates (mdcache mds)
  ∧ migrator_exporting (mdcache mds') = migrator_exporting (mdcache mds)
  ∧ anchorclient mds' = anchorclient mds
  ∧ anchortable mds' = anchortable mds
  ∧ clientmap mds' = clientmap mds
  ∧ idalloc mds' = idalloc mds
  ∧ mdlog mds' = mdlog mds.

(** What replay sets on a dir from its lump. *)
Definition dir_header (dir : CDir) : version_t * bool * bool :=
  (dir_version dir, dir_dirty dir, dir_complete dir).

(** [header_kept x mds mds']: if [x] is cached in [mds], it is cached in
    [mds'] with the same version and flags. *)
Definition header_kept (x : dirfrag_t) (mds mds' : MDS) : Prop :=
  ∀ dir, get_dirfrag mds x = Some dir →
         ∃ dir', get_dirfrag mds' x = Some dir'
                 ∧ dir_header dir' = dir_header dir.

(** The stray numbers of [order] fit the [int] their offset is stored in. *)
Definition strays_in_range (k : ino_layout) (order : list dirfrag_t) : Prop :=
  ∀ lp, lp ∈ order → MDS_INO_IS_STRAY k (df_ino lp) = true →
        0 <= df_ino lp - MDS_INO_STRAY_OFFSET k < 2 ^ 31
        ∧ 0 <= df_ino lp < 2 ^ 64.

(** A blob with no lump that names one client request. *)
Definition blob_with_request : EMetaBlob :=
  {| lump_order := []; lump_map := []; atids := []; truncated_inodes := [];
     client_reqs := [req_a] |}.

(** *** EClientMap::replay *)

Definition with_clientmap (cm : ClientMap) (mds : MDS) : MDS :=
  {| nodeid := nodeid mds;
     mdcache := mdcache mds;
     anchorclient := anchorclient mds;
     anchortable := anchortable mds;
     clientmap := cm;
     idalloc := idalloc mds;
     mdlog := mdlog mds |}.

(** [ClientMap::decode] is not defined in journal.cc, and the bytes [mapbl]
    it reads are not kept in [EClientMap]: [decode] is what decoding the
    event's [mapbl] makes of the client map.  [set_committed] and
    [set_committing] then store the decoded map's version. *)
Definition EClientMap_replay (decode : ClientMap → ClientMap) (mds : MDS)
    (e : EClientMap) : MDS :=
  let cm := decode (clientmap mds) in
  with_clientmap
    {| cm_version := cm_version cm;
       cm_committed := cm_version cm;
       cm_committing := cm_version cm;
       cm_completed_requests := cm_completed_requests cm |}
    mds.

(** *** EAnchor::replay *)

Inductive anchor_op :=
  | ANCHOR_OP_CREATE_PREPARE
  | ANCHOR_OP_DESTROY_PREPARE
  | ANCHOR_OP_UPDATE_PREPARE
  | ANCHOR_OP_COMMIT
  | ANCHOR_OP_other (op : Z).

(** The fields of an Anchor event that only its replay reads, beside the
    [anchor_atid] and [anchor_version] of [EAnchor]; [Trace] stands for the
    vector of anchors the event carries. *)
Record EAnchor_args {Trace : Type} := mk_EAnchor_args {
  anchor_op_ : anchor_op;
  anchor_ino : inodeno_t;
  anchor_trace : Trace;
  anchor_reqmds : Z
}.
Arguments EAnchor_args : clear implicits.
Arguments mk_EAnchor_args {Trace}.

(** The methods of [AnchorTable] that replay calls are not defined in
    journal.cc; replay takes them as given. *)
Record AnchorTable_methods {Trace : Type} := mk_AnchorTable_methods {
  create_prepare : AnchorTable → inodeno_t → Trace → Z → AnchorTable;
  destroy_prepare : AnchorTable → inodeno_t → Z → AnchorTable;
  update_prepare : AnchorTable → inodeno_t → Trace → Z → AnchorTable;
  anchortable_commit : AnchorTable → version_t → AnchorTable
}.
Arguments AnchorTable_methods : clear implicits.
Arguments mk_AnchorTable_methods {Trace}.

Definition with_anchortable (t : AnchorTable) (mds : MDS) : MDS :=
  {| nodeid := nodeid mds;
     mdcache := mdcache mds;
     anchorclient := anchorclient mds;
     anchortable := t;
     clientmap := clientmap mds;
     idalloc := idalloc mds;
     mdlog := mdlog mds |}.

(** The table after the event's operation, [None] for the [default:] of the
    switch. *)
Definition EAnchor_apply {Trace} (m : AnchorTable_methods Trace)
    (t : AnchorTable) (e : EAnchor) (a : EAnchor_args Trace)
  : option AnchorTable :=
  match anchor_op_ a with
  | ANCHOR_OP_CREATE_PREPARE =>
      Some (create_prepare m t (anchor_ino a) (anchor_trace a)
              (anchor_reqmds a))
  | ANCHOR_OP_DESTROY_PREPARE =>
      Some (destroy_prepare m t (anchor_ino a) (anchor_reqmds a))
  | ANCHOR_OP_UPDATE_PREPARE =>
      Some (update_prepare m t (anchor_ino a) (anchor_trace a)
              (anchor_reqmds a))
  | ANCHOR_OP_COMMIT => Some (anchortable_commit m t (anchor_atid e))
  | ANCHOR_OP_other _ => None
  end.

Definition EAnchor_replay {Trace} (m : AnchorTable_methods Trace) (mds : MDS)
    (e : EAnchor) (a : EAnchor_args Trace) : option MDS :=
  if bool_decide (at_version (anchortable mds) >= anchor_version e)
  then Some mds
  else if negb (bool_decide ((anchor_version e - 1) mod 2 ^ 64
                             = at_version (anchortable mds))) then None
  else
    match EAnchor_apply m (anchortable mds) e a with
    | None => None
    | Some t =>
        if bool_decide (anchor_version e = at_version t)
        then Some (with_anchortable t mds)
        else None
    end.

(** An anchor table to run replay on: every operation moves it one version
    on. *)
Definition counting_anchortable : AnchorTable_methods unit :=
  let bump t := {| at_version := at_version t + 1;
                   at_committed_version := at_committed_version t |} in
  {| create_prepare := λ t _ _ _, bump t;
     destroy_prepare := λ t _ _, bump t;
     update_prepare := λ t _ _ _, bump t;
     anchortable_commit := λ t _, bump t |}.

(** An MDS whose anchor table is at version 9. *)
Definition mds_anchortable : MDS :=
  with_anchortable {| at_version := 9; at_committed_version := 9 |} fresh_mds.

(** The dentry [dn] of the cached dir [d] is at version [v], and dirty if
    [dirty]. *)
Definition dentry_at (mds : MDS) (d : dirfrag_t) (dn : string) (v : version_t)
    (dirty : bool) : Prop :=
  ∃ x, dir_lookup mds d dn = Some x ∧ dn_version x = v
       ∧ (dirty = true → dn_dirty x = true).

(** * Properties *)

(** ** EMetaBlob::has_expired *)

Lemma has_expired_lump_satisfied mds lp :
  has_expired_lump mds lp
  = if lump_satisfied mds lp then LumpContinue else LumpReturnFalse.
Proof.
  unfold has_expired_lump, lump_satisfied.
  destruct (get_dirfrag mds lp.1) as [dir|]; [|done].
  repeat case_bool_decide; simpl; try done; try lia.
  all: by destruct (dir_ambiguous_auth dir), (subtree_root_is_exporting mds dir).
Qed.

(** The [assert(0)] that closes the loop body is never reached. *)
Lemma has_expired_lumps_forallb mds lumps :
  has_expired_lumps mds lumps = Some (forallb (lump_satisfied mds) lumps).
Proof.
  induction lumps as [|lp rest IH]; [done|].
  simpl. rewrite has_expired_lump_satisfied.
  by destruct (lump_satisfied mds lp).
Qed.

Lemma EMetaBlob_has_expired_eq mds b :
  EMetaBlob_has_expired mds b
  = Some (forallb (lump_satisfied mds) (lump_map b)
          && atids_committed mds b && none_purging mds b
          && none_completed mds b).
Proof.
  unfold EMetaBlob_has_expired. rewrite has_expired_lumps_forallb.
  by destruct (forallb _ (lump_map b)), (atids_committed mds b),
       (none_purging mds b), (none_completed mds b).
Qed.

Lemma forallb_false_elem {A} (f : A → bool) (l : list A) (x : A) :
  x ∈ l → f x = false → forallb f l = false.
Proof.
  intros Hx Hf. induction Hx as [|x y l Hx IH]; simpl.
  - by rewrite Hf.
  - rewrite IH; [apply andb_false_r | done].
Qed.

(** C1 (as the code has it): a cached dir with ambiguous authority keeps the
    blob from expiring when this node is its first authority and it has not
    committed the lump's version; when it has committed that version, or its
    first authority is another node, the lump is passed over like any other
    satisfied lump. *)
Theorem EMetaBlob_has_expired_ambiguous mds b df lump dir :
  (df, lump) ∈ lump_map b →
  get_dirfrag mds df = Some dir →
  dir_ambiguous_auth dir = true →
  ((dir_authority dir).1 = nodeid mds ∧ dir_committed_version dir < dirv lump →
     EMetaBlob_has_expired mds b = Some false)
  ∧ ((dir_authority dir).1 ≠ nodeid mds
     ∨ dir_committed_version dir >= dirv lump →
     has_expired_lump mds (df, lump) = LumpContinue).
Proof.
  intros Hin Hdir Hamb. split.
  - intros [Hauth Hcv]. rewrite EMetaBlob_has_expired_eq.
    rewrite (forallb_false_elem _ _ _ Hin); [done|].
    unfold lump_satisfied. simpl. rewrite Hdir.
    repeat case_bool_decide; simpl; try done; lia.
  - intros Hsat. rewrite has_expired_lump_satisfied.
    unfold lump_satisfied. simpl. rewrite Hdir.
    destruct Hsat; repeat case_bool_decide; simpl; try done; lia.
Qed.

Lemma EMetaBlob_has_expired_ambiguous_witness :
  EMetaBlob_has_expired (mds_with_dir (auth_dir 5 true true)) (one_lump_blob 7)
  = Some false.
Proof.
  apply (EMetaBlob_has_expired_ambiguous
           (mds_with_dir (auth_dir 5 true true)) (one_lump_blob 7)
           df_a (lump_at 7) (auth_dir 5 true true)).
  - apply list_elem_of_here.
  - reflexivity.
  - reflexivity.
  - split; [reflexivity | simpl; lia].
Defined.

(** C1 (as stated) fails: the dir is cached, its authority is ambiguous and
    its subtree is being exported, yet with version 10 committed a lump at
    version 7 does not hold the blob back. *)
Lemma EMetaBlob_has_expired_ambiguous_committed :
  get_dirfrag (mds_with_dir (auth_dir 10 true true)) df_a
    = Some (auth_dir 10 true true)
  ∧ dir_ambiguous_auth (auth_dir 10 true true) = true
  ∧ subtree_root_is_exporting (mds_with_dir (auth_dir 10 true true))
      (auth_dir 10 true true) = true
  ∧ lump_map (one_lump_blob 7) = [(df_a, lump_at 7)]
  ∧ EMetaBlob_has_expired (mds_with_dir (auth_dir 10 true true))
      (one_lump_blob 7) = Some true.
Proof. by vm_compute. Qed.

(** ** EMetaBlob::expire and the gather *)

Section registration.
Context {A : Type} (step : registering → A → registering).

(** A registration loop keeps whatever each of its turns keeps. *)
Lemma fold_left_invariant (P : registering → Prop) :
  (∀ st x, P st → P (step st x)) →
  ∀ l st, P st → P (fold_left step l st).
Proof.
  intros Hstep l. induction l as [|x l IH]; simpl; [done|].
  intros st Hst. apply IH, Hstep, Hst.
Qed.

(** It has made no call at its end only if it had made none at its start
    and none of its turns fired. *)
Lemma fold_left_calls_nil (fires : A → bool) :
  (∀ st x, (step st x).2 = [] ↔ st.2 = [] ∧ fires x = false) →
  ∀ l st, (fold_left step l st).2 = []
          ↔ st.2 = [] ∧ forallb (λ x, negb (fires x)) l = true.
Proof.
  intros Hstep l. induction l as [|x l IH]; simpl; intros st.
  - naive_solver.
  - rewrite IH, Hstep, andb_true_iff, negb_true_iff. naive_solver.
Qed.
End registration.

Lemma with_new_sub_ok c mk st :
  (∀ sub, call_context (mk sub) = Some sub) →
  registering_ok c st → registering_ok c (with_new_sub mk st).
Proof.
  intros Hmk (Hc & Hp & Hn & Hs). destruct st as [g calls]; simpl in *.
  unfold registering_ok, with_new_sub; simpl.
  rewrite length_app, Nat.add_1_r. repeat split; try congruence.
  rewrite fmap_app, Hs, seq_S, fmap_app. simpl. by rewrite Hmk, Hn.
Qed.

Lemma with_new_sub_calls_nil mk st : (with_new_sub mk st).2 ≠ [].
Proof. destruct st as [g calls]. simpl. by destruct calls. Qed.

Lemma expire_register_ok mds b c acc :
  registering_ok c (expire_register mds b c acc).
Proof.
  unfold expire_register, register_reqs, register_purges, register_atids,
    register_imports, register_exports, register_commits.
  repeat (apply fold_left_invariant;
          [intros st x Hst;
           repeat match goal with |- context [if ?t then _ else _] =>
                    destruct t end;
           try done; by apply with_new_sub_ok|]).
  by repeat split.
Qed.

Lemma forallb_negb_true_nil {A} (l : list A) :
  forallb (λ _, negb true) l = true ↔ l = [].
Proof. by destruct l. Qed.

Lemma expire_register_calls_nil mds b c acc :
  (expire_register mds b c acc).2 = []
  ↔ commit acc = ∅ ∧ waitfor_export acc = [] ∧ waitfor_import acc = []
    ∧ atids_committed mds b = true ∧ none_purging mds b = true
    ∧ none_completed mds b = true.
Proof.
  unfold expire_register, register_reqs, register_purges, register_atids,
    register_imports, register_exports, register_commits.
  rewrite (fold_left_calls_nil _ (have_completed_request mds)); last first.
  { intros st x. destruct (have_completed_request mds x);
      [pose proof (with_new_sub_calls_nil (ClientMap_add_trim_waiter x) st)|];
      naive_solver. }
  rewrite (fold_left_calls_nil _ (λ p, is_purging mds (i_ino p.1) p.2));
    last first.
  { intros st x. destruct (is_purging mds (i_ino x.1) x.2);
      [pose proof (with_new_sub_calls_nil
                     (MDCache_wait_for_purge (i_ino x.1) x.2) st)|];
      naive_solver. }
  rewrite (fold_left_calls_nil _ (λ p, negb (has_committed mds p)));
    last first.
  { intros st x. destruct (has_committed mds x); simpl;
      [|pose proof (with_new_sub_calls_nil (AnchorClient_wait_for_ack x) st)];
      naive_solver. }
  rewrite (fold_left_calls_nil _ (λ _, true)); last first.
  { intros st x.
    pose proof (with_new_sub_calls_nil (Dir_add_waiter x WAIT_IMPORTED) st).
    naive_solver. }
  rewrite (fold_left_calls_nil _ (λ _, true)); last first.
  { intros st x.
    pose proof (with_new_sub_calls_nil (Migrator_add_export_finish_waiter x) st).
    naive_solver. }
  rewrite (fold_left_calls_nil _ (λ _, true)); last first.
  { intros st x. destruct (dir_can_auth_pin_at mds x.1);
      [pose proof (with_new_sub_calls_nil (Dir_commit x.1 x.2) st)
      |pose proof (with_new_sub_calls_nil
                     (Dir_add_waiter x.1 WAIT_AUTHPINNABLE) st)];
      naive_solver. }
  rewrite !forallb_negb_true_nil, map_to_list_empty_iff. simpl.
  unfold atids_committed, none_purging, none_completed.
  assert (forallb (λ x, negb (negb (has_committed mds x))) (atids b)
          = forallb (has_committed mds) (atids b)) as ->.
  { induction (atids b) as [|x l IH]; simpl; [done|].
    by rewrite negb_involutive, IH. }
  naive_solver.
Qed.

(** A turn of the first loop never reaches its [assert(0)]; it leaves the
    lists alone for a satisfied lump and adds to one of them otherwise. *)
Lemma expire_lump_spec mds acc lp :
  ∃ acc', expire_lump mds acc lp = Some acc'
    ∧ (expire_lists_nil acc'
       ↔ expire_lists_nil acc ∧ lump_satisfied mds lp = true).
Proof.
  unfold expire_lump, lump_satisfied, expire_lists_nil.
  destruct (get_dirfrag mds lp.1) as [dir|];
    [|eexists; split; [done|naive_solver]].
  repeat case_bool_decide; simpl; try lia;
    try (eexists; split; [done|naive_solver]).
  destruct (dir_ambiguous_auth dir);
    [destruct (subtree_root_is_exporting mds dir)|];
    (eexists; split; [done|]); simpl; (split; [|naive_solver]).
  - intros (_ & Hx & _). by destruct (waitfor_export acc).
  - intros (_ & _ & Hx). by destruct (waitfor_import acc).
  - intros (Hx & _). by apply insert_non_empty in Hx.
Qed.

Lemma expire_lumps_spec mds lumps : ∀ acc,
  ∃ acc', expire_lumps mds acc lumps = Some acc'
    ∧ (expire_lists_nil acc'
       ↔ expire_lists_nil acc ∧ forallb (lump_satisfied mds) lumps = true).
Proof.
  induction lumps as [|lp rest IH]; intros acc; simpl.
  - eexists; split; [done|]. naive_solver.
  - destruct (expire_lump_spec mds acc lp) as (acc1 & -> & H1).
    destruct (IH acc1) as (acc2 & -> & H2).
    eexists; split; [done|]. rewrite H2, H1, andb_true_iff. naive_solver.
Qed.

(** Firing [k] of the pending subs fires the target when they are the last
    ones, and nothing before. *)
Lemma subs_finish_spec k : ∀ g,
  (k ≤ gather_pending g)%nat →
  (subs_finish k g).2
  = (if decide (k = gather_pending g ∧ k ≠ O) then [gather_onfinish g] else []).
Proof.
  induction k as [|k IH]; intros g Hk; simpl.
  - case_decide; naive_solver.
  - unfold sub_finish. destruct (gather_pending g) as [|n] eqn:Hp; [lia|].
    specialize (IH {| gather_onfinish := gather_onfinish g;
                      gather_pending := n; gather_num := gather_num g |}).
    simpl in IH. destruct (subs_finish k _) as [g2 fired2]. simpl in *.
    rewrite IH by lia. destruct n as [|n].
    + assert (k = O) as -> by lia. repeat case_decide; naive_solver.
    + repeat case_decide; try done; lia.
Qed.

(** C2: [expire] always returns, having handed one fresh sub of the gather
    round the caller's completion to each call it made and fired nothing
    itself; over the pump that follows and the firing of every sub, the
    completion fires exactly once.  When the blob has not expired there is
    at least one call, the pump fires nothing, no completion fires while
    fewer than all of the subs have fired, and the completion fires when the
    last one does.  When every dependency is already satisfied no sub is
    handed out, and the completion fires at the pump, no sub's firing being
    waited for. *)
Theorem EMetaBlob_expire_gather mds b c :
  ∃ g calls,
    EMetaBlob_expire mds b c = Some (g, calls)
    ∧ registering_ok c (g, calls)
    ∧ completions_fired (g, calls) = [c]
    ∧ (∀ j, (j < length calls)%nat → (subs_finish j g).2 = [])
    ∧ (EMetaBlob_has_expired mds b = Some false →
       calls ≠ [] ∧ gather_pump g = []
       ∧ (subs_finish (length calls) g).2 = [c])
    ∧ (EMetaBlob_has_expired mds b = Some true →
       calls = [] ∧ gather_pump g = [c]
       ∧ ∀ j, (subs_finish j g).2 = []).
Proof.
  unfold EMetaBlob_expire.
  destruct (expire_lumps_spec mds (lump_map b) expire_lists_empty)
    as (acc & -> & Hacc).
  pose proof (expire_register_ok mds b c acc) as Hok.
  pose proof (expire_register_calls_nil mds b c acc) as Hnil.
  destruct (expire_register mds b c acc) as [g calls].
  destruct Hok as (Hc & Hp & Hn & Hs). simpl in *.
  exists g, calls. split; [done|]. split; [done|].
  assert (expire_lists_nil expire_lists_empty) as Hempty by done.
  unfold completions_fired, gather_pump. simpl.
  rewrite EMetaBlob_has_expired_eq, Hn.
  split_and!.
  - rewrite subs_finish_spec by lia. rewrite Hp.
    destruct calls as [|k calls]; case_decide as Hlast; simpl in *;
      try by rewrite Hc.
    + by destruct Hlast.
    + by destruct Hlast.
  - intros j Hj. rewrite subs_finish_spec by lia.
    case_decide; [lia|done].
  - intros [= Hexp]. assert (calls ≠ []) as Hcalls.
    { intros Hcalls. apply Hnil in Hcalls as (H1 & H2 & H3 & H4 & H5 & H6).
      assert (expire_lists_nil acc) as Hn' by done.
      apply Hacc in Hn' as [_ Hl]. by rewrite Hl, H4, H5, H6 in Hexp. }
    split; [done|]. rewrite subs_finish_spec by lia.
    destruct calls; [done|]. simpl in Hp. simpl. split; [done|].
    case_decide; [by rewrite Hc|lia].
  - intros [= Hexp]. apply andb_true_iff in Hexp as [Hexp H6].
    apply andb_true_iff in Hexp as [Hexp H5].
    apply andb_true_iff in Hexp as [Hl H4].
    assert (calls = []) as ->.
    { apply Hnil. assert (expire_lists_nil acc) as (?&?&?) by by apply Hacc.
      done. }
    split; [done|]. simpl. split; [by rewrite Hc|].
    simpl in Hp. intros j. clear -Hp. revert g Hp.
    induction j as [|j IH]; intros g Hp; simpl; [done|].
    unfold sub_finish. rewrite Hp.
    specialize (IH g Hp). by destruct (subs_finish j g).
Qed.

(** A lump at version 7 on a dir committed at version 5, auth-pinnable and
    not ambiguous: the blob has not expired, [expire] asks the dir to commit
    version 7 with the first sub, the pump fires nothing and the completion
    fires when that sub does. *)
Example EMetaBlob_expire_waits_for_commit :
  EMetaBlob_has_expired (mds_with_dir (auth_dir 5 false false))
    (one_lump_blob 7) = Some false
  ∧ EMetaBlob_expire (mds_with_dir (auth_dir 5 false false))
      (one_lump_blob 7) (Ctx 0)
    = Some ({| gather_onfinish := Ctx 0; gather_pending := 1;
               gather_num := 1 |},
            [Dir_commit df_a 7 (C_GatherSub 1)])
  ∧ gather_pump
      {| gather_onfinish := Ctx 0; gather_pending := 1; gather_num := 1 |} = []
  ∧ completions_fired
      ({| gather_onfinish := Ctx 0; gather_pending := 1; gather_num := 1 |},
       [Dir_commit df_a 7 (C_GatherSub 1)]) = [Ctx 0].
Proof. by vm_compute. Qed.

(** The same lump seen from a node that is not the dir's first authority:
    the blob has expired and [expire] registers nothing. *)
Example EMetaBlob_expire_skips_non_auth :
  EMetaBlob_has_expired (mds_not_auth (auth_dir 5 false false))
    (one_lump_blob 7) = Some true
  ∧ EMetaBlob_expire (mds_not_auth (auth_dir 5 false false))
      (one_lump_blob 7) (Ctx 0)
    = Some (C_Gather_new (Ctx 0), []).
Proof. by vm_compute. Qed.

(** An ambiguous dir short of the lump's version: [expire] waits for the
    export of its subtree root to finish, and does not ask for a commit. *)
Example EMetaBlob_expire_waits_for_export :
  EMetaBlob_expire (mds_with_dir (auth_dir 5 true true))
    (one_lump_blob 7) (Ctx 0)
  = Some ({| gather_onfinish := Ctx 0; gather_pending := 1; gather_num := 1 |},
          [Migrator_add_export_finish_waiter df_a (C_GatherSub 1)]).
Proof. by vm_compute. Qed.

(** A blob with nothing left to wait for: [expire] builds the gather round
    the caller's completion, hands out no sub and returns; the completion
    fires at the pump. *)
Example EMetaBlob_expire_empty_fires_at_pump :
  EMetaBlob_has_expired fresh_mds empty_blob = Some true
  ∧ EMetaBlob_expire fresh_mds empty_blob (Ctx 0)
    = Some (C_Gather_new (Ctx 0), [])
  ∧ gather_pump (C_Gather_new (Ctx 0)) = [Ctx 0]
  ∧ completions_fired (C_Gather_new (Ctx 0), []) = [Ctx 0].
Proof. by vm_compute. Qed.

(** ** The events that are always expired *)

(** C3 (as the code has it): [has_expired] is true of the four events in
    every state; [expire] aborts for EAnchorClient, EPurgeFinish and
    EImportFinish, while for EString it returns, having made no call. *)
Theorem always_expired_events mds c :
  (∀ e, has_expired mds (Ev_String e) = Some true)
  ∧ (∀ e, has_expired mds (Ev_AnchorClient e) = Some true)
  ∧ (∀ e, has_expired mds (Ev_PurgeFinish e) = Some true)
  ∧ (∀ e, has_expired mds (Ev_ImportFinish e) = Some true)
  ∧ (∀ e, expire mds (Ev_AnchorClient e) c = None)
  ∧ (∀ e, expire mds (Ev_PurgeFinish e) c = None)
  ∧ (∀ e, expire mds (Ev_ImportFinish e) c = None)
  ∧ (∀ e, expire mds (Ev_String e) c = Some []).
Proof. repeat split. Qed.

(** C3 (as stated) fails: [EString::expire] does not abort. *)
Lemma EString_expire_returns :
  EString_expire fresh_mds (mk_EString "heartbeat") (Ctx 0) = Some [].
Proof. reflexivity. Qed.

(** ** EOpen::has_expired *)

Lemma EOpen_has_expired_loop_forallb mds e l :
  EOpen_has_expired_loop mds e l
  = forallb (λ p, negb (open_still_refers mds e p)) l.
Proof.
  induction l as [|p l IH]; simpl; [done|].
  by destruct (open_still_refers mds e p).
Qed.

Lemma open_still_refers_true mds e p :
  open_still_refers mds e p = true
  ↔ ∃ i, get_inode mds p = Some i ∧ in_any_caps i = true
         ∧ last_open_journaled i ≠ 0
         ∧ last_open_journaled i <= open_start_off e.
Proof.
  unfold open_still_refers. destruct (get_inode mds p) as [i|].
  - rewrite andb_true_iff, negb_true_iff, orb_false_iff,
      !bool_decide_eq_false.
    split.
    + intros (Hc & Hgt & Hz). exists i. repeat split; try done; lia.
    + intros (i' & [= <-] & Hc & Hz & Hle). repeat split; try done; lia.
  - split; [done|]. by intros (i & ? & _).
Qed.

Lemma EOpen_has_expired_true mds e :
  EOpen_has_expired mds e = true
  ↔ ∀ p, p ∈ inos e → open_still_refers mds e p = false.
Proof.
  unfold EOpen_has_expired. rewrite EOpen_has_expired_loop_forallb.
  rewrite forallb_forall. split.
  - intros H p Hp. apply list_elem_of_In, H in Hp.
    by apply negb_true_iff.
  - intros H p Hp. apply list_elem_of_In, H in Hp. by rewrite Hp.
Qed.

(** C5: an Open event has expired exactly when no inode of [inos] is cached
    with capabilities and a [last_open_journaled] that is neither zero nor
    past the event's start offset. *)
Theorem EOpen_has_expired_iff mds e :
  EOpen_has_expired mds e = true
  ↔ ∀ p, p ∈ inos e →
      ¬ ∃ i, get_inode mds p = Some i ∧ in_any_caps i = true
             ∧ last_open_journaled i ≠ 0
             ∧ last_open_journaled i <= open_start_off e.
Proof.
  rewrite EOpen_has_expired_true. split.
  - intros H p Hp Hex. apply open_still_refers_true in Hex.
    by rewrite (H p Hp) in Hex.
  - intros H p Hp. destruct (open_still_refers mds e p) eqn:Hr; [|done].
    apply open_still_refers_true in Hr. by apply H in Hr.
Qed.

(** An inode with capabilities whose open was journaled at 500 does not
    hold back an Open event that starts at 400; journaled at 300, it does. *)
Example EOpen_superseded :
  EOpen_has_expired (mds_with_open_inode 500) (mk_EOpen 400 [2000] empty_blob)
    = true
  ∧ EOpen_has_expired (mds_with_open_inode 300)
      (mk_EOpen 400 [2000] empty_blob) = false
  ∧ EOpen_has_expired (mds_with_open_inode 0)
      (mk_EOpen 400 [2000] empty_blob) = true.
Proof. by vm_compute. Qed.

(** ** EImportMap::has_expired *)

Lemma EImportMap_has_expired_true mds e :
  EImportMap_has_expired mds e = true
  ↔ last_import_map (mdlog mds) > importmap_end_off e
    ∨ log_capped (mdlog mds) = true.
Proof.
  unfold EImportMap_has_expired. case_bool_decide.
  - naive_solver.
  - destruct (log_capped (mdlog mds)); naive_solver.
Qed.

(** C8: an import map has expired exactly when a newer one has been written
    or the log is capped; otherwise it has not. *)
Theorem EImportMap_has_expired_iff mds e :
  (EImportMap_has_expired mds e = true
   ↔ last_import_map (mdlog mds) > importmap_end_off e
     ∨ log_capped (mdlog mds) = true)
  ∧ (EImportMap_has_expired mds e = false
     ↔ last_import_map (mdlog mds) <= importmap_end_off e
       ∧ log_capped (mdlog mds) = false).
Proof.
  split; [apply EImportMap_has_expired_true|].
  pose proof (EImportMap_has_expired_true mds e) as Ht.
  destruct (EImportMap_has_expired mds e).
  - split; [done|]. intros [Hle Hcap].
    destruct Ht as [[Hgt|Hc] _]; [done|lia|congruence].
  - split; [|done]. intros _.
    split; [|destruct (log_capped (mdlog mds)); naive_solver].
    destruct (decide (last_import_map (mdlog mds) > importmap_end_off e));
      [|lia]. naive_solver.
Qed.

(** With a second import map written at offset 200, the one that ends at
    100 has expired and the one that ends at 200 has not. *)
Example EImportMap_checkpoint :
  EImportMap_has_expired (mds_with_import_map 200 false)
    (mk_EImportMap 100 [] empty_blob) = true
  ∧ EImportMap_has_expired (mds_with_import_map 200 false)
      (mk_EImportMap 200 [] empty_blob) = false
  ∧ EImportMap_has_expired (mds_with_import_map 200 true)
      (mk_EImportMap 200 [] empty_blob) = true.
Proof. by vm_compute. Qed.

(** ** EClientMap::expire and ESession::expire *)

(** C10: when a ClientMap or Session event has not expired, the committed
    version is below its [cmapv], so the assert of the in-flight-commit
    branch holds, and [expire] returns: it waits on the commit in flight if
    that covers [cmapv], and starts a commit otherwise. *)
Theorem clientmap_expire_assert_holds mds ev v c :
  cmapv_of ev = Some v →
  has_expired mds ev = Some false →
  cm_committed (clientmap mds) < v
  ∧ (cm_committing (clientmap mds) >= v →
     cm_committing (clientmap mds) > cm_committed (clientmap mds))
  ∧ expire mds ev c
    = Some [if bool_decide (cm_committing (clientmap mds) >= v)
            then ClientMap_add_commit_waiter c else MDS_log_clientmap c].
Proof.
  intros Hv Hexp. destruct ev; try done; simpl in *;
    injection Hv as <-; injection Hexp as Hexp.
  - unfold EClientMap_has_expired in Hexp. unfold EClientMap_expire.
    repeat case_bool_decide; try done; repeat split; try done; lia.
  - unfold ESession_has_expired in Hexp. unfold ESession_expire.
    repeat case_bool_decide; try done; repeat split; try done; lia.
Qed.

(** A commit of version 5 is in flight over a committed version 3: a
    ClientMap event at version 4 waits on it. *)
Lemma clientmap_expire_assert_holds_witness :
  expire mds_committing (Ev_ClientMap (mk_EClientMap 4)) (Ctx 0)
  = Some [ClientMap_add_commit_waiter (Ctx 0)].
Proof.
  apply (clientmap_expire_assert_holds mds_committing
           (Ev_ClientMap (mk_EClientMap 4)) 4 (Ctx 0)); reflexivity.
Defined.

(** ** has_expired along the life of the MDS *)

Lemma forallb_impl {A} (f g : A → bool) (l : list A) :
  (∀ x, f x = true → g x = true) → forallb f l = true → forallb g l = true.
Proof.
  intros Hfg. induction l as [|x l IH]; simpl; [done|].
  rewrite !andb_true_iff. naive_solver.
Qed.

Section progress.
Context (s s' : MDS) (Hprog : progresses s s').

Lemma lump_satisfied_progress lp :
  lump_satisfied s lp = true → lump_satisfied s' lp = true.
Proof.
  unfold lump_satisfied.
  destruct (get_dirfrag s' lp.1) as [d'|] eqn:Hd'; [|done].
  destruct (prog_dirs _ _ Hprog _ _ Hd') as (d & -> & Hauth & Hcv).
  rewrite (prog_nodeid _ _ Hprog), !orb_true_iff, !bool_decide_eq_true.
  intros [?|?]; [left; auto | right; lia].
Qed.

Lemma EMetaBlob_has_expired_progress b :
  EMetaBlob_has_expired s b = Some true →
  EMetaBlob_has_expired s' b = Some true.
Proof.
  rewrite !EMetaBlob_has_expired_eq. intros [= H]. f_equal.
  apply andb_true_iff in H as [H H4]. apply andb_true_iff in H as [H H3].
  apply andb_true_iff in H as [H1 H2].
  rewrite !andb_true_iff. repeat split.
  - revert H1. apply forallb_impl, lump_satisfied_progress.
  - revert H2. apply forallb_impl. intros x. unfold has_committed.
    rewrite !bool_decide_eq_true. apply (prog_anchorclient _ _ Hprog).
  - revert H3. apply forallb_impl. intros x. unfold is_purging.
    rewrite !negb_true_iff, !bool_decide_eq_false. intros Hx Hx'.
    by apply Hx, (prog_purging _ _ Hprog).
  - revert H4. apply forallb_impl. intros x. unfold have_completed_request.
    rewrite !negb_true_iff, !bool_decide_eq_false. intros Hx Hx'.
    by apply Hx, (prog_requests _ _ Hprog).
Qed.

Lemma EOpen_has_expired_progress e :
  EOpen_has_expired s e = true → EOpen_has_expired s' e = true.
Proof.
  rewrite !EOpen_has_expired_true. intros H p Hp.
  destruct (open_still_refers s' e p) eqn:Hr; [|done].
  apply open_still_refers_true in Hr as (i' & Hi' & Hc' & Hz' & Hle').
  rewrite <- (H p Hp). symmetry. apply open_still_refers_true.
  destruct (prog_inodes _ _ Hprog _ _ Hi' Hc') as (i & Hi & Hc & Hz & Hle).
  exists i. repeat split; try done.
  - intros Hz0. by apply Hz' , Hz.
  - assert (last_open_journaled i ≠ 0) as Hnz by (intros Hz0; by apply Hz', Hz).
    specialize (Hle Hnz). lia.
Qed.

Lemma EExport_has_expired_progress e :
  EExport_has_expired s e = true → EExport_has_expired s' e = true.
Proof.
  unfold EExport_has_expired.
  destruct (get_dirfrag s' (export_base e)) as [d'|] eqn:Hd'; [|done].
  destruct (prog_dirs _ _ Hprog _ _ Hd') as (d & -> & _).
  pose proof (prog_exporting _ _ Hprog) as Hsub.
  repeat case_bool_decide; simpl; try done.
  exfalso. auto.
Qed.

Lemma has_expired_progress ev :
  has_expired s ev = Some true → has_expired s' ev = Some true.
Proof.
  destruct ev as [e|e|e|e|e|e|e|e|e|e|e|e|e|e]; simpl; try done;
    try apply EMetaBlob_has_expired_progress; intros [= H]; f_equal.
  - revert H. unfold EClientMap_has_expired.
    pose proof (prog_clientmap _ _ Hprog).
    repeat case_bool_decide; try done; lia.
  - revert H. unfold ESession_has_expired.
    pose proof (prog_clientmap _ _ Hprog).
    repeat case_bool_decide; try done; lia.
  - revert H. unfold EAlloc_has_expired.
    pose proof (prog_idalloc _ _ Hprog).
    repeat case_bool_decide; try done; lia.
  - revert H. unfold EAnchor_has_expired.
    pose proof (prog_anchortable _ _ Hprog).
    repeat case_bool_decide; try done; lia.
  - by apply EOpen_has_expired_progress.
  - apply EImportMap_has_expired_true. apply EImportMap_has_expired_true in H.
    pose proof (prog_import_map _ _ Hprog).
    destruct H as [?|?]; [left; lia | right; by apply (prog_capped _ _ Hprog)].
  - by apply EExport_has_expired_progress.
Qed.
End progress.

Lemma has_expired_total mds ev : is_Some (has_expired mds ev).
Proof.
  destruct ev; simpl; try done;
    unfold EUpdate_has_expired, ESlaveUpdate_has_expired,
      EImportStart_has_expired;
    by rewrite EMetaBlob_has_expired_eq.
Qed.

(** C4 (as the code has it): [has_expired] only reads the state and always
    answers; an answer of true stands as long as durable state only moves
    forward from there ([progresses]).  It need not stand otherwise. *)
Theorem has_expired_monotone s s' ev :
  progresses s s' →
  is_Some (has_expired s ev)
  ∧ (has_expired s ev = Some true → has_expired s' ev = Some true).
Proof.
  intros Hprog. split; [apply has_expired_total|].
  by apply has_expired_progress.
Qed.

Lemma progresses_commit cv cv' :
  cv <= cv' →
  progresses (mds_with_dir (auth_dir cv false false))
             (mds_with_dir (auth_dir cv' false false)).
Proof.
  intros Hcv. split; try done.
  intros df d'. unfold get_dirfrag, mds_with_dir. simpl.
  rewrite !lookup_insert. case_decide; [|by rewrite lookup_empty].
  intros [= <-]. eexists. split; [done|]. by split.
Qed.

(** The dir commits version 9 after version 7: an update whose lump needs
    version 7 stays expired. *)
Lemma has_expired_monotone_witness :
  has_expired (mds_with_dir (auth_dir 9 false false))
              (Ev_Update (mk_EUpdate (one_lump_blob 7))) = Some true.
Proof.
  apply (has_expired_monotone (mds_with_dir (auth_dir 7 false false))
           (mds_with_dir (auth_dir 9 false false))
           (Ev_Update (mk_EUpdate (one_lump_blob 7)))).
  - apply progresses_commit. lia.
  - reflexivity.
Defined.

(** C4 (as stated) fails: an update is expired while its dir is out of the
    cache, and no longer once the subtree has been imported again with the
    dir short of the lump's version. *)
Lemma has_expired_reverts_on_reimport :
  has_expired fresh_mds (Ev_Update (mk_EUpdate (one_lump_blob 7)))
    = Some true
  ∧ has_expired (mds_with_dir (auth_dir 5 false false))
      (Ev_Update (mk_EUpdate (one_lump_blob 7))) = Some false.
Proof. by vm_compute. Qed.

(** ** ESlaveUpdate::replay *)

Lemma with_uncommitted_slave_updates_id mds f :
  f (uncommitted_slave_updates (mdcache mds))
    = uncommitted_slave_updates (mdcache mds) →
  with_uncommitted_slave_updates f mds = mds.
Proof.
  destruct mds as [n [] ? ? ? ? ?].
  unfold with_uncommitted_slave_updates, with_mdcache. simpl.
  by intros ->.
Qed.

Lemma with_uncommitted_slave_updates_compose mds f g :
  with_uncommitted_slave_updates g (with_uncommitted_slave_updates f mds)
  = with_uncommitted_slave_updates (g ∘ f) mds.
Proof. done. Qed.

Lemma ESlaveUpdate_replay_all_app k l1 : ∀ mds l2,
  ESlaveUpdate_replay_all k mds (l1 ++ l2)
  = ESlaveUpdate_replay_all k mds l1
      ≫= λ mds', ESlaveUpdate_replay_all k mds' l2.
Proof.
  induction l1 as [|e l1 IH]; intros mds l2; simpl; [done|].
  by destruct (ESlaveUpdate_replay k mds e).
Qed.

(** After a COMMIT or an ABORT nothing is recorded for its request. *)
Lemma ESlaveUpdate_replay_closes k mds fin mds' :
  slave_op_ fin = OP_COMMIT ∨ slave_op_ fin = OP_ABORT →
  ESlaveUpdate_replay k mds fin = Some mds' →
  uncommitted_slave_updates (mdcache mds') !! reqid fin = None.
Proof.
  unfold ESlaveUpdate_replay, slave_count. intros [-> | ->].
  - destruct (uncommitted_slave_updates (mdcache mds) !! reqid fin)
      as [saved|] eqn:Hr.
    + destruct (EMetaBlob_replay k mds saved); [|done].
      intros [= <-]. apply lookup_delete_eq.
    + by intros [= <-].
  - case_bool_decide as Hr.
    + intros [= <-]. apply lookup_delete_eq.
    + intros [= <-]. by apply eq_None_not_Some.
Qed.

(** C6: replaying ABORT for a request drops what was recorded for it and
    changes nothing else; replaying COMMIT applies the recorded blob and
    drops the record when there is one, and changes nothing when there is
    none; PREPARE records the blob and applies nothing.  So a replay that
    runs PREPARE and, later, COMMIT or ABORT for the same request ends with
    nothing recorded for it, and PREPARE followed by ABORT ends in the state
    it started from. *)
Theorem ESlaveUpdate_replay_resolves k mds r b :
  ESlaveUpdate_replay k mds (mk_ESlaveUpdate OP_ABORT r b)
    = Some (with_uncommitted_slave_updates (delete r) mds)
  ∧ ESlaveUpdate_replay k mds (mk_ESlaveUpdate OP_COMMIT r b)
    = match uncommitted_slave_updates (mdcache mds) !! r with
      | Some saved =>
          with_uncommitted_slave_updates (delete r)
            <$> EMetaBlob_replay k mds saved
      | None => Some mds
      end
  ∧ ESlaveUpdate_replay k mds (mk_ESlaveUpdate OP_PREPARE r b)
    = match uncommitted_slave_updates (mdcache mds) !! r with
      | Some _ => None
      | None => Some (with_uncommitted_slave_updates (<[r := b]>) mds)
      end
  ∧ (∀ mid fin mds',
       slave_op_ fin = OP_COMMIT ∨ slave_op_ fin = OP_ABORT →
       reqid fin = r →
       ESlaveUpdate_replay_all k mds
         (mk_ESlaveUpdate OP_PREPARE r b :: mid ++ [fin]) = Some mds' →
       uncommitted_slave_updates (mdcache mds') !! r = None)
  ∧ (∀ b', uncommitted_slave_updates (mdcache mds) !! r = None →
       ESlaveUpdate_replay_all k mds
         [mk_ESlaveUpdate OP_PREPARE r b; mk_ESlaveUpdate OP_ABORT r b']
       = Some mds)
  ∧ (∀ b', uncommitted_slave_updates (mdcache mds) !! r = None →
       ESlaveUpdate_replay_all k mds
         [mk_ESlaveUpdate OP_PREPARE r b; mk_ESlaveUpdate OP_COMMIT r b']
       = with_uncommitted_slave_updates (delete r)
           <$> EMetaBlob_replay k
                 (with_uncommitted_slave_updates (<[r := b]>) mds) b).
Proof.
  split_and!.
  - unfold ESlaveUpdate_replay, slave_count. simpl.
    case_bool_decide as Hr; [done|].
    rewrite with_uncommitted_slave_updates_id; [done|].
    by apply delete_id, eq_None_not_Some.
  - unfold ESlaveUpdate_replay. simpl.
    destruct (uncommitted_slave_updates (mdcache mds) !! r) as [saved|];
      [|done].
    by destruct (EMetaBlob_replay k mds saved).
  - unfold ESlaveUpdate_replay, slave_count. simpl.
    destruct (uncommitted_slave_updates (mdcache mds) !! r) eqn:Hr;
      case_bool_decide as Hs; simpl; try done.
    exfalso. apply Hs. by eexists.
  - intros mid fin mds' Hop <-.
    change (?x :: mid ++ [fin]) with ((x :: mid) ++ [fin]).
    rewrite ESlaveUpdate_replay_all_app.
    destruct (ESlaveUpdate_replay_all k mds _) as [mds1|]; [|done]. simpl.
    destruct (ESlaveUpdate_replay k mds1 fin) as [mds2|] eqn:Hfin; [|done].
    intros [= <-]. by eapply ESlaveUpdate_replay_closes.
  - intros b' Hr. unfold ESlaveUpdate_replay_all, ESlaveUpdate_replay,
      slave_count. simpl. rewrite Hr.
    case_bool_decide as Hs; [by destruct Hs as [? [=]]|]. simpl.
    rewrite lookup_insert_eq. case_bool_decide as Hs'; [|by destruct Hs'].
    rewrite with_uncommitted_slave_updates_compose.
    rewrite with_uncommitted_slave_updates_id; [done|].
    by apply delete_insert_id.
  - intros b' Hr. unfold ESlaveUpdate_replay_all, ESlaveUpdate_replay,
      slave_count. simpl. rewrite Hr.
    case_bool_decide as Hs; [by destruct Hs as [? [=]]|]. simpl.
    rewrite lookup_insert_eq.
    by destruct (EMetaBlob_replay k _ b).
Qed.

(** PREPARE, an unrelated COMMIT, then ABORT, replayed on a fresh MDS. *)
Lemma ESlaveUpdate_replay_resolves_witness :
  ∃ mds',
    ESlaveUpdate_replay_all example_layout fresh_mds
      (mk_ESlaveUpdate OP_PREPARE req_a (one_lump_blob 7)
       :: [mk_ESlaveUpdate OP_COMMIT (mk_reqid 8 1) empty_blob]
       ++ [mk_ESlaveUpdate OP_ABORT req_a empty_blob]) = Some mds'
    ∧ uncommitted_slave_updates (mdcache mds') !! req_a = None.
Proof.
  exists fresh_mds. split; [by vm_compute|].
  destruct (ESlaveUpdate_replay_resolves example_layout fresh_mds req_a
              (one_lump_blob 7)) as (_ & _ & _ & Hseq & _).
  apply (Hseq [mk_ESlaveUpdate OP_COMMIT (mk_reqid 8 1) empty_blob]
              (mk_ESlaveUpdate OP_ABORT req_a empty_blob) fresh_mds).
  - by right.
  - reflexivity.
  - by vm_compute.
Defined.

(** ** EAlloc::replay *)

Lemma with_idalloc_id mds : with_idalloc (idalloc mds) mds = mds.
Proof. by destruct mds. Qed.

(** C7: replay leaves the MDS alone when the allocator is already at the
    event's version or past it.  Otherwise it returns only when the
    allocator is exactly one version behind, the operation goes through (an
    ALLOC handing out the recorded id, a FREE taking it back) and the
    allocator ends at the event's version; it then has changed the allocator
    by that operation and nothing else.  In every other case an assert
    stops it. *)
Theorem EAlloc_replay_spec m mds e :
  0 <= ia_version (idalloc mds) < 2 ^ 64 →
  0 <= table_version e < 2 ^ 64 →
  (ia_version (idalloc mds) >= table_version e →
   EAlloc_replay m mds e = Some mds)
  ∧ (ia_version (idalloc mds) < table_version e →
     ∀ mds', EAlloc_replay m mds e = Some mds'
       ↔ ia_version (idalloc mds) = table_version e - 1
         ∧ (alloc_what e = EALLOC_EV_ALLOC
            ∧ alloc_id m (idalloc mds) true = (alloc_id_ e, idalloc mds')
            ∨ alloc_what e = EALLOC_EV_FREE
              ∧ reclaim_id m (idalloc mds) (alloc_id_ e) true = idalloc mds')
         ∧ ia_version (idalloc mds') = table_version e
         ∧ mds' = with_idalloc (idalloc mds') mds).
Proof.
  intros Hv Htv. unfold EAlloc_replay. split.
  - intros Hge. by case_bool_decide.
  - intros Hlt mds'. case_bool_decide; [lia|].
    case_bool_decide as Hprev; simpl.
    + rewrite Z.mod_small in Hprev by lia.
      unfold EAlloc_apply.
      destruct (alloc_what e) as [| |w];
        [destruct (alloc_id m (idalloc mds) true) as [nid ia] eqn:Hal;
         case_bool_decide as Hnid|..].
      * case_bool_decide as Hia; split.
        -- intros [= <-]. simpl. subst nid. split_and!; try done; try lia.
           by left.
        -- intros (_ & [[_ [= ?]] | [[=] _]] & _ & ->). simpl. by subst.
        -- done.
        -- intros (_ & [[_ [= ?]] | [[=] _]] & Hver & _). subst. done.
      * split; [done|]. intros (_ & [[_ [= ?]] | [[=] _]] & _). by subst.
      * case_bool_decide as Hia; split.
        -- intros [= <-]. simpl. split_and!; try done; try lia. by right.
        -- intros (_ & [[[=] _] | [_ <-]] & _ & ->). done.
        -- done.
        -- intros (_ & [[[=] _] | [_ Hr]] & Hver & _).
           rewrite <- Hr in Hver. done.
      * split; [done|]. by intros (_ & [[[=] _] | [[=] _]] & _).
    + rewrite Z.mod_small in Hprev by lia.
      split; [done|]. intros (? & _). lia.
Qed.

(** The allocator is at version 4 with id 10 next: replaying the ALLOC of id
    10 at table version 5 takes it to version 5. *)
Lemma EAlloc_replay_spec_witness :
  EAlloc_replay list_idalloc mds_idalloc (mk_EAlloc EALLOC_EV_ALLOC 10 5)
  = Some (with_idalloc {| ia_version := 5; ia_committed_version := 4;
                          ia_free := [11] |} fresh_mds).
Proof.
  destruct (EAlloc_replay_spec list_idalloc mds_idalloc
              (mk_EAlloc EALLOC_EV_ALLOC 10 5)) as [_ Hnext].
  - simpl. lia.
  - simpl. lia.
  - apply Hnext; [simpl; lia|].
    split_and!; [reflexivity | by left | reflexivity | reflexivity].
Defined.

(** ** EMetaBlob::replay *)

#[global] Instance cache_grows_preorder : PreOrder cache_grows.
Proof.
  split.
  - by split.
  - intros m1 m2 m3 [Hd1 Hi1] [Hd2 Hi2]. split; auto.
Qed.

Lemma cache_grows_with_dir f d mds : cache_grows mds (with_dir f d mds).
Proof.
  split; [|done]. intros d'. unfold get_dirfrag. simpl.
  rewrite lookup_alter. case_decide; [subst|done]. apply fmap_is_Some.
Qed.

Lemma cache_grows_with_inode f i mds : cache_grows mds (with_inode f i mds).
Proof.
  split; [done|]. intros i'. unfold get_inode. simpl.
  rewrite lookup_alter. case_decide; [subst|done]. apply fmap_is_Some.
Qed.

Lemma cache_grows_insert_dir d dir mds :
  cache_grows mds (with_dirfrags (<[d := dir]>) mds).
Proof.
  split; [|done]. intros d'. unfold get_dirfrag. simpl.
  rewrite lookup_insert. by case_decide.
Qed.

Lemma cache_grows_insert_inode i x mds :
  cache_grows mds (with_inode_map (<[i := x]>) mds).
Proof.
  split; [done|]. intros i'. unfold get_inode. simpl.
  rewrite lookup_insert. by case_decide.
Qed.

(** Peels the cache writes off the state on the right, one at a time. *)
Ltac cache_grows :=
  repeat first
    [ reflexivity
    | progress unfold with_dentry, add_dentry, link_inode, unlink_inode
    | match goal with
      | |- cache_grows _ (with_dir _ _ _) =>
          etrans; [|apply cache_grows_with_dir]
      | |- cache_grows _ (with_inode _ _ _) =>
          etrans; [|apply cache_grows_with_inode]
      | |- cache_grows _ (with_inode_map (insert _ _) _) =>
          etrans; [|apply cache_grows_insert_inode]
      | |- cache_grows _ (with_dirfrags (insert _ _) _) =>
          etrans; [|apply cache_grows_insert_dir]
      | |- cache_grows _ (let _ := _ in _) => cbv zeta
      | |- cache_grows _ (match ?x with _ => _ end) => destruct x
      end ].

Lemma cache_grows_replay_fullbit d mds p :
  cache_grows mds (replay_fullbit d mds p).
Proof. unfold replay_fullbit. cache_grows. Qed.

Lemma cache_grows_replay_remotebit d mds p :
  cache_grows mds (replay_remotebit d mds p).
Proof. unfold replay_remotebit. cache_grows. Qed.

Lemma cache_grows_replay_nullbit d mds p :
  cache_grows mds (replay_nullbit d mds p).
Proof. unfold replay_nullbit. cache_grows. Qed.

Lemma cache_grows_fold_left {A} (f : MDS → A → MDS) (l : list A) :
  (∀ mds x, cache_grows mds (f mds x)) →
  ∀ mds, cache_grows mds (fold_left f l mds).
Proof.
  intros Hf. induction l as [|x l IH]; intros mds; simpl; [done|].
  etrans; [apply Hf | apply IH].
Qed.

(** Once the dir is there, the rest of the turn cannot fail and drops
    nothing from the cache. *)
Lemma replay_lump_after_get_dir k lm mds lp mds1 d :
  replay_get_dir k mds lp = Some (mds1, d) →
  ∃ mds', replay_lump k lm mds lp = Some mds' ∧ cache_grows mds1 mds'.
Proof.
  intros Hdir. unfold replay_lump. rewrite Hdir. eexists. split; [done|].
  etrans; [|apply cache_grows_fold_left, cache_grows_replay_nullbit].
  etrans; [|apply cache_grows_fold_left, cache_grows_replay_remotebit].
  etrans; [|apply cache_grows_fold_left, cache_grows_replay_fullbit].
  cache_grows.
Qed.

Lemma mk_dirfrag_eta lp : mk_dirfrag (df_ino lp) (df_frag lp) = lp.
Proof. by destruct lp. Qed.

(** Opening the dirfrag on the containing inode. *)
Lemma replay_get_dir_opened k mds lp mds1 diri :
  get_dirfrag mds lp = None →
  replay_get_diri k mds lp = Some (mds1, diri) →
  ∃ mds2, replay_get_dir k mds lp = Some (mds2, mk_dirfrag diri (df_frag lp))
          ∧ cache_grows mds1 mds2
          ∧ is_Some (get_dirfrag mds2 (mk_dirfrag diri (df_frag lp))).
Proof.
  intros Hnone Hdiri. unfold replay_get_dir.
  rewrite Hnone, Hdiri. unfold get_or_open_dirfrag.
  set (d := mk_dirfrag diri (df_frag lp)).
  assert (∀ m, is_Some (get_dirfrag m d) →
               ∀ m', cache_grows m m' → is_Some (get_dirfrag m' d)) as Hkeep.
  { intros m Hm m' [Hd _]. by apply Hd. }
  destruct (get_dirfrag mds1 d) as [dir|] eqn:Hd1;
    case_bool_decide; eexists; (split; [done|]); split; try by cache_grows.
  - eapply Hkeep; [by rewrite Hd1|]. by cache_grows.
  - eapply (Hkeep (with_dirfrags (<[d := new_CDir d]>) mds1));
      [|by cache_grows].
    unfold get_dirfrag. simpl. by rewrite lookup_insert_eq.
  - unfold get_dirfrag. simpl. by rewrite lookup_insert_eq.
Qed.

Lemma stray_whose_in_range k ino :
  0 <= ino - MDS_INO_STRAY_OFFSET k < 2 ^ 31 →
  0 <= ino < 2 ^ 64 →
  (MDS_INO_STRAY_OFFSET k + stray_whose k ino) mod 2 ^ 64 = ino.
Proof.
  intros Hoff Hino. unfold stray_whose, to_int.
  rewrite (Z.mod_small (ino - _)) by lia.
  rewrite (Z.mod_small (_ + 2 ^ 31)) by lia.
  rewrite Z.mod_small; lia.
Qed.

(** A lump whose dir replay can resolve is replayed, and what replay could
    resolve before it can still resolve after. *)
Lemma replay_lump_resolvable k lm mds lp :
  resolvable k mds lp →
  ∃ mds', replay_lump k lm mds lp = Some mds' ∧ cache_grows mds mds'.
Proof.
  intros Hres.
  assert (∃ mds1 d, replay_get_dir k mds lp = Some (mds1, d)
                    ∧ cache_grows mds mds1) as (mds1 & d & Hdir & Hgrows).
  { unfold replay_get_dir, replay_get_diri, get_or_open_dirfrag,
      create_root_inode, create_stray_inode.
    destruct (get_dirfrag mds lp) eqn:Hd; [by eexists _, _|].
    destruct (get_inode mds (df_ino lp)) eqn:Hi.
    - destruct (get_dirfrag mds _); case_bool_decide;
        eexists _, _; (split; [done|]); by cache_grows.
    - destruct Hres as [Hx|[Hx|[Hroot|Hstray]]];
        [rewrite Hd in Hx; by destruct Hx
        |rewrite Hi in Hx; by destruct Hx | |].
      + rewrite (bool_decide_eq_true_2 (df_ino lp = MDS_INO_ROOT k)) by done.
        destruct (get_dirfrag (with_inode_map _ _) _); case_bool_decide;
          eexists _, _; (split; [done|]); by cache_grows.
      + rewrite Hstray. case_bool_decide;
          (destruct (get_dirfrag (with_inode_map _ _) _); case_bool_decide;
           eexists _, _; (split; [done|]); by cache_grows). }
  destruct (replay_lump_after_get_dir k lm mds lp mds1 d Hdir)
    as (mds' & Hlump & Hgrows').
  exists mds'. split; [done|]. by etrans.
Qed.

Lemma resolvable_cache_grows k mds mds' lp :
  cache_grows mds mds' → resolvable k mds lp → resolvable k mds' lp.
Proof.
  intros [Hd Hi] [?|[?|?]]; [left; auto | right; left; auto | by right; right].
Qed.

Lemma replay_lumps_resolvable k lm order : ∀ mds,
  (∀ lp, lp ∈ order → resolvable k mds lp) →
  is_Some (replay_lumps k lm mds order).
Proof.
  induction order as [|lp rest IH]; intros mds Hres; simpl; [done|].
  destruct (replay_lump_resolvable k lm mds lp) as (mds' & -> & Hgrows).
  { apply Hres, list_elem_of_here. }
  apply IH. intros lp' Hlp'.
  eapply resolvable_cache_grows; [done|]. by apply Hres, list_elem_of_further.
Qed.

(** The same, asking of each dirfrag only that replay can resolve it in the
    state in which it is reached. *)
Lemma replay_lumps_reached k lm order : ∀ mds,
  (∀ pre lp post mds1,
     order = pre ++ lp :: post →
     replay_lumps k lm mds pre = Some mds1 →
     resolvable k mds1 lp) →
  is_Some (replay_lumps k lm mds order).
Proof.
  induction order as [|lp rest IH]; intros mds Hres; simpl; [done|].
  destruct (replay_lump_resolvable k lm mds lp) as (mds' & Hlump & _).
  { by apply (Hres [] lp rest mds). }
  rewrite Hlump. apply IH. intros pre lp' post mds1 -> Hpre.
  apply (Hres (lp :: pre) lp' post mds1); [done|].
  simpl. by rewrite Hlump.
Qed.

Lemma replay_lumps_app k lm l1 : ∀ mds l2,
  replay_lumps k lm mds (l1 ++ l2)
  = replay_lumps k lm mds l1 ≫= λ mds', replay_lumps k lm mds' l2.
Proof.
  induction l1 as [|lp l1 IH]; intros mds l2; simpl; [done|].
  by destruct (replay_lump k lm mds lp).
Qed.

Lemma replay_get_dir_cache_grows k mds lp mds1 d :
  replay_get_dir k mds lp = Some (mds1, d) → cache_grows mds mds1.
Proof.
  unfold replay_get_dir, replay_get_diri, get_or_open_dirfrag,
    create_root_inode, create_stray_inode.
  repeat match goal with
         | |- context [match ?x with _ => _ end] =>
             lazymatch x with
             | context [match _ with _ => _ end] => fail
             | _ => destruct x eqn:?
             end
         end; intros [= <- <-]; try done; cache_grows.
Qed.

Lemma replay_lumps_cache_grows k lm order : ∀ mds mds',
  replay_lumps k lm mds order = Some mds' → cache_grows mds mds'.
Proof.
  induction order as [|lp rest IH]; intros mds mds'; simpl.
  - by intros [= <-].
  - destruct (replay_lump k lm mds lp) as [mds1|] eqn:H1; [|done].
    intros H2. etrans; [|by apply IH].
    revert H1. unfold replay_lump.
    destruct (replay_get_dir k mds lp) as [[mds0 d]|] eqn:Hdir; [|done].
    intros H1.
    destruct (replay_lump_after_get_dir k lm mds lp mds0 d Hdir)
      as (mds1' & Hlump & Hgrows).
    unfold replay_lump in Hlump. rewrite Hdir in Hlump.
    rewrite H1 in Hlump. injection Hlump as <-.
    etrans; [by eapply replay_get_dir_cache_grows|done].
Qed.

(** Replaying the blob cut before a dirfrag is the walk up to it. *)
Lemma EMetaBlob_replay_blob_before k mds b pre :
  EMetaBlob_replay k mds (blob_before b pre)
  = replay_lumps k (lump_map b) mds pre.
Proof.
  unfold EMetaBlob_replay, blob_before, replay_notes. simpl.
  destruct (replay_lumps k (lump_map b) mds pre) as [mds1|]; [|done].
  f_equal. destruct mds1 as [n [dfs ims pg rp usu mex] [acc aag aak] t
                                 [cv cc cg cr] ia lg].
  simpl. rewrite !app_nil_r. by rewrite (right_id_L ∅ (∪)).
Qed.

(** What the cache holds after the turn of one dirfrag, it holds when replay
    returns. *)
Lemma EMetaBlob_replay_reached k mds b pre lp post mds1 mds2 mds' :
  lump_order b = pre ++ lp :: post →
  replay_lumps k (lump_map b) mds pre = Some mds1 →
  replay_lump k (lump_map b) mds1 lp = Some mds2 →
  EMetaBlob_replay k mds b = Some mds' →
  cache_grows mds2 mds'.
Proof.
  intros Horder Hpre Hlump. unfold EMetaBlob_replay.
  rewrite Horder, replay_lumps_app, Hpre. simpl. rewrite Hlump.
  destruct (replay_lumps k (lump_map b) mds2 post) as [mds3|] eqn:Hpost;
    [|done].
  intros [= <-]. by apply replay_lumps_cache_grows in Hpost.
Qed.

(** The turn that finds neither the dirfrag nor its inode, the inode being
    neither the root nor a stray, stops replay. *)
Lemma EMetaBlob_replay_stops k mds b pre lp post mds1 :
  lump_order b = pre ++ lp :: post →
  replay_lumps k (lump_map b) mds pre = Some mds1 →
  get_dirfrag mds1 lp = None →
  get_inode mds1 (df_ino lp) = None →
  df_ino lp ≠ MDS_INO_ROOT k →
  MDS_INO_IS_STRAY k (df_ino lp) = false →
  EMetaBlob_replay k mds b = None.
Proof.
  intros Horder Hpre Hd Hi Hroot Hstray.
  assert (replay_lump k (lump_map b) mds1 lp = None) as Hlump.
  { unfold replay_lump, replay_get_dir, replay_get_diri.
    rewrite Hd, Hi, Hstray. by rewrite bool_decide_eq_false_2. }
  unfold EMetaBlob_replay. rewrite Horder, replay_lumps_app, Hpre.
  simpl. by rewrite Hlump.
Qed.

Lemma get_inode_cache_grows mds mds' i :
  cache_grows mds mds' → is_Some (get_inode mds i) → is_Some (get_inode mds' i).
Proof. intros [_ Hi]. apply Hi. Qed.

Lemma get_dirfrag_cache_grows mds mds' d :
  cache_grows mds mds' →
  is_Some (get_dirfrag mds d) → is_Some (get_dirfrag mds' d).
Proof. intros [Hd _]. apply Hd. Qed.

(** A turn that finds neither the dirfrag nor its inode, with the inode
    [diri] made on the spot: the turn goes through and leaves [diri] and its
    dirfrag in the cache. *)
Lemma replay_lump_created k lm mds lp x diri :
  get_dirfrag mds lp = None →
  replay_get_diri k mds lp = Some (with_inode_map (<[diri := x]>) mds, diri) →
  ∃ mds', replay_lump k lm mds lp = Some mds'
          ∧ is_Some (get_inode mds' diri)
          ∧ is_Some (get_dirfrag mds' (mk_dirfrag diri (df_frag lp))).
Proof.
  intros Hnone Hdiri.
  destruct (replay_get_dir_opened _ _ _ _ _ Hnone Hdiri)
    as (mds2 & Hdir & Hgrows & Hd).
  destruct (replay_lump_after_get_dir k lm _ _ _ _ Hdir)
    as (mds' & Hlump & Hgrows').
  exists mds'. split; [done|]. split.
  - apply (get_inode_cache_grows (with_inode_map (<[diri := x]>) mds));
      [by etrans|].
    unfold get_inode. simpl. by rewrite lookup_insert_eq.
  - by eapply get_dirfrag_cache_grows.
Qed.

(** C9: take a dirfrag of [lump_order] and the state in which replay reaches
    it, and let the cache then have neither the dirfrag nor its inode.  If
    the inode number is the root's, replay makes the root and opens the
    dirfrag on it: both are in the cache after that turn and when replay
    returns.  If the number is a stray's, replay makes the stray and opens
    the dirfrag on it, likewise.  For any other number replay aborts.
    Replay returns exactly when every containing inode it finds missing is
    the root or a stray; in particular whenever every dirfrag of
    [lump_order] is cached at the start, or has its inode cached then, or is
    on the root or on a stray. *)
Theorem EMetaBlob_replay_containing_inode k mds b :
  (∀ pre lp post mds1,
     lump_order b = pre ++ lp :: post →
     EMetaBlob_replay k mds (blob_before b pre) = Some mds1 →
     get_dirfrag mds1 lp = None →
     get_inode mds1 (df_ino lp) = None →
     (df_ino lp = MDS_INO_ROOT k →
      (∃ mds2,
         EMetaBlob_replay k mds (blob_before b (pre ++ [lp])) = Some mds2
         ∧ is_Some (get_inode mds2 (MDS_INO_ROOT k))
         ∧ is_Some (get_dirfrag mds2 lp))
      ∧ (∀ mds', EMetaBlob_replay k mds b = Some mds' →
                 is_Some (get_inode mds' (MDS_INO_ROOT k))
                 ∧ is_Some (get_dirfrag mds' lp)))
     ∧ (df_ino lp ≠ MDS_INO_ROOT k →
        MDS_INO_IS_STRAY k (df_ino lp) = true →
        (∃ mds2,
           EMetaBlob_replay k mds (blob_before b (pre ++ [lp])) = Some mds2
           ∧ is_Some (get_inode mds2 (stray_ino k (df_ino lp)))
           ∧ is_Some (get_dirfrag mds2
                        (mk_dirfrag (stray_ino k (df_ino lp)) (df_frag lp))))
        ∧ (∀ mds', EMetaBlob_replay k mds b = Some mds' →
                   is_Some (get_inode mds' (stray_ino k (df_ino lp)))
                   ∧ is_Some (get_dirfrag mds'
                                (mk_dirfrag (stray_ino k (df_ino lp))
                                            (df_frag lp))))
        ∧ (0 <= df_ino lp - MDS_INO_STRAY_OFFSET k < 2 ^ 31 →
           0 <= df_ino lp < 2 ^ 64 →
           stray_ino k (df_ino lp) = df_ino lp))
     ∧ (df_ino lp ≠ MDS_INO_ROOT k →
        MDS_INO_IS_STRAY k (df_ino lp) = false →
        EMetaBlob_replay k mds (blob_before b (pre ++ [lp])) = None
        ∧ EMetaBlob_replay k mds b = None))
  ∧ (is_Some (EMetaBlob_replay k mds b)
     ↔ ∀ pre lp post mds1,
         lump_order b = pre ++ lp :: post →
         EMetaBlob_replay k mds (blob_before b pre) = Some mds1 →
         get_dirfrag mds1 lp = None →
         get_inode mds1 (df_ino lp) = None →
         df_ino lp = MDS_INO_ROOT k ∨ MDS_INO_IS_STRAY k (df_ino lp) = true)
  ∧ ((∀ lp, lp ∈ lump_order b → resolvable k mds lp) →
     is_Some (EMetaBlob_replay k mds b)).
Proof.
  assert (∀ pre lp mds1 mds2,
            replay_lumps k (lump_map b) mds pre = Some mds1 →
            replay_lump k (lump_map b) mds1 lp = Some mds2 →
            EMetaBlob_replay k mds (blob_before b (pre ++ [lp])) = Some mds2)
    as Hturn.
  { intros pre lp mds1 mds2 Hpre Hlump.
    rewrite EMetaBlob_replay_blob_before, replay_lumps_app, Hpre.
    simpl. by rewrite Hlump. }
  split_and!.
  - intros pre lp post mds1 Horder Hpre Hd Hi.
    rewrite EMetaBlob_replay_blob_before in Hpre.
    split_and!.
    + intros Hroot.
      destruct (replay_lump_created k (lump_map b) mds1 lp
                  (new_CInode (mk_inode (MDS_INO_ROOT k) false 0))
                  (MDS_INO_ROOT k) Hd) as (mds2 & Hlump & Hin & Hdir).
      { unfold replay_get_diri. rewrite Hi.
        by rewrite bool_decide_eq_true_2. }
      rewrite <- Hroot, mk_dirfrag_eta in Hdir.
      split; [exists mds2; split_and!; eauto|].
      intros mds' Hreplay.
      pose proof (EMetaBlob_replay_reached _ _ _ _ _ _ _ _ _
                    Horder Hpre Hlump Hreplay) as Hgrows.
      split; [by eapply get_inode_cache_grows
             |by eapply get_dirfrag_cache_grows].
    + intros Hroot Hstray.
      destruct (replay_lump_created k (lump_map b) mds1 lp
                  (new_CInode (mk_inode (stray_ino k (df_ino lp)) false 0))
                  (stray_ino k (df_ino lp)) Hd)
        as (mds2 & Hlump & Hin & Hdir).
      { unfold replay_get_diri. rewrite Hi, Hstray.
        by rewrite bool_decide_eq_false_2. }
      split_and!.
      * exists mds2; split_and!; eauto.
      * intros mds' Hreplay.
        pose proof (EMetaBlob_replay_reached _ _ _ _ _ _ _ _ _
                      Horder Hpre Hlump Hreplay) as Hgrows.
        split; [by eapply get_inode_cache_grows
               |by eapply get_dirfrag_cache_grows].
      * intros Hoff Hrange. by apply stray_whose_in_range.
    + intros Hroot Hstray. split.
      * apply (EMetaBlob_replay_stops k mds (blob_before b (pre ++ [lp]))
                 pre lp [] mds1); done.
      * by eapply EMetaBlob_replay_stops.
  - split.
    + intros Hsome pre lp post mds1 Horder Hpre Hd Hi.
      rewrite EMetaBlob_replay_blob_before in Hpre.
      destruct (decide (df_ino lp = MDS_INO_ROOT k)) as [|Hroot]; [by left|].
      destruct (MDS_INO_IS_STRAY k (df_ino lp)) eqn:Hstray; [by right|].
      rewrite (EMetaBlob_replay_stops k mds b pre lp post mds1) in Hsome
        by done.
      by destruct Hsome.
    + intros Hmissing. unfold EMetaBlob_replay.
      destruct (replay_lumps_reached k (lump_map b) (lump_order b) mds)
        as [mds' ->]; [|done].
      intros pre lp post mds1 Horder Hpre. unfold resolvable.
      destruct (get_dirfrag mds1 lp) eqn:Hd; [by left|].
      destruct (get_inode mds1 (df_ino lp)) eqn:Hi; [by right; left|].
      right; right. eapply Hmissing; try done.
      by rewrite EMetaBlob_replay_blob_before.
  - intros Hres. unfold EMetaBlob_replay.
    destruct (replay_lumps_resolvable k (lump_map b) (lump_order b) mds Hres)
      as [mds' ->].
    done.
Qed.

(** On a fresh MDS, a blob with a lump for the root dir and one for the
    first stray dir is replayed, and leaves the root inode, the stray inode
    and the dirfrag of each in the cache. *)
Lemma EMetaBlob_replay_containing_inode_witness :
  ∃ mds',
    EMetaBlob_replay example_layout fresh_mds root_and_stray_blob = Some mds'
    ∧ is_Some (get_inode mds' 1)
    ∧ is_Some (get_dirfrag mds' (mk_dirfrag 1 0))
    ∧ is_Some (get_inode mds' 768)
    ∧ is_Some (get_dirfrag mds' (mk_dirfrag 768 0)).
Proof.
  destruct (EMetaBlob_replay_containing_inode example_layout fresh_mds
              root_and_stray_blob) as (Hturn & _ & Hres).
  destruct Hres as [mds' Hreplay].
  { intros lp Hlp. simpl in Hlp.
    apply elem_of_cons in Hlp as [-> | Hlp];
      [|apply elem_of_cons in Hlp as [-> | Hlp]].
    - right; right; left. reflexivity.
    - right; right; right. reflexivity.
    - by apply elem_of_nil in Hlp. }
  exists mds'. split; [exact Hreplay|].
  destruct (Hturn [] (mk_dirfrag 1 0) [mk_dirfrag 768 0] fresh_mds)
    as (Hroot & _ & _); [reflexivity..|].
  destruct (Hroot eq_refl) as [_ Hroot'].
  destruct (Hroot' mds' Hreplay) as [Hroot_in Hroot_dir].
  destruct (EMetaBlob_replay example_layout fresh_mds
              (blob_before root_and_stray_blob [mk_dirfrag 1 0]))
    as [mds1|] eqn:Hfirst; [|by vm_compute in Hfirst].
  destruct (Hturn [mk_dirfrag 1 0] (mk_dirfrag 768 0) [] mds1)
    as (_ & Hstray & _); [reflexivity|exact Hfirst| | |].
  - vm_compute in Hfirst. injection Hfirst as <-. reflexivity.
  - vm_compute in Hfirst. injection Hfirst as <-. reflexivity.
  - destruct Hstray as (_ & Hstray' & _); [discriminate|reflexivity|].
    destruct (Hstray' mds' Hreplay) as [Hstray_in Hstray_dir].
    split_and!; [exact Hroot_in|exact Hroot_dir
                |exact Hstray_in|exact Hstray_dir].
Defined.

(** On a fresh MDS, a blob whose lump is on inode 4096, neither the root nor
    a stray, stops replay. *)
Example EMetaBlob_replay_unknown_inode :
  EMetaBlob_replay example_layout fresh_mds (one_lump_blob 7) = None.
Proof. by vm_compute. Qed.

(** * Further properties *)

(** ** What has_expired asks for *)

Lemma forallb_elem_of {A} (f : A → bool) (l : list A) :
  forallb f l = true ↔ ∀ x, x ∈ l → f x = true.
Proof.
  rewrite forallb_forall. split; intros H x Hx; apply H;
    by apply list_elem_of_In.
Qed.

(** X1: [EMetaBlob::has_expired] always answers, and it answers true exactly
    when every lump's dir is out of the cache, or under another node's
    authority, or committed up to the lump's version, every anchor
    transaction is committed, no truncation is still being purged and no
    client request is still held as completed. *)
Theorem EMetaBlob_has_expired_closure mds b :
  is_Some (EMetaBlob_has_expired mds b)
  ∧ (EMetaBlob_has_expired mds b = Some true
     ↔ (∀ df lump dir,
          (df, lump) ∈ lump_map b → get_dirfrag mds df = Some dir →
          (dir_authority dir).1 ≠ nodeid mds
          ∨ dir_committed_version dir >= dirv lump)
       ∧ (∀ atid, atid ∈ atids b → atid ∈ ac_committed (anchorclient mds))
       ∧ (∀ i off, (i, off) ∈ truncated_inodes b →
            (i_ino i, off) ∉ purging (mdcache mds))
       ∧ (∀ r, r ∈ client_reqs b →
            r ∉ cm_completed_requests (clientmap mds))).
Proof.
  rewrite EMetaBlob_has_expired_eq. split; [done|].
  unfold atids_committed, none_purging, none_completed.
  split.
  - intros [= H]. rewrite !andb_true_iff, !forallb_elem_of in H.
    destruct H as (((H1 & H2) & H3) & H4). split_and!.
    + intros df lump dir Hin Hdir. specialize (H1 _ Hin).
      unfold lump_satisfied in H1. simpl in H1. rewrite Hdir in H1.
      apply orb_true_iff in H1 as [H1|H1];
        apply bool_decide_eq_true in H1; auto.
    + intros atid Hin. specialize (H2 _ Hin).
      by apply bool_decide_eq_true in H2.
    + intros i off Hin. specialize (H3 _ Hin). simpl in H3.
      by apply negb_true_iff, bool_decide_eq_false in H3.
    + intros r Hin. specialize (H4 _ Hin).
      by apply negb_true_iff, bool_decide_eq_false in H4.
  - intros (H1 & H2 & H3 & H4). f_equal.
    rewrite !andb_true_iff, !forallb_elem_of. split_and!.
    + intros [df lump] Hin. unfold lump_satisfied. simpl.
      destruct (get_dirfrag mds df) as [dir|] eqn:Hdir; [|done].
      apply orb_true_iff. rewrite !bool_decide_eq_true. by eapply H1.
    + intros atid Hin. apply bool_decide_eq_true. by apply H2.
    + intros [i off] Hin. apply negb_true_iff, bool_decide_eq_false.
      by apply H3.
    + intros r Hin. apply negb_true_iff, bool_decide_eq_false. by apply H4.
Qed.

(** ** EExport *)

(** X2: [EExport::expire] returns exactly when the event has not expired,
    that is when its base dir is cached and still being exported; it then
    hands the completion to the migrator, for that dir, and does nothing
    else.  On an expired event one of its two asserts fails. *)
Theorem EExport_expire_iff mds e c :
  (EExport_has_expired mds e = false
   ↔ is_Some (get_dirfrag mds (export_base e))
     ∧ export_base e ∈ migrator_exporting (mdcache mds))
  ∧ (EExport_has_expired mds e = false →
     EExport_expire mds e c
     = Some [Migrator_add_export_finish_waiter (export_base e) c])
  ∧ (EExport_has_expired mds e = true → EExport_expire mds e c = None).
Proof.
  unfold EExport_has_expired, EExport_expire.
  destruct (get_dirfrag mds (export_base e)) as [dir|];
    try case_bool_decide; simpl; split_and!; try done; naive_solver.
Qed.

(** ** EOpen::expire *)

Lemma EOpen_expire_queue_filter mds l :
  EOpen_expire_queue mds l
  = Server_queue_journal_open <$> filter (λ p, open_has_caps mds p = true) l.
Proof.
  induction l as [|p l IH]; simpl; [done|].
  rewrite IH, filter_cons. case_decide as Hcaps;
    unfold open_has_caps in Hcaps;
    destruct (get_inode mds p) as [i|]; simpl; try done;
    by destruct (in_any_caps i).
Qed.

(** X3: [EOpen::expire] aborts when the log is capped.  Otherwise it queues
    a fresh open for the inodes of [inos] that are cached with capabilities,
    in the order of [inos], whether or not a later open supersedes them,
    then registers the completion and starts the batch; and when the event
    has not expired at least one inode is queued. *)
Theorem EOpen_expire_requeues mds e c :
  (log_capped (mdlog mds) = true → EOpen_expire mds e c = None)
  ∧ (log_capped (mdlog mds) = false →
     EOpen_expire mds e c
     = Some ((Server_queue_journal_open
                <$> filter (λ p, open_has_caps mds p = true) (inos e))
             ++ [Server_add_journal_open_waiter c; Server_maybe_journal_opens])
     ∧ (EOpen_has_expired mds e = false →
        ∃ p, p ∈ inos e ∧ open_still_refers mds e p = true
             ∧ Server_queue_journal_open p
               ∈ Server_queue_journal_open
                   <$> filter (λ p, open_has_caps mds p = true) (inos e))).
Proof.
  unfold EOpen_expire. split; intros ->; [done|].
  rewrite EOpen_expire_queue_filter. split; [done|].
  intros Hexp.
  assert (∃ p, p ∈ inos e ∧ open_still_refers mds e p = true)
    as (p & Hp & Hrefers).
  { unfold EOpen_has_expired in Hexp.
    induction (inos e) as [|q l IH]; simpl in Hexp; [done|].
    destruct (open_still_refers mds e q) eqn:Hq.
    - exists q. split; [apply list_elem_of_here|done].
    - destruct (IH Hexp) as (p & Hp & Hr). exists p.
      split; [by apply list_elem_of_further|done]. }
  exists p. split_and!; try done.
  apply list_elem_of_fmap. exists p. split; [done|].
  apply list_elem_of_filter. split; [|done].
  unfold open_still_refers in Hrefers. unfold open_has_caps.
  destruct (get_inode mds p); [|done].
  by apply andb_true_iff in Hrefers as [? _].
Qed.

(** ** EAlloc::replay, twice *)

(** X4: replaying an Alloc event a second time changes nothing: once replay
    has gone through, the allocator is at the event's version or past it,
    and the event is skipped. *)
Theorem EAlloc_replay_idempotent m mds e mds' :
  0 <= table_version e < 2 ^ 64 →
  EAlloc_replay m mds e = Some mds' →
  EAlloc_replay m mds' e = Some mds'.
Proof.
  intros Htv. unfold EAlloc_replay at 1.
  case_bool_decide as Hge.
  - intros [= <-]. unfold EAlloc_replay. by rewrite bool_decide_eq_true_2.
  - case_bool_decide; simpl; [|done].
    destruct (EAlloc_apply m (idalloc mds) e) as [ia|]; [|done].
    case_bool_decide as Hia; [|done]. intros [= <-].
    unfold EAlloc_replay. simpl. rewrite bool_decide_eq_true_2; [done|lia].
Qed.

Lemma EAlloc_replay_idempotent_witness :
  EAlloc_replay list_idalloc
    (with_idalloc {| ia_version := 5; ia_committed_version := 4;
                     ia_free := [11] |} fresh_mds)
    (mk_EAlloc EALLOC_EV_ALLOC 10 5)
  = Some (with_idalloc {| ia_version := 5; ia_committed_version := 4;
                          ia_free := [11] |} fresh_mds).
Proof.
  apply (EAlloc_replay_idempotent list_idalloc mds_idalloc
           (mk_EAlloc EALLOC_EV_ALLOC 10 5)).
  - simpl. lia.
  - reflexivity.
Defined.

(** ** What EMetaBlob::expire waits for *)

Section loop_calls.
Context {A : Type} (step : registering → A → registering).
Context (fires : A → bool) (mk : A → Context → call).
Hypothesis Hstep :
  ∀ st x, step st x = if fires x then with_new_sub (mk x) st else st.

Lemma step_calls st x :
  (step st x).2
  = st.2 ++ (if fires x then [mk x (C_GatherSub (S (gather_num st.1)))]
             else []).
Proof.
  rewrite Hstep. destruct st as [g calls], (fires x); simpl; [done|].
  by rewrite app_nil_r.
Qed.

(** A registration loop keeps the calls made before it. *)
Lemma loop_calls_kept l : ∀ st k, k ∈ st.2 → k ∈ (fold_left step l st).2.
Proof.
  induction l as [|x l IH]; intros st k Hk; simpl; [done|].
  apply IH. rewrite step_calls. apply elem_of_app. by left.
Qed.

(** It makes a call, with a sub of the gather, for each entry that fires. *)
Lemma loop_calls_made l : ∀ st x,
  x ∈ l → fires x = true →
  ∃ n, mk x (C_GatherSub n) ∈ (fold_left step l st).2.
Proof.
  induction l as [|y l IH]; intros st x Hx Hf; simpl.
  - by apply elem_of_nil in Hx.
  - apply elem_of_cons in Hx as [<- | Hx]; [|by apply IH].
    eexists. apply loop_calls_kept. rewrite step_calls, Hf.
    apply elem_of_app. right. apply list_elem_of_here.
Qed.

(** And it makes no other call. *)
Lemma loop_calls_from l : ∀ st k,
  k ∈ (fold_left step l st).2 →
  k ∈ st.2 ∨ ∃ x n, x ∈ l ∧ fires x = true ∧ k = mk x (C_GatherSub n).
Proof.
  induction l as [|y l IH]; intros st k Hk; simpl in Hk; [by left|].
  apply IH in Hk as [Hk | (x & n & Hx & Hf & ->)].
  - rewrite step_calls in Hk. apply elem_of_app in Hk as [Hk|Hk]; [by left|].
    right. destruct (fires y) eqn:Hf.
    + apply list_elem_of_singleton in Hk as ->.
      eexists y, _. split_and!; [apply list_elem_of_here|done..].
    + by apply elem_of_nil in Hk.
  - right. exists x, n. split_and!; [by apply list_elem_of_further|done..].
Qed.
End loop_calls.

Lemma fold_left_ext {A B} (f g : B → A → B) (l : list A) :
  (∀ st x, f st x = g st x) → ∀ st, fold_left f l st = fold_left g l st.
Proof.
  intros Hfg. induction l as [|x l IH]; intros st; simpl; [done|].
  by rewrite Hfg, IH.
Qed.

(** The body of [expire] after its first loop, as six registration loops. *)
Lemma expire_register_loops mds b c acc :
  expire_register mds b c acc
  = registration_loop (have_completed_request mds) ClientMap_add_trim_waiter
      (client_reqs b)
      (registration_loop (λ p, is_purging mds (i_ino p.1) p.2)
         (λ p, MDCache_wait_for_purge (i_ino p.1) p.2) (truncated_inodes b)
         (registration_loop (λ p, negb (has_committed mds p))
            AnchorClient_wait_for_ack (atids b)
            (registration_loop (λ _, true)
               (λ ex, Dir_add_waiter ex WAIT_IMPORTED) (waitfor_import acc)
               (registration_loop (λ _, true)
                  Migrator_add_export_finish_waiter (waitfor_export acc)
                  (registration_loop (λ _, true) (commit_call mds)
                     (map_to_list (commit acc)) (C_Gather_new c, [])))))).
Proof.
  unfold expire_register, register_reqs, register_purges, register_atids,
    register_imports, register_exports, register_commits, registration_loop.
  do 5 f_equal.
  apply fold_left_ext. intros st p. unfold commit_call.
  by destruct (dir_can_auth_pin_at mds p.1).
Qed.

Lemma registration_loop_kept {A} fires mk (l : list A) st k :
  k ∈ st.2 → k ∈ (registration_loop fires mk l st).2.
Proof. by apply loop_calls_kept with (fires := fires) (mk := mk). Qed.

Lemma registration_loop_made {A} fires mk (l : list A) st x :
  x ∈ l → fires x = true →
  ∃ n, mk x (C_GatherSub n) ∈ (registration_loop fires mk l st).2.
Proof. by apply loop_calls_made. Qed.

Lemma registration_loop_from {A} fires mk (l : list A) st k :
  k ∈ (registration_loop fires mk l st).2 →
  k ∈ st.2 ∨ ∃ x n, x ∈ l ∧ fires x = true ∧ k = mk x (C_GatherSub n).
Proof. by apply loop_calls_from. Qed.

(** Every entry the first loop noted, and every entry of the blob's three
    lists that is not yet done with, gets a call with a sub of the gather. *)
Lemma expire_register_made mds b c acc :
  (∀ p, p ∈ map_to_list (commit acc) →
        ∃ n, commit_call mds p (C_GatherSub n)
               ∈ (expire_register mds b c acc).2)
  ∧ (∀ ex, ex ∈ waitfor_export acc →
        ∃ n, Migrator_add_export_finish_waiter ex (C_GatherSub n)
               ∈ (expire_register mds b c acc).2)
  ∧ (∀ ex, ex ∈ waitfor_import acc →
        ∃ n, Dir_add_waiter ex WAIT_IMPORTED (C_GatherSub n)
               ∈ (expire_register mds b c acc).2)
  ∧ (∀ atid, atid ∈ atids b → has_committed mds atid = false →
        ∃ n, AnchorClient_wait_for_ack atid (C_GatherSub n)
               ∈ (expire_register mds b c acc).2)
  ∧ (∀ p, p ∈ truncated_inodes b → is_purging mds (i_ino p.1) p.2 = true →
        ∃ n, MDCache_wait_for_purge (i_ino p.1) p.2 (C_GatherSub n)
               ∈ (expire_register mds b c acc).2)
  ∧ (∀ r, r ∈ client_reqs b → have_completed_request mds r = true →
        ∃ n, ClientMap_add_trim_waiter r (C_GatherSub n)
               ∈ (expire_register mds b c acc).2).
Proof.
  rewrite expire_register_loops. split_and!.
  - intros p Hp.
    edestruct (registration_loop_made (λ _, true) (commit_call mds)) as [n Hn];
      [done..|].
    exists n. do 5 apply registration_loop_kept. done.
  - intros ex Hex.
    edestruct (registration_loop_made (λ _, true)
                 Migrator_add_export_finish_waiter) as [n Hn]; [done..|].
    exists n. do 4 apply registration_loop_kept. done.
  - intros ex Hex.
    edestruct (registration_loop_made (λ _, true)
                 (λ ex, Dir_add_waiter ex WAIT_IMPORTED)) as [n Hn]; [done..|].
    exists n. do 3 apply registration_loop_kept. done.
  - intros atid Hin Hc.
    edestruct (registration_loop_made (λ p, negb (has_committed mds p))
                 AnchorClient_wait_for_ack) as [n Hn];
      [done|by rewrite Hc|].
    exists n. do 2 apply registration_loop_kept. done.
  - intros p Hin Hp.
    edestruct (registration_loop_made (λ p, is_purging mds (i_ino p.1) p.2)
                 (λ p, MDCache_wait_for_purge (i_ino p.1) p.2)) as [n Hn];
      [done..|].
    exists n. apply registration_loop_kept. done.
  - intros r Hin Hr. by apply registration_loop_made.
Qed.

(** And it makes no call but those. *)
Lemma expire_register_from mds b c acc k :
  k ∈ (expire_register mds b c acc).2 →
  (∃ p n, p ∈ map_to_list (commit acc)
          ∧ k = commit_call mds p (C_GatherSub n))
  ∨ (∃ ex n, ex ∈ waitfor_export acc
             ∧ k = Migrator_add_export_finish_waiter ex (C_GatherSub n))
  ∨ (∃ ex n, ex ∈ waitfor_import acc
             ∧ k = Dir_add_waiter ex WAIT_IMPORTED (C_GatherSub n))
  ∨ (∃ atid n, atid ∈ atids b ∧ has_committed mds atid = false
               ∧ k = AnchorClient_wait_for_ack atid (C_GatherSub n))
  ∨ (∃ p n, p ∈ truncated_inodes b ∧ is_purging mds (i_ino p.1) p.2 = true
            ∧ k = MDCache_wait_for_purge (i_ino p.1) p.2 (C_GatherSub n))
  ∨ (∃ r n, r ∈ client_reqs b ∧ have_completed_request mds r = true
            ∧ k = ClientMap_add_trim_waiter r (C_GatherSub n)).
Proof.
  rewrite expire_register_loops. intros Hk.
  apply registration_loop_from in Hk as [Hk|(r & n & ? & ? & ->)];
    [|by do 5 right; eauto].
  apply registration_loop_from in Hk as [Hk|(p & n & ? & ? & ->)];
    [|by do 4 right; left; eauto].
  apply registration_loop_from in Hk as [Hk|(a & n & ? & Hc & ->)];
    [|do 3 right; left; apply negb_true_iff in Hc; by eauto].
  apply registration_loop_from in Hk as [Hk|(ex & n & ? & ? & ->)];
    [|by do 2 right; left; eauto].
  apply registration_loop_from in Hk as [Hk|(ex & n & ? & ? & ->)];
    [|by right; left; eauto].
  apply registration_loop_from in Hk as [Hk|(p & n & ? & ? & ->)];
    [|by left; eauto].
  by apply elem_of_nil in Hk.
Qed.

#[global] Instance lists_within_preorder : PreOrder lists_within.
Proof.
  split.
  - intros acc. split_and!; [|done..]. intros d v Hv. exists v. by split.
  - intros a1 a2 a3 (Hc1 & He1 & Hi1) (Hc2 & He2 & Hi2). split_and!; [|auto..].
    intros d v Hv. destruct (Hc1 _ _ Hv) as (v1 & Hv1 & Hle1).
    destruct (Hc2 _ _ Hv1) as (v2 & Hv2 & Hle2). exists v2. split; [done|lia].
Qed.

(** The cases of a turn of the first loop. *)
Ltac expire_lump_cases mds lp dir Hdir :=
  unfold expire_lump;
  destruct (get_dirfrag mds lp.1) as [dir|] eqn:Hdir;
  [ case_bool_decide;
    [| case_bool_decide;
       [| destruct (dir_ambiguous_auth dir) eqn:?;
          [ destruct (subtree_root_is_exporting mds dir) eqn:?
          | case_bool_decide ] ] ]
  | ].

Lemma expire_lump_within mds acc lp acc' :
  expire_lump mds acc lp = Some acc' → lists_within acc acc'.
Proof.
  expire_lump_cases mds lp dir Hdir; intros [= <-]; try reflexivity;
    (split_and!; simpl; [|intros ex Hex; try done;
                           apply elem_of_app; by left..]).
  - intros d v Hv. exists v. by split.
  - intros d v Hv. exists v. by split.
  - intros d v Hv. destruct (decide (lp.1 = d)) as [<-|Hne].
    + rewrite Hv, lookup_insert_eq. simpl. eexists. split; [done|lia].
    + rewrite lookup_insert_ne by done. exists v. by split.
Qed.

Lemma expire_lumps_within mds lumps : ∀ acc acc',
  expire_lumps mds acc lumps = Some acc' → lists_within acc acc'.
Proof.
  induction lumps as [|lp rest IH]; intros acc acc'; simpl.
  - by intros [= <-].
  - destruct (expire_lump mds acc lp) as [acc1|] eqn:H1; [|done].
    intros H2. etrans; [by eapply expire_lump_within | by apply IH].
Qed.

Lemma lump_noted_within mds acc acc' df lump dir :
  lists_within acc acc' →
  lump_noted mds acc df lump dir → lump_noted mds acc' df lump dir.
Proof.
  intros (Hc & He & Hi). unfold lump_noted.
  destruct (dir_ambiguous_auth dir);
    [destruct (subtree_root_is_exporting mds dir); auto|].
  intros (v & Hv & Hle). destruct (Hc _ _ Hv) as (v' & Hv' & Hle').
  exists v'. split; [done|lia].
Qed.

Lemma expire_lump_noted mds acc df lump dir acc' :
  expire_lump mds acc (df, lump) = Some acc' →
  lump_pending mds df lump dir →
  lump_noted mds acc' df lump dir.
Proof.
  intros Hexp (Hd & Hauth & Hcv). revert Hexp.
  unfold expire_lump, lump_noted. simpl. rewrite Hd.
  rewrite bool_decide_eq_false_2 by (intros ?; done).
  rewrite bool_decide_eq_false_2 by lia.
  destruct (dir_ambiguous_auth dir);
    [destruct (subtree_root_is_exporting mds dir)|];
    try (intros [= <-]; simpl; apply elem_of_app; right;
         apply list_elem_of_here).
  rewrite bool_decide_eq_true_2 by done. intros [= <-]. simpl.
  rewrite lookup_insert_eq. eexists. split; [done|lia].
Qed.

(** The first loop notes every pending lump. *)
Lemma expire_lumps_noted mds lumps df lump dir : ∀ acc acc',
  expire_lumps mds acc lumps = Some acc' →
  (df, lump) ∈ lumps →
  lump_pending mds df lump dir →
  lump_noted mds acc' df lump dir.
Proof.
  induction lumps as [|lp rest IH]; intros acc acc' Hexp Hin Hpend;
    simpl in Hexp.
  - by apply elem_of_nil in Hin.
  - destruct (expire_lump mds acc lp) as [acc1|] eqn:H1; [|done].
    apply elem_of_cons in Hin as [<- | Hin]; [|by eapply IH].
    eapply lump_noted_within; [by eapply expire_lumps_within|].
    by eapply expire_lump_noted.
Qed.

Lemma lists_justified_more mds l1 l2 acc :
  lists_justified mds l1 acc → lists_justified mds (l1 ++ l2) acc.
Proof.
  intros (Hc & He & Hi). split_and!.
  - intros d v Hv. destruct (Hc _ _ Hv) as (lump & dir & Hin & ?).
    exists lump, dir. split; [|done]. apply elem_of_app. by left.
  - intros ex Hex. destruct (He _ Hex) as (df & lump & dir & Hin & ?).
    exists df, lump, dir. split; [|done]. apply elem_of_app. by left.
  - intros ex Hex. destruct (Hi _ Hex) as (df & lump & dir & Hin & ?).
    exists df, lump, dir. split; [|done]. apply elem_of_app. by left.
Qed.

Lemma expire_lump_justified mds lumps acc lp acc' :
  lists_justified mds lumps acc →
  expire_lump mds acc lp = Some acc' →
  lists_justified mds (lumps ++ [lp]) acc'.
Proof.
  intros Hj. pose proof (lists_justified_more mds lumps [lp] acc Hj) as Hj'.
  assert (lp ∈ lumps ++ [lp]) as Hlast.
  { apply elem_of_app. right. apply list_elem_of_here. }
  destruct lp as [df lump]. simpl in *.
  expire_lump_cases mds (df, lump) dir Hdir; intros [= <-]; try done;
    simpl in *; destruct Hj' as (Hc & He & Hi);
    (assert (lump_pending mds df lump dir) as Hpend
       by (split_and!; [done| |lia];
           by destruct (decide ((dir_authority dir).1 = nodeid mds))));
    (split_and!; simpl; [| |]; try done).
  - intros ex Hex. apply elem_of_app in Hex as [Hex|Hex]; [by apply He|].
    apply list_elem_of_singleton in Hex as ->. by exists df, lump, dir.
  - intros ex Hex. apply elem_of_app in Hex as [Hex|Hex]; [by apply Hi|].
    apply list_elem_of_singleton in Hex as ->. by exists df, lump, dir.
  - intros d v Hv. destruct (decide (df = d)) as [<-|Hne].
    + rewrite lookup_insert_eq in Hv. injection Hv as <-.
      exists lump, dir. split_and!; try done. lia.
    + rewrite lookup_insert_ne in Hv by done. by apply Hc.
Qed.

(** And it notes nothing else. *)
Lemma expire_lumps_justified mds rest : ∀ lumps acc acc',
  lists_justified mds lumps acc →
  expire_lumps mds acc rest = Some acc' →
  lists_justified mds (lumps ++ rest) acc'.
Proof.
  induction rest as [|lp rest IH]; intros lumps acc acc' Hj Hexp;
    simpl in Hexp.
  - injection Hexp as <-. by rewrite app_nil_r.
  - destruct (expire_lump mds acc lp) as [acc1|] eqn:H1; [|done].
    rewrite cons_middle, app_assoc. eapply IH; [|done].
    by eapply expire_lump_justified.
Qed.

(** X5: for every lump whose dir is cached under this node's authority and
    short of the lump's version, [EMetaBlob::expire] registers a sub of the
    gather: with the migrator, on the subtree root, when the dir's authority
    is ambiguous and the root is being exported; on the subtree root's
    import when it is ambiguous otherwise; and else on a commit of the dir
    to at least the lump's version, or on the dir becoming auth-pinnable
    when it cannot be pinned. *)
Theorem EMetaBlob_expire_waits_for_lump mds b c df lump dir :
  (df, lump) ∈ lump_map b →
  lump_pending mds df lump dir →
  ∃ g calls n,
    EMetaBlob_expire mds b c = Some (g, calls)
    ∧ if dir_ambiguous_auth dir then
        if subtree_root_is_exporting mds dir
        then Migrator_add_export_finish_waiter (dir_subtree_root dir)
               (C_GatherSub n) ∈ calls
        else Dir_add_waiter (dir_subtree_root dir) WAIT_IMPORTED
               (C_GatherSub n) ∈ calls
      else ∃ v, dirv lump <= v
                ∧ (if dir_can_auth_pin dir
                   then Dir_commit df v (C_GatherSub n)
                   else Dir_add_waiter df WAIT_AUTHPINNABLE (C_GatherSub n))
                  ∈ calls.
Proof.
  intros Hin Hpend. unfold EMetaBlob_expire.
  destruct (expire_lumps_spec mds (lump_map b) expire_lists_empty)
    as (acc & Hacc & _).
  rewrite Hacc.
  pose proof (expire_lumps_noted _ _ _ _ _ _ _ Hacc Hin Hpend) as Hnoted.
  destruct (expire_register_made mds b c acc) as (Hc & He & Hi & _).
  destruct (expire_register mds b c acc) as [g calls] eqn:Hreg. simpl in *.
  unfold lump_noted in Hnoted.
  destruct (dir_ambiguous_auth dir);
    [destruct (subtree_root_is_exporting mds dir)|].
  - destruct (He _ Hnoted) as [n Hn]. by exists g, calls, n.
  - destruct (Hi _ Hnoted) as [n Hn]. by exists g, calls, n.
  - destruct Hnoted as (v & Hv & Hle).
    destruct (Hc (df, v)) as [n Hn]; [by apply elem_of_map_to_list|].
    exists g, calls, n. split; [done|]. exists v. split; [done|].
    unfold commit_call, dir_can_auth_pin_at in Hn. simpl in Hn.
    destruct Hpend as (Hd & _). rewrite Hd in Hn.
    by destruct (dir_can_auth_pin dir).
Qed.

(** A dir committed at version 5 that cannot be pinned, with a lump at
    version 7: [expire] waits for it to become auth-pinnable. *)
Lemma EMetaBlob_expire_waits_for_lump_witness :
  ∃ g calls n,
    EMetaBlob_expire (mds_with_dir frozen_dir) (one_lump_blob 7) (Ctx 0)
      = Some (g, calls)
    ∧ ∃ v, 7 <= v ∧ Dir_add_waiter df_a WAIT_AUTHPINNABLE (C_GatherSub n)
                     ∈ calls.
Proof.
  apply (EMetaBlob_expire_waits_for_lump (mds_with_dir frozen_dir)
           (one_lump_blob 7) (Ctx 0) df_a (lump_at 7) frozen_dir).
  - apply list_elem_of_here.
  - split_and!; [reflexivity..|simpl; lia].
Defined.

(** X6: [EMetaBlob::expire] registers a sub of the gather with the anchor
    client for every anchor transaction of the blob that is not committed,
    with the cache for every truncation still being purged, and with the
    client map for every client request still held as completed. *)
Theorem EMetaBlob_expire_waits_for_lists mds b c :
  ∃ g calls,
    EMetaBlob_expire mds b c = Some (g, calls)
    ∧ (∀ atid, atid ∈ atids b → atid ∉ ac_committed (anchorclient mds) →
         ∃ n, AnchorClient_wait_for_ack atid (C_GatherSub n) ∈ calls)
    ∧ (∀ i off, (i, off) ∈ truncated_inodes b →
         (i_ino i, off) ∈ purging (mdcache mds) →
         ∃ n, MDCache_wait_for_purge (i_ino i) off (C_GatherSub n) ∈ calls)
    ∧ (∀ r, r ∈ client_reqs b → r ∈ cm_completed_requests (clientmap mds) →
         ∃ n, ClientMap_add_trim_waiter r (C_GatherSub n) ∈ calls).
Proof.
  unfold EMetaBlob_expire.
  destruct (expire_lumps_spec mds (lump_map b) expire_lists_empty)
    as (acc & -> & _).
  destruct (expire_register_made mds b c acc) as (_ & _ & _ & Ha & Hp & Hr).
  destruct (expire_register mds b c acc) as [g calls]. simpl in *.
  exists g, calls. split_and!; [done|..].
  - intros atid Hin Hc. apply Ha; [done|]. by apply bool_decide_eq_false.
  - intros i off Hin Hpurge. apply (Hp (i, off)); [done|].
    by apply bool_decide_eq_true.
  - intros r Hin Hr'. apply Hr; [done|]. by apply bool_decide_eq_true.
Qed.

(** X7: [EMetaBlob::expire] makes no call but those: every call carries a
    sub of the gather, never the caller's completion; a commit is asked only
    of a dir that can be pinned, is not ambiguous and is short of the version
    asked for; a wait on the migrator or on an import only for a lump whose
    dir is ambiguous; a wait on the anchor client, a purge or the client map
    only for an entry of the blob that is not yet done with. *)
Theorem EMetaBlob_expire_calls_justified mds b c g calls k :
  EMetaBlob_expire mds b c = Some (g, calls) →
  k ∈ calls →
  call_justified mds b k.
Proof.
  unfold EMetaBlob_expire.
  destruct (expire_lumps mds expire_lists_empty (lump_map b)) as [acc|] eqn:Hacc;
    [|done].
  intros [= Hreg] Hk.
  assert (lists_justified mds (lump_map b) acc) as (Hc & He & Hi).
  { apply (expire_lumps_justified mds (lump_map b) [] expire_lists_empty);
      [|done].
    split_and!; [intros d v Hv; simpl in Hv; by rewrite lookup_empty in Hv
                |intros ex Hex; by apply elem_of_nil in Hex..]. }
  assert (k ∈ (expire_register mds b c acc).2) as Hk' by by rewrite Hreg.
  apply expire_register_from in Hk'
    as [(p & n & Hp & ->)|[(ex & n & Hex & ->)|[(ex & n & Hex & ->)
       |[(atid & n & Hin & Hcm & ->)|[(p & n & Hin & Hp & ->)
       |(r & n & Hin & Hr & ->)]]]]]; simpl; try done.
  - destruct p as [d v]. apply elem_of_map_to_list in Hp.
    destruct (Hc _ _ Hp) as (lump & dir & Hlump & Hpend & Hamb & Hcv).
    unfold commit_call. simpl.
    destruct (dir_can_auth_pin_at mds d) eqn:Hpin; simpl;
      (split; [done|]); exists lump, dir; by split_and!.
  - by apply He.
  - by apply Hi.
  - destruct p as [i off]. simpl in *. split; [|done]. by exists i.
Qed.

Lemma EMetaBlob_expire_calls_justified_witness :
  call_justified (mds_with_dir (auth_dir 5 false false)) (one_lump_blob 7)
    (Dir_commit df_a 7 (C_GatherSub 1)).
Proof.
  apply (EMetaBlob_expire_calls_justified
           (mds_with_dir (auth_dir 5 false false)) (one_lump_blob 7) (Ctx 0)
           {| gather_onfinish := Ctx 0; gather_pending := 1; gather_num := 1 |}
           [Dir_commit df_a 7 (C_GatherSub 1)]).
  - by vm_compute.
  - apply list_elem_of_here.
Defined.

(** ** What replay leaves alone *)

#[global] Instance lumps_frame_preorder : PreOrder lumps_frame.
Proof.
  split.
  - intros mds. by repeat split.
  - intros m1 m2 m3 H1 H2. unfold lumps_frame in *.
    destruct_and!. split_and!; congruence.
Qed.

Lemma lumps_frame_with_dirfrags f mds : lumps_frame mds (with_dirfrags f mds).
Proof. by repeat split. Qed.

Lemma lumps_frame_with_inode_map f mds :
  lumps_frame mds (with_inode_map f mds).
Proof. by repeat split. Qed.

(** Peels the cache writes off the state on the right, one at a time. *)
Ltac lumps_frame :=
  repeat first
    [ reflexivity
    | progress unfold with_dentry, add_dentry, link_inode, unlink_inode,
        with_dir, with_inode
    | match goal with
      | |- lumps_frame _ (with_dirfrags _ _) =>
          etrans; [|apply lumps_frame_with_dirfrags]
      | |- lumps_frame _ (with_inode_map _ _) =>
          etrans; [|apply lumps_frame_with_inode_map]
      | |- lumps_frame _ (let _ := _ in _) => cbv zeta
      | |- lumps_frame _ (match ?x with _ => _ end) => destruct x
      end ].

Lemma lumps_frame_fold_left {A} (f : MDS → A → MDS) (l : list A) :
  (∀ mds x, lumps_frame mds (f mds x)) →
  ∀ mds, lumps_frame mds (fold_left f l mds).
Proof.
  intros Hf. induction l as [|x l IH]; intros mds; simpl; [done|].
  etrans; [apply Hf | apply IH].
Qed.

Lemma lumps_frame_replay_lump k lm mds lp mds' :
  replay_lump k lm mds lp = Some mds' → lumps_frame mds mds'.
Proof.
  unfold replay_lump.
  destruct (replay_get_dir k mds lp) as [[mds1 d]|] eqn:Hdir; [|done].
  intros [= <-].
  etrans; [|apply lumps_frame_fold_left; intros;
            unfold replay_nullbit; lumps_frame].
  etrans; [|apply lumps_frame_fold_left; intros;
            unfold replay_remotebit; lumps_frame].
  etrans; [|apply lumps_frame_fold_left; intros;
            unfold replay_fullbit; lumps_frame].
  etrans; [|lumps_frame].
  revert Hdir. unfold replay_get_dir, replay_get_diri, get_or_open_dirfrag,
    create_root_inode, create_stray_inode.
  repeat match goal with
         | |- context [match ?x with _ => _ end] =>
             lazymatch x with
             | context [match _ with _ => _ end] => fail
             | _ => destruct x eqn:?
             end
         end; intros [= <- <-]; try done; lumps_frame.
Qed.

Lemma lumps_frame_replay_lumps k lm order : ∀ mds mds',
  replay_lumps k lm mds order = Some mds' → lumps_frame mds mds'.
Proof.
  induction order as [|lp rest IH]; intros mds mds'; simpl.
  - by intros [= <-].
  - destruct (replay_lump k lm mds lp) as [mds1|] eqn:H1; [|done].
    intros H2. etrans; [by eapply lumps_frame_replay_lump | by apply IH].
Qed.

Lemma EMetaBlob_replay_frame_aux k mds b mds' :
  EMetaBlob_replay k mds b = Some mds' →
  uncommitted_slave_updates (mdcache mds')
  = uncommitted_slave_updates (mdcache mds).
Proof.
  unfold EMetaBlob_replay.
  destruct (replay_lumps k (lump_map b) mds (lump_order b)) as [mds1|] eqn:Hl;
    [|done].
  intros [= <-]. apply lumps_frame_replay_lumps in Hl.
  unfold lumps_frame in Hl. by destruct_and!.
Qed.

(** X8: [EMetaBlob::replay] calls into the cache, the anchor client and the
    client map, and nothing else: a replay that returns leaves the node id,
    the id allocator, the anchor table, the log, the migrator's exports and
    the prepared slave updates as they were. *)
Theorem EMetaBlob_replay_frame k mds b mds' :
  EMetaBlob_replay k mds b = Some mds' →
  nodeid mds' = nodeid mds
  ∧ idalloc mds' = idalloc mds
  ∧ anchortable mds' = anchortable mds
  ∧ mdlog mds' = mdlog mds
  ∧ migrator_exporting (mdcache mds') = migrator_exporting (mdcache mds)
  ∧ uncommitted_slave_updates (mdcache mds')
    = uncommitted_slave_updates (mdcache mds).
Proof.
  unfold EMetaBlob_replay.
  destruct (replay_lumps k (lump_map b) mds (lump_order b)) as [mds1|] eqn:Hl;
    [|done].
  intros [= <-]. apply lumps_frame_replay_lumps in Hl.
  unfold lumps_frame in Hl. destruct_and!. simpl.
  split_and!; congruence.
Qed.

Lemma EMetaBlob_replay_frame_witness :
  ∃ mds',
    EMetaBlob_replay example_layout fresh_mds root_and_stray_blob = Some mds'
    ∧ idalloc mds' = idalloc fresh_mds
    ∧ uncommitted_slave_updates (mdcache mds') = ∅.
Proof.
  destruct (EMetaBlob_replay example_layout fresh_mds root_and_stray_blob)
    as [mds'|] eqn:Hreplay; [|by vm_compute in Hreplay].
  exists mds'. split; [done|].
  pose proof (EMetaBlob_replay_frame example_layout fresh_mds
                root_and_stray_blob mds' Hreplay) as Hframe.
  destruct_and!. by split.
Defined.

(** X9: replaying a slave update for one request leaves what is recorded
    for every other request as it was. *)
Theorem ESlaveUpdate_replay_other_requests k mds e mds' r :
  ESlaveUpdate_replay k mds e = Some mds' →
  r ≠ reqid e →
  uncommitted_slave_updates (mdcache mds') !! r
  = uncommitted_slave_updates (mdcache mds) !! r.
Proof.
  unfold ESlaveUpdate_replay. intros Hreplay Hne.
  destruct (slave_op_ e); [| | |done].
  - destruct (slave_count mds (reqid e)); [done|]. simpl in Hreplay.
    injection Hreplay as <-. simpl. by rewrite lookup_insert_ne.
  - destruct (uncommitted_slave_updates (mdcache mds) !! reqid e)
      as [saved|]; [|by injection Hreplay as <-].
    destruct (EMetaBlob_replay k mds saved) as [mds1|] eqn:Hblob; [|done].
    injection Hreplay as <-. simpl. rewrite lookup_delete_ne by done.
    apply EMetaBlob_replay_frame_aux in Hblob. by rewrite Hblob.
  - destruct (slave_count mds (reqid e)); injection Hreplay as <-; [|done].
    simpl. by rewrite lookup_delete_ne.
Qed.

Lemma ESlaveUpdate_replay_other_requests_witness :
  uncommitted_slave_updates
    (mdcache (with_uncommitted_slave_updates
                (<[req_a := one_lump_blob 7]>) fresh_mds)) !! mk_reqid 8 1
  = uncommitted_slave_updates (mdcache fresh_mds) !! mk_reqid 8 1.
Proof.
  apply (ESlaveUpdate_replay_other_requests example_layout fresh_mds
           (mk_ESlaveUpdate OP_PREPARE req_a (one_lump_blob 7))).
  - reflexivity.
  - discriminate.
Defined.

(** ** Replay, then has_expired *)

(** X10: a blob that names client requests has not expired in the state its
    own replay leaves: replay registers each request as completed, and
    [has_expired] holds the blob back while the client map still has one of
    them. *)
Theorem EMetaBlob_replay_not_expired k mds b mds' :
  client_reqs b ≠ [] →
  EMetaBlob_replay k mds b = Some mds' →
  EMetaBlob_has_expired mds' b = Some false.
Proof.
  intros Hreqs Hreplay. rewrite EMetaBlob_has_expired_eq. f_equal.
  apply andb_false_iff. right. unfold none_completed.
  destruct (client_reqs b) as [|r reqs] eqn:Hb; [done|].
  simpl. apply andb_false_iff. left. apply negb_false_iff.
  apply bool_decide_eq_true.
  unfold EMetaBlob_replay in Hreplay.
  destruct (replay_lumps k (lump_map b) mds (lump_order b)); [|done].
  injection Hreplay as <-. simpl. rewrite Hb. set_solver.
Qed.

Lemma EMetaBlob_replay_not_expired_witness :
  EMetaBlob_has_expired
    (replay_notes blob_with_request fresh_mds) blob_with_request = Some false.
Proof.
  apply (EMetaBlob_replay_not_expired example_layout fresh_mds
           blob_with_request).
  - discriminate.
  - reflexivity.
Defined.

(** ** The dirs after replay *)

#[global] Instance header_kept_preorder x : PreOrder (header_kept x).
Proof.
  split.
  - intros mds dir Hdir. by exists dir.
  - intros m1 m2 m3 H1 H2 dir Hdir.
    destruct (H1 _ Hdir) as (dir1 & Hdir1 & Heq1).
    destruct (H2 _ Hdir1) as (dir2 & Hdir2 & Heq2).
    exists dir2. split; [done|congruence].
Qed.

Lemma header_kept_with_dir x f d mds :
  (∀ dir, dir_header (f dir) = dir_header dir) →
  header_kept x mds (with_dir f d mds).
Proof.
  intros Hf dir Hdir. unfold get_dirfrag in *. simpl.
  rewrite lookup_alter. case_decide as Hd; [subst d|by exists dir].
  rewrite Hdir. simpl. by eexists.
Qed.

Lemma header_kept_with_dir_ne x f d mds :
  x ≠ d → header_kept x mds (with_dir f d mds).
Proof.
  intros Hne dir Hdir. unfold get_dirfrag in *. simpl.
  rewrite lookup_alter_ne by done. by exists dir.
Qed.

Lemma header_kept_with_inode_map x f mds :
  header_kept x mds (with_inode_map f mds).
Proof. intros dir Hdir. by exists dir. Qed.

Lemma header_kept_insert_dir_ne x d dir mds :
  x ≠ d → header_kept x mds (with_dirfrags (<[d := dir]>) mds).
Proof.
  intros Hne dir' Hdir. unfold get_dirfrag in *. simpl.
  rewrite lookup_insert_ne by done. by exists dir'.
Qed.

(** Peels the writes that leave every dir's version and flags alone. *)
Ltac header_kept :=
  repeat first
    [ reflexivity
    | progress unfold with_dentry, add_dentry, link_inode, unlink_inode,
        with_inode
    | match goal with
      | |- header_kept _ _ (with_dir (with_dir_items _) _ _) =>
          etrans; [|by apply header_kept_with_dir]
      | |- header_kept _ _ (with_dir (set_dir_auth _) _ _) =>
          etrans; [|by apply header_kept_with_dir]
      | |- header_kept _ _ (with_inode_map _ _) =>
          etrans; [|apply header_kept_with_inode_map]
      | |- header_kept _ _ (let _ := _ in _) => cbv zeta
      | |- header_kept _ _ (match ?y with _ => _ end) => destruct y
      end ].

Lemma header_kept_fold_left {A} x (f : MDS → A → MDS) (l : list A) :
  (∀ mds a, header_kept x mds (f mds a)) →
  ∀ mds, header_kept x mds (fold_left f l mds).
Proof.
  intros Hf. induction l as [|a l IH]; intros mds; simpl; [done|].
  etrans; [apply Hf | apply IH].
Qed.

(** The dentries of a lump leave every dir's version and flags alone. *)
Lemma header_kept_bits x d lump mds :
  header_kept x mds
    (fold_left (replay_nullbit d) (dnull lump)
       (fold_left (replay_remotebit d) (dremote lump)
          (fold_left (replay_fullbit d) (dfull lump) mds))).
Proof.
  etrans; [|apply header_kept_fold_left; intros;
            unfold replay_nullbit; header_kept].
  etrans; [|apply header_kept_fold_left; intros;
            unfold replay_remotebit; header_kept].
  apply header_kept_fold_left; intros; unfold replay_fullbit; header_kept.
Qed.

Lemma replay_get_diri_itself k mds lp mds0 diri :
  (MDS_INO_IS_STRAY k (df_ino lp) = true →
   0 <= df_ino lp - MDS_INO_STRAY_OFFSET k < 2 ^ 31
   ∧ 0 <= df_ino lp < 2 ^ 64) →
  replay_get_diri k mds lp = Some (mds0, diri) →
  diri = df_ino lp ∧ ∀ x, header_kept x mds mds0.
Proof.
  intros Hrange.
  unfold replay_get_diri, create_root_inode, create_stray_inode.
  destruct (get_inode mds (df_ino lp)); [by intros [= <- <-]|].
  case_bool_decide as Hroot.
  - intros [= <- <-]. split; [done|]. intros x. header_kept.
  - destruct (MDS_INO_IS_STRAY k (df_ino lp)) eqn:Hstray; [|done].
    destruct (Hrange eq_refl) as [Hoff Hino].
    rewrite stray_whose_in_range by done.
    intros [= <- <-]. split; [done|]. intros x. header_kept.
Qed.

(** With its stray number in range, a lump is replayed into the dirfrag it
    names, which is cached from then on; no other dir's version or flags
    change on the way there. *)
Lemma replay_get_dir_itself k mds lp mds1 d :
  (MDS_INO_IS_STRAY k (df_ino lp) = true →
   0 <= df_ino lp - MDS_INO_STRAY_OFFSET k < 2 ^ 31
   ∧ 0 <= df_ino lp < 2 ^ 64) →
  replay_get_dir k mds lp = Some (mds1, d) →
  d = lp ∧ is_Some (get_dirfrag mds1 lp)
  ∧ ∀ x, x ≠ lp → header_kept x mds mds1.
Proof.
  intros Hrange. unfold replay_get_dir.
  destruct (get_dirfrag mds lp) as [dir|] eqn:Hd.
  { intros [= <- <-]. by rewrite Hd. }
  destruct (replay_get_diri k mds lp) as [[mds0 diri]|] eqn:Hdiri; [|done].
  destruct (replay_get_diri_itself _ _ _ _ _ Hrange Hdiri) as [-> Hkept0].
  unfold get_or_open_dirfrag. rewrite mk_dirfrag_eta.
  destruct (get_dirfrag mds0 lp) as [dir0|] eqn:Hd0;
    intros [= <- <-]; (split; [done|]); split.
  - case_bool_decide; [|by rewrite Hd0].
    unfold get_dirfrag in *. simpl. rewrite lookup_alter_eq, Hd0. by eexists.
  - intros x Hx. etrans; [apply Hkept0|].
    case_bool_decide; [|done]. by apply header_kept_with_dir_ne.
  - unfold get_dirfrag. simpl.
    case_bool_decide; simpl; [rewrite lookup_alter_eq|];
      rewrite lookup_insert_eq; by eexists.
  - intros x Hx. etrans; [apply Hkept0|].
    etrans; [by apply (header_kept_insert_dir_ne x lp (new_CDir lp))|].
    case_bool_decide; [|done]. by apply header_kept_with_dir_ne.
Qed.

(** A replayed lump leaves its dir at the lump's version, dirty if the lump
    is dirty and complete if the lump is complete. *)
Lemma replay_lump_header k lm mds lp mds' :
  (MDS_INO_IS_STRAY k (df_ino lp) = true →
   0 <= df_ino lp - MDS_INO_STRAY_OFFSET k < 2 ^ 31
   ∧ 0 <= df_ino lp < 2 ^ 64) →
  replay_lump k lm mds lp = Some mds' →
  ∃ dir, get_dirfrag mds' lp = Some dir
         ∧ dir_version dir = dirv (lump_map_at lm lp)
         ∧ (lump_is_dirty (lump_map_at lm lp) = true → dir_dirty dir = true)
         ∧ (lump_is_complete (lump_map_at lm lp) = true →
            dir_complete dir = true).
Proof.
  intros Hrange. unfold replay_lump.
  destruct (replay_get_dir k mds lp) as [[mds1 d]|] eqn:Hdir; [|done].
  destruct (replay_get_dir_itself _ _ _ _ _ Hrange Hdir)
    as (-> & [dir1 Hdir1] & _).
  intros [= <-].
  set (lump := lump_map_at lm lp).
  set (mds3 := with_dir (dir_mark _ _) lp (with_dir _ lp mds1)).
  assert (get_dirfrag mds3 lp
          = Some (dir_mark (lump_is_dirty lump) (lump_is_complete lump)
                    (dir_set_version (dirv lump) dir1))) as Hd3.
  { unfold get_dirfrag in *. simpl. by rewrite !lookup_alter_eq, Hdir1. }
  destruct (header_kept_bits lp lp lump mds3 _ Hd3) as (dir & Hdir' & Heq).
  exists dir. split; [done|].
  unfold dir_header in Heq. simpl in Heq. injection Heq as Hv Hdirty Hcompl.
  split_and!; [done| |].
  - intros Hl. rewrite Hdirty, Hl. apply orb_true_r.
  - intros Hl. rewrite Hcompl, Hl. apply orb_true_r.
Qed.

(** It leaves the version and flags of every other dir alone. *)
Lemma replay_lump_header_other k lm mds lp mds' x :
  (MDS_INO_IS_STRAY k (df_ino lp) = true →
   0 <= df_ino lp - MDS_INO_STRAY_OFFSET k < 2 ^ 31
   ∧ 0 <= df_ino lp < 2 ^ 64) →
  replay_lump k lm mds lp = Some mds' →
  x ≠ lp →
  header_kept x mds mds'.
Proof.
  intros Hrange. unfold replay_lump.
  destruct (replay_get_dir k mds lp) as [[mds1 d]|] eqn:Hdir; [|done].
  destruct (replay_get_dir_itself _ _ _ _ _ Hrange Hdir)
    as (-> & _ & Hkept).
  intros [= <-] Hx.
  etrans; [by apply Hkept|].
  etrans; [|apply header_kept_bits].
  etrans; by apply header_kept_with_dir_ne.
Qed.

Lemma replay_lumps_header_other k lm order x : ∀ mds mds',
  strays_in_range k order →
  replay_lumps k lm mds order = Some mds' →
  x ∉ order →
  header_kept x mds mds'.
Proof.
  induction order as [|lp rest IH]; intros mds mds' Hrange; simpl.
  - by intros [= <-].
  - destruct (replay_lump k lm mds lp) as [mds1|] eqn:H1; [|done].
    intros H2 Hx. apply not_elem_of_cons in Hx as [Hne Hx].
    etrans.
    + eapply replay_lump_header_other; [|done..].
      apply Hrange, list_elem_of_here.
    + apply IH; [|done..]. intros lp' Hlp'.
      by apply Hrange, list_elem_of_further.
Qed.

(** X11: when [lump_order] names no dirfrag twice and its stray numbers fit
    an [int], a replay that goes through leaves every dirfrag of
    [lump_order] cached, at the version its lump gives, dirty if the lump is
    dirty and complete if the lump is complete. *)
Theorem EMetaBlob_replay_dir_versions k mds b mds' lp :
  NoDup (lump_order b) →
  strays_in_range k (lump_order b) →
  EMetaBlob_replay k mds b = Some mds' →
  lp ∈ lump_order b →
  ∃ dir, get_dirfrag mds' lp = Some dir
         ∧ dir_version dir = dirv (lump_map_at (lump_map b) lp)
         ∧ (lump_is_dirty (lump_map_at (lump_map b) lp) = true →
            dir_dirty dir = true)
         ∧ (lump_is_complete (lump_map_at (lump_map b) lp) = true →
            dir_complete dir = true).
Proof.
  intros Hnodup Hrange. unfold EMetaBlob_replay.
  destruct (replay_lumps k (lump_map b) mds (lump_order b)) as [mds1|] eqn:Hl;
    [|done].
  intros [= <-] Hlp.
  change (get_dirfrag (replay_notes b mds1) lp) with (get_dirfrag mds1 lp).
  revert mds mds1 Hnodup Hrange Hl Hlp.
  generalize (lump_map b) as lm.
  induction (lump_order b) as [|lp0 rest IH];
    intros lm mds mds1 Hnodup Hrange Hl Hlp.
  - by apply elem_of_nil in Hlp.
  - simpl in Hl.
    destruct (replay_lump k lm mds lp0) as [mds0|] eqn:H0; [|done].
    apply NoDup_cons in Hnodup as [Hnotin Hnodup].
    assert (strays_in_range k rest) as Hrange'.
    { intros lp' Hlp'. by apply Hrange, list_elem_of_further. }
    apply elem_of_cons in Hlp as [-> | Hlp]; [|by eapply IH].
    destruct (replay_lump_header k lm mds lp0 mds0) as (dir0 & Hd0 & Hh);
      [apply Hrange, list_elem_of_here|done|].
    destruct (replay_lumps_header_other k lm rest lp0 mds0 mds1 Hrange' Hl
                Hnotin dir0 Hd0) as (dir & Hd & Heq).
    exists dir. split; [done|].
    unfold dir_header in Heq. injection Heq as -> -> ->. done.
Qed.

Lemma EMetaBlob_replay_dir_versions_witness :
  ∃ mds' dir,
    EMetaBlob_replay example_layout fresh_mds root_and_stray_blob = Some mds'
    ∧ get_dirfrag mds' (mk_dirfrag 768 0) = Some dir
    ∧ dir_version dir = 3.
Proof.
  destruct (EMetaBlob_replay example_layout fresh_mds root_and_stray_blob)
    as [mds'|] eqn:Hreplay; [|by vm_compute in Hreplay].
  destruct (EMetaBlob_replay_dir_versions example_layout fresh_mds
              root_and_stray_blob mds' (mk_dirfrag 768 0))
    as (dir & Hdir & Hv & _); try done.
  - simpl. repeat constructor; set_solver.
  - intros lp Hlp Hstray. simpl in Hlp.
    apply elem_of_cons in Hlp as [-> | Hlp];
      [|apply elem_of_cons in Hlp as [-> | Hlp]]; simpl in *;
      [done|lia|by apply elem_of_nil in Hlp].
  - simpl. apply list_elem_of_further, list_elem_of_here.
  - by exists mds', dir.
Defined.

(** ** EClientMap::replay, then expire *)

(** X12: [EClientMap::replay] leaves the client map with its decoded
    version both committed and committing.  In that state a ClientMap or
    Session event has expired exactly when its [cmapv] is at most that
    version; [expire] of one that has not expired starts a new commit, as
    none is in flight, and [expire] of one that has expired fails its
    assert. *)
Theorem EClientMap_replay_then_expire decode mds e ev v c :
  cmapv_of ev = Some v →
  cm_committed (clientmap (EClientMap_replay decode mds e))
    = cm_version (decode (clientmap mds))
  ∧ cm_committing (clientmap (EClientMap_replay decode mds e))
    = cm_version (decode (clientmap mds))
  ∧ has_expired (EClientMap_replay decode mds e) ev
    = Some (bool_decide (v <= cm_version (decode (clientmap mds))))
  ∧ expire (EClientMap_replay decode mds e) ev c
    = if bool_decide (v <= cm_version (decode (clientmap mds)))
      then None else Some [MDS_log_clientmap c].
Proof.
  intros Hv. split_and!; [done..| |];
    destruct ev; try done; simpl in *; injection Hv as <-;
    unfold EClientMap_has_expired, ESession_has_expired,
      EClientMap_expire, ESession_expire; simpl;
    repeat case_bool_decide; try done; lia.
Qed.

(** The client map of the log is at version 5 when replayed: a Session
    event at version 7 has not expired, and its expiry starts a commit. *)
Lemma EClientMap_replay_then_expire_witness :
  expire (EClientMap_replay (λ cm, cm) mds_committing (mk_EClientMap 5))
    (Ev_Session (mk_ESession 7 true 4)) (Ctx 0)
  = Some [MDS_log_clientmap (Ctx 0)].
Proof.
  destruct (EClientMap_replay_then_expire (λ cm, cm) mds_committing
              (mk_EClientMap 5) (Ev_Session (mk_ESession 7 true 4)) 7 (Ctx 0))
    as (_ & _ & _ & Hexpire); [reflexivity|].
  exact Hexpire.
Defined.

(** ** EAnchor::replay *)

(** X13: [EAnchor::replay] returns, leaving the MDS alone, when the anchor
    table is at the event's version or past it.  Otherwise it returns
    exactly when the table is one version behind, the operation is one of
    the four it knows and leaves the table at the event's version; it then
    has changed the anchor table and nothing else.  Replaying the event
    again changes nothing. *)
Theorem EAnchor_replay_sequenced {Trace} (m : AnchorTable_methods Trace)
    mds e a :
  0 <= at_version (anchortable mds) < 2 ^ 64 →
  0 <= anchor_version e < 2 ^ 64 →
  (at_version (anchortable mds) >= anchor_version e →
   EAnchor_replay m mds e a = Some mds)
  ∧ (at_version (anchortable mds) < anchor_version e →
     ∀ mds',
       EAnchor_replay m mds e a = Some mds'
       ↔ at_version (anchortable mds) = anchor_version e - 1
         ∧ EAnchor_apply m (anchortable mds) e a = Some (anchortable mds')
         ∧ at_version (anchortable mds') = anchor_version e
         ∧ mds' = with_anchortable (anchortable mds') mds)
  ∧ (∀ mds', EAnchor_replay m mds e a = Some mds' →
             EAnchor_replay m mds' e a = Some mds').
Proof.
  intros Hv Hev. split_and!.
  - intros Hge. unfold EAnchor_replay. by rewrite bool_decide_eq_true_2.
  - intros Hlt mds'. unfold EAnchor_replay.
    rewrite bool_decide_eq_false_2 by lia. split.
    + case_bool_decide as Hprev; simpl; [|done].
      rewrite Z.mod_small in Hprev by lia.
      destruct (EAnchor_apply m (anchortable mds) e a) as [t|]; [|done].
      case_bool_decide as Ht; [|done]. intros [= <-]. simpl.
      split_and!; try done; lia.
    + intros (Hprev & Happly & Ht & Hmds).
      rewrite bool_decide_eq_true_2 by (rewrite Z.mod_small; lia). simpl.
      rewrite Happly, bool_decide_eq_true_2 by done. by rewrite <- Hmds.
  - intros mds'. unfold EAnchor_replay at 1.
    case_bool_decide as Hge.
    + intros [= <-]. unfold EAnchor_replay. by rewrite bool_decide_eq_true_2.
    + case_bool_decide as Hprev; simpl; [|done].
      destruct (EAnchor_apply m (anchortable mds) e a) as [t|]; [|done].
      case_bool_decide as Ht; [|done]. intros [= <-].
      unfold EAnchor_replay. simpl. rewrite bool_decide_eq_true_2; [done|lia].
Qed.

(** A CREATE_PREPARE at version 10 replayed on a table at version 9 moves
    the table to version 10; replayed on a table at version 12 it returns
    and leaves the table there. *)
Lemma EAnchor_replay_sequenced_witness :
  EAnchor_replay counting_anchortable
    (with_anchortable {| at_version := 10; at_committed_version := 9 |}
       fresh_mds)
    (mk_EAnchor 0 10) (mk_EAnchor_args ANCHOR_OP_CREATE_PREPARE 4096 tt 1)
  = Some (with_anchortable {| at_version := 10; at_committed_version := 9 |}
            fresh_mds)
  ∧ EAnchor_replay counting_anchortable
      (with_anchortable {| at_version := 12; at_committed_version := 9 |}
         fresh_mds)
      (mk_EAnchor 0 10) (mk_EAnchor_args ANCHOR_OP_CREATE_PREPARE 4096 tt 1)
    = Some (with_anchortable {| at_version := 12; at_committed_version := 9 |}
              fresh_mds).
Proof.
  split.
  - destruct (EAnchor_replay_sequenced counting_anchortable mds_anchortable
                (mk_EAnchor 0 10)
                (mk_EAnchor_args ANCHOR_OP_CREATE_PREPARE 4096 tt 1))
      as (_ & _ & Hagain).
    + simpl. lia.
    + simpl. lia.
    + apply Hagain. reflexivity.
  - destruct (EAnchor_replay_sequenced counting_anchortable
                (with_anchortable
                   {| at_version := 12; at_committed_version := 9 |} fresh_mds)
                (mk_EAnchor 0 10)
                (mk_EAnchor_args ANCHOR_OP_CREATE_PREPARE 4096 tt 1))
      as (Hnoop & _ & _).
    + simpl. lia.
    + simpl. lia.
    + apply Hnoop. simpl. lia.
Defined.

(** ** expire on an event that has not expired *)

Lemma EMetaBlob_expire_parks mds b c :
  EMetaBlob_has_expired mds b = Some false →
  ∃ g k calls,
    EMetaBlob_expire mds b c = Some (g, k :: calls)
    ∧ call_context k = Some (C_GatherSub 1).
Proof.
  rewrite EMetaBlob_has_expired_eq. intros [= Hexp].
  unfold EMetaBlob_expire.
  destruct (expire_lumps_spec mds (lump_map b) expire_lists_empty)
    as (acc & -> & Hacc).
  pose proof (expire_register_ok mds b c acc) as (_ & _ & _ & Hsubs).
  pose proof (expire_register_calls_nil mds b c acc) as Hnil.
  destruct (expire_register mds b c acc) as [g [|k calls]]; simpl in *.
  - exfalso. destruct Hnil as [Hnil _].
    destruct (Hnil eq_refl) as (H1 & H2 & H3 & H4 & H5 & H6).
    assert (expire_lists_nil acc) as Hn by done.
    apply Hacc in Hn as [_ Hl]. by rewrite Hl, H4, H5, H6 in Hexp.
  - exists g, k, calls. split; [done|]. by injection Hsubs as ->.
Qed.

(** X14: on an event that has not expired, [expire] returns, except for an
    Open event when the log is capped, and it has then handed a completion
    to some subsystem in one of its calls: the caller's own, or a sub of the
    gather it built around it. *)
Theorem expire_parks_completion mds ev c :
  has_expired mds ev = Some false →
  (∀ e, ev = Ev_Open e → log_capped (mdlog mds) = false) →
  ∃ calls k ctx,
    expire mds ev c = Some calls ∧ k ∈ calls
    ∧ call_context k = Some ctx
    ∧ (ctx = c ∨ ctx = C_GatherSub 1).
Proof.
  intros Hexp Hcap.
  assert (∀ b, EMetaBlob_has_expired mds b = Some false →
            ∃ calls k ctx,
              snd <$> EMetaBlob_expire mds b c = Some calls ∧ k ∈ calls
              ∧ call_context k = Some ctx
              ∧ (ctx = c ∨ ctx = C_GatherSub 1)) as Hblob.
  { intros b Hb. destruct (EMetaBlob_expire_parks mds b c Hb)
      as (g & k & calls & -> & Hk).
    exists (k :: calls), k, (C_GatherSub 1).
    split_and!; [done|apply list_elem_of_here|done|by right]. }
  destruct ev as [e|e|e|e|e|e|e|e|e|e|e|e|e|e]; simpl in *;
    try done; try by apply Hblob.
  - injection Hexp as Hexp. unfold EClientMap_has_expired in Hexp.
    unfold EClientMap_expire.
    repeat case_bool_decide; try done; try lia;
      eexists _, _, c;
      (split_and!; [done|apply list_elem_of_here|done|by left]).
  - injection Hexp as Hexp. unfold ESession_has_expired in Hexp.
    unfold ESession_expire.
    repeat case_bool_decide; try done; try lia;
      eexists _, _, c;
      (split_and!; [done|apply list_elem_of_here|done|by left]).
  - eexists _, _, c.
    split_and!; [done|apply list_elem_of_here|done|by left].
  - eexists _, _, c.
    split_and!; [done|apply list_elem_of_here|done|by left].
  - unfold EOpen_expire. rewrite (Hcap e eq_refl).
    eexists _, (Server_add_journal_open_waiter c), c.
    split_and!; [done| |done|by left].
    apply elem_of_app. right. apply list_elem_of_here.
  - eexists _, _, c.
    split_and!; [done|apply list_elem_of_here|done|by left].
  - injection Hexp as Hexp. unfold EExport_has_expired in Hexp.
    unfold EExport_expire.
    destruct (get_dirfrag mds (export_base e)); [|done].
    case_bool_decide; [|done].
    eexists _, _, c.
    split_and!; [done|apply list_elem_of_here|done|by left].
Qed.

Lemma expire_parks_completion_witness :
  ∃ calls k ctx,
    expire (mds_with_dir (auth_dir 5 false false))
      (Ev_Update (mk_EUpdate (one_lump_blob 7))) (Ctx 0) = Some calls
    ∧ k ∈ calls ∧ call_context k = Some ctx
    ∧ (ctx = Ctx 0 ∨ ctx = C_GatherSub 1).
Proof.
  apply (expire_parks_completion (mds_with_dir (auth_dir 5 false false))
           (Ev_Update (mk_EUpdate (one_lump_blob 7))) (Ctx 0)).
  - reflexivity.
  - intros e He. discriminate He.
Defined.

(** ** The dentries after replay *)

Lemma dir_lookup_with_dentry f d' n' mds d n :
  dir_lookup (with_dentry f d' n' mds) d n
  = if decide (d' = d ∧ n' = n) then f <$> dir_lookup mds d n
    else dir_lookup mds d n.
Proof.
  unfold dir_lookup, with_dentry, get_dirfrag. simpl.
  rewrite lookup_alter. case_decide as Hd; [subst d'|].
  - destruct (dirfrags (mdcache mds) !! d) as [dir|]; simpl;
      [|by case_decide].
    rewrite lookup_alter.
    repeat case_decide; try done; naive_solver.
  - case_decide; [naive_solver|done].
Qed.

Lemma dir_lookup_add_dentry d n l mds :
  is_Some (get_dirfrag mds d) →
  dir_lookup (add_dentry d n l mds) d n = Some (new_CDentry l).
Proof.
  intros [dir Hdir]. unfold dir_lookup, add_dentry, get_dirfrag in *. simpl.
  rewrite lookup_alter_eq, Hdir. simpl. apply lookup_insert_eq.
Qed.

Lemma get_inode_with_inode f i mds j :
  get_inode (with_inode f i mds) j
  = if decide (i = j) then f <$> get_inode mds j else get_inode mds j.
Proof.
  unfold get_inode. simpl. rewrite lookup_alter. by case_decide; subst.
Qed.

Lemma dir_lookup_unlink_inode d' n' mds d n :
  dir_lookup (unlink_inode d' n' mds) d n
  = if decide (d' = d ∧ n' = n)
    then dn_set_linkage LinkNull <$> dir_lookup mds d n
    else dir_lookup mds d n.
Proof.
  unfold unlink_inode. rewrite dir_lookup_with_dentry.
  by destruct (dir_lookup mds d' n') as [[? ? []]|].
Qed.

Lemma dentry_at_unlink_inode d' n' mds d n v dirty :
  dentry_at mds d n v dirty → dentry_at (unlink_inode d' n' mds) d n v dirty.
Proof.
  intros (x & Hx & Hv & Hd). unfold dentry_at.
  rewrite dir_lookup_unlink_inode, Hx. case_decide; by eexists.
Qed.

Lemma dentry_at_touch d n mds dnv dirty :
  is_Some (dir_lookup mds d n) →
  dentry_at (with_dentry (dn_touch dnv dirty) d n mds) d n dnv dirty.
Proof.
  intros [x Hx]. unfold dentry_at. rewrite dir_lookup_with_dentry, Hx.
  case_decide; [|naive_solver]. eexists. split_and!; [done..|].
  simpl. intros ->. apply orb_true_r.
Qed.

Lemma dir_lookup_with_dentry_eq f d n mds :
  dir_lookup (with_dentry f d n mds) d n = f <$> dir_lookup mds d n.
Proof. rewrite dir_lookup_with_dentry. by case_decide; [|naive_solver]. Qed.

Lemma dir_lookup_unlink_inode_eq d n mds :
  dir_lookup (unlink_inode d n mds) d n
  = dn_set_linkage LinkNull <$> dir_lookup mds d n.
Proof. rewrite dir_lookup_unlink_inode. by case_decide; [|naive_solver]. Qed.

Lemma get_inode_with_inode_eq f i mds :
  get_inode (with_inode f i mds) i = f <$> get_inode mds i.
Proof. rewrite get_inode_with_inode. by case_decide. Qed.

Lemma dir_lookup_with_inode f j mds d n :
  dir_lookup (with_inode f j mds) d n = dir_lookup mds d n.
Proof. done. Qed.

Lemma dir_lookup_with_inode_map f mds d n :
  dir_lookup (with_inode_map f mds) d n = dir_lookup mds d n.
Proof. done. Qed.

Lemma get_inode_with_dentry f d n mds j :
  get_inode (with_dentry f d n mds) j = get_inode mds j.
Proof. done. Qed.

(** X15: each turn of the three dentry loops of replay, on a cached dir,
    leaves the dentry it names in the dir at the journaled version, dirty if
    the bit is dirty: null for a null bit; pointing at the remote inode
    number for a remote bit; and for a full bit linked to the inode of that
    number, which is cached carrying the journaled inode record, with that
    dentry as its parent. *)
Theorem EMetaBlob_replay_bits d mds :
  is_Some (get_dirfrag mds d) →
  (∀ p, ∃ x, dir_lookup (replay_nullbit d mds p) d (nb_dn p) = Some x
             ∧ dn_version x = nb_dnv p ∧ dn_linkage x = LinkNull
             ∧ (nb_dirty p = true → dn_dirty x = true))
  ∧ (∀ p, ∃ x, dir_lookup (replay_remotebit d mds p) d (rb_dn p) = Some x
               ∧ dn_version x = rb_dnv p
               ∧ dn_linkage x = LinkRemote (rb_ino p)
               ∧ (rb_dirty p = true → dn_dirty x = true))
  ∧ (∀ p, ∃ x i,
       dir_lookup (replay_fullbit d mds p) d (fb_dn p) = Some x
       ∧ dn_version x = fb_dnv p
       ∧ dn_linkage x = LinkPrimary (i_ino (fb_inode p))
       ∧ get_inode (replay_fullbit d mds p) (i_ino (fb_inode p)) = Some i
       ∧ in_inode i = fb_inode p
       ∧ in_parent i = Some (d, fb_dn p)
       ∧ (i_is_symlink (fb_inode p) = true → in_symlink i = fb_symlink p)
       ∧ (fb_dirty p = true → dn_dirty x = true ∧ in_dirty i = true)).
Proof.
  intros Hd. split_and!.
  - intros p. unfold replay_nullbit.
    rewrite dir_lookup_with_dentry_eq.
    destruct (dir_lookup mds d (nb_dn p)) as [x0|] eqn:Hx0.
    + destruct (dn_is_null x0) eqn:Hnull; simpl.
      * rewrite Hx0. simpl. eexists. split_and!; try done.
        -- revert Hnull. unfold dn_is_null. simpl.
           by destruct (dn_linkage x0).
        -- intros ->. apply orb_true_r.
      * rewrite dir_lookup_unlink_inode_eq, Hx0.
        simpl. eexists. split_and!; try done. intros ->. apply orb_true_r.
    + rewrite dir_lookup_add_dentry by done. simpl.
      eexists. split_and!; try done.
  - intros p. unfold replay_remotebit.
    rewrite !dir_lookup_with_dentry_eq.
    destruct (dir_lookup mds d (rb_dn p)) as [x0|] eqn:Hx0.
    + destruct (dn_is_null x0) eqn:Hnull; simpl.
      * rewrite Hx0. simpl. eexists. split_and!; try done.
        intros ->. apply orb_true_r.
      * rewrite dir_lookup_unlink_inode_eq, Hx0.
        simpl. eexists. split_and!; try done. intros ->. apply orb_true_r.
    + rewrite dir_lookup_add_dentry by done. simpl.
      eexists. split_and!; try done.
  - intros p. unfold replay_fullbit.
    set (mds1 := match dir_lookup mds d (fb_dn p) with
                 | Some _ => mds
                 | None => add_dentry d (fb_dn p) LinkNull mds
                 end).
    assert (is_Some (dir_lookup mds1 d (fb_dn p))) as Hx1.
    { subst mds1. destruct (dir_lookup mds d (fb_dn p)) eqn:Hx0.
      - by rewrite Hx0.
      - by rewrite dir_lookup_add_dentry. }
    pose proof (dentry_at_touch d (fb_dn p) mds1 (fb_dnv p) (fb_dirty p) Hx1)
      as Hx2.
    set (mds2 := with_dentry (dn_touch (fb_dnv p) (fb_dirty p)) d (fb_dn p)
                   mds1) in *.
    set (ino := i_ino (fb_inode p)).
    destruct (get_inode mds2 ino) as [i0|] eqn:Hi0.
    + set (mds3 := match in_parent i0 with
                   | Some (pd, pn) => unlink_inode pd pn mds2
                   | None => mds2
                   end).
      assert (dentry_at mds3 d (fb_dn p) (fb_dnv p) (fb_dirty p)
              ∧ is_Some (get_inode mds3 ino)) as [(x3 & Hx3 & Hv3 & Hd3) [i3 Hi3]].
      { subst mds3. destruct (in_parent i0) as [[pd pn]|].
        - split; [by apply dentry_at_unlink_inode|].
          eapply get_inode_cache_grows; [|by rewrite Hi0].
          unfold unlink_inode. cache_grows.
        - split; [done|by rewrite Hi0]. }
      unfold link_inode.
      rewrite !get_inode_with_inode_eq, get_inode_with_dentry,
        get_inode_with_inode_eq, Hi3.
      rewrite !dir_lookup_with_inode, dir_lookup_with_dentry_eq,
        dir_lookup_with_inode, Hx3.
      simpl. eexists _, _. split_and!; try done.
      * intros Hsym. simpl. by rewrite Hsym.
      * intros Hdirty. split; [by apply Hd3|]. rewrite Hdirty.
        apply orb_true_r.
    + destruct Hx2 as (x2 & Hx2 & Hv2 & Hd2).
      unfold link_inode.
      rewrite !get_inode_with_inode_eq, get_inode_with_dentry.
      rewrite !dir_lookup_with_inode, dir_lookup_with_dentry_eq,
        dir_lookup_with_inode_map, Hx2.
      unfold get_inode at 1. simpl. rewrite lookup_insert_eq.
      simpl. eexists _, _. split_and!; try done.
      * intros Hsym. simpl. by rewrite Hsym.
      * intros Hdirty. split; [by apply Hd2|]. rewrite Hdirty.
        apply orb_true_r.
Qed.

Lemma EMetaBlob_replay_bits_witness :
  ∃ x, dir_lookup
         (replay_nullbit df_a (mds_with_dir (auth_dir 5 false false))
            (mk_nullbit "gone" 6 true)) df_a "gone" = Some x
       ∧ dn_version x = 6 ∧ dn_linkage x = LinkNull
       ∧ (true = true → dn_dirty x = true).
Proof.
  destruct (EMetaBlob_replay_bits df_a (mds_with_dir (auth_dir 5 false false)))
    as (Hnull & _); [by eexists|].
  exact (Hnull (mk_nullbit "gone" 6 true)).
Defined.

(** ** What replay never drops *)

(** X16: a replay of a MetaBlob that returns drops nothing from the cache:
    every dirfrag and every inode cached before it is cached after it. *)
Theorem EMetaBlob_replay_keeps_cache k mds b mds' :
  EMetaBlob_replay k mds b = Some mds' →
  (∀ d, is_Some (get_dirfrag mds d) → is_Some (get_dirfrag mds' d))
  ∧ (∀ i, is_Some (get_inode mds i) → is_Some (get_inode mds' i)).
Proof.
  unfold EMetaBlob_replay.
  destruct (replay_lumps k (lump_map b) mds (lump_order b)) as [mds1|] eqn:Hl;
    [|done].
  intros [= <-]. by apply replay_lumps_cache_grows in Hl.
Qed.

Lemma EMetaBlob_replay_keeps_cache_witness :
  ∃ mds',
    EMetaBlob_replay example_layout (mds_with_open_inode 300)
      root_and_stray_blob = Some mds'
    ∧ is_Some (get_inode mds' 2000).
Proof.
  destruct (EMetaBlob_replay example_layout (mds_with_open_inode 300)
              root_and_stray_blob) as [mds'|] eqn:Hreplay;
    [|by vm_compute in Hreplay].
  exists mds'. split; [done|].
  destruct (EMetaBlob_replay_keeps_cache example_layout
              (mds_with_open_inode 300) root_and_stray_blob mds' Hreplay)
    as [_ Hinodes].
  apply Hinodes. by eexists.
Defined.

(** ** A prepared slave update, committed *)

Section replay_ignores_slave_updates.
Context (f : gmap metareqid_t EMetaBlob → gmap metareqid_t EMetaBlob).

Local Abbreviation unc := (with_uncommitted_slave_updates f).

Lemma get_dirfrag_unc mds d : get_dirfrag (unc mds) d = get_dirfrag mds d.
Proof. done. Qed.

Lemma get_inode_unc mds i : get_inode (unc mds) i = get_inode mds i.
Proof. done. Qed.

Lemma dir_lookup_unc mds d n : dir_lookup (unc mds) d n = dir_lookup mds d n.
Proof. done. Qed.

Lemma with_dirfrags_unc g mds :
  with_dirfrags g (unc mds) = unc (with_dirfrags g mds).
Proof. done. Qed.

Lemma with_inode_map_unc g mds :
  with_inode_map g (unc mds) = unc (with_inode_map g mds).
Proof. done. Qed.

Lemma with_dir_unc g d mds : with_dir g d (unc mds) = unc (with_dir g d mds).
Proof. done. Qed.

Lemma with_inode_unc g i mds :
  with_inode g i (unc mds) = unc (with_inode g i mds).
Proof. done. Qed.

Lemma with_dentry_unc g d n mds :
  with_dentry g d n (unc mds) = unc (with_dentry g d n mds).
Proof. done. Qed.

Lemma add_dentry_unc d n l mds :
  add_dentry d n l (unc mds) = unc (add_dentry d n l mds).
Proof. done. Qed.

Lemma link_inode_unc d n i mds :
  link_inode d n i (unc mds) = unc (link_inode d n i mds).
Proof. done. Qed.

Lemma unlink_inode_unc d n mds :
  unlink_inode d n (unc mds) = unc (unlink_inode d n mds).
Proof.
  unfold unlink_inode. rewrite dir_lookup_unc.
  by destruct (dir_lookup mds d n) as [[? ? []]|].
Qed.

(** Moves the write to the prepared slave updates out of a replay step. *)
Ltac push_unc :=
  cbv zeta;
  repeat first
    [ rewrite dir_lookup_unc | rewrite get_inode_unc | rewrite get_dirfrag_unc
    | rewrite add_dentry_unc | rewrite with_dentry_unc | rewrite with_dir_unc
    | rewrite with_inode_unc | rewrite with_inode_map_unc
    | rewrite with_dirfrags_unc | rewrite link_inode_unc
    | rewrite unlink_inode_unc
    | done
    | match goal with
      | |- context [match ?x with _ => _ end] =>
          lazymatch x with
          | context [match _ with _ => _ end] => fail
          | _ => destruct x
          end
      end ].

Lemma replay_fullbit_unc d mds p :
  replay_fullbit d (unc mds) p = unc (replay_fullbit d mds p).
Proof. unfold replay_fullbit. push_unc. Qed.

Lemma replay_remotebit_unc d mds p :
  replay_remotebit d (unc mds) p = unc (replay_remotebit d mds p).
Proof. unfold replay_remotebit. push_unc. Qed.

Lemma replay_nullbit_unc d mds p :
  replay_nullbit d (unc mds) p = unc (replay_nullbit d mds p).
Proof. unfold replay_nullbit. push_unc. Qed.

Lemma fold_left_unc {A} (g : MDS → A → MDS) (l : list A) :
  (∀ mds x, g (unc mds) x = unc (g mds x)) →
  ∀ mds, fold_left g l (unc mds) = unc (fold_left g l mds).
Proof.
  intros Hg. induction l as [|x l IH]; intros mds; simpl; [done|].
  by rewrite Hg, IH.
Qed.

Lemma replay_get_dir_unc k mds lp :
  replay_get_dir k (unc mds) lp
  = (λ r, (unc r.1, r.2)) <$> replay_get_dir k mds lp.
Proof.
  unfold replay_get_dir, replay_get_diri, get_or_open_dirfrag,
    create_root_inode, create_stray_inode.
  push_unc.
Qed.

Lemma replay_lump_unc k lm mds lp :
  replay_lump k lm (unc mds) lp = unc <$> replay_lump k lm mds lp.
Proof.
  unfold replay_lump. rewrite replay_get_dir_unc.
  destruct (replay_get_dir k mds lp) as [[mds1 d]|]; [|done]. simpl.
  rewrite !with_dir_unc.
  rewrite (fold_left_unc _ _ (replay_fullbit_unc d)).
  rewrite (fold_left_unc _ _ (replay_remotebit_unc d)).
  by rewrite (fold_left_unc _ _ (replay_nullbit_unc d)).
Qed.

Lemma replay_lumps_unc k lm order : ∀ mds,
  replay_lumps k lm (unc mds) order = unc <$> replay_lumps k lm mds order.
Proof.
  induction order as [|lp rest IH]; intros mds; simpl; [done|].
  rewrite replay_lump_unc.
  destruct (replay_lump k lm mds lp) as [mds1|]; [|done]. simpl. apply IH.
Qed.

(** Replay neither reads nor writes the prepared slave updates. *)
Lemma EMetaBlob_replay_unc k mds b :
  EMetaBlob_replay k (unc mds) b = unc <$> EMetaBlob_replay k mds b.
Proof.
  unfold EMetaBlob_replay. rewrite replay_lumps_unc.
  by destruct (replay_lumps k (lump_map b) mds (lump_order b)).
Qed.
End replay_ignores_slave_updates.

(** X17: PREPARE and then COMMIT of a slave update, replayed from a state
    that records nothing for the request, leave exactly the state that
    replaying the prepared MetaBlob directly leaves (and abort exactly when
    that replay aborts). *)
Theorem ESlaveUpdate_prepare_commit k mds r b b' :
  uncommitted_slave_updates (mdcache mds) !! r = None →
  ESlaveUpdate_replay_all k mds
    [mk_ESlaveUpdate OP_PREPARE r b; mk_ESlaveUpdate OP_COMMIT r b']
  = EMetaBlob_replay k mds b.
Proof.
  intros Hr. unfold ESlaveUpdate_replay_all, ESlaveUpdate_replay, slave_count.
  simpl. rewrite Hr.
  rewrite bool_decide_eq_false_2 by (by intros [? [=]]). simpl.
  rewrite lookup_insert_eq, EMetaBlob_replay_unc.
  destruct (EMetaBlob_replay k mds b) as [mds'|] eqn:Hblob; [|done]. simpl.
  f_equal. rewrite with_uncommitted_slave_updates_compose.
  apply with_uncommitted_slave_updates_id. simpl.
  rewrite (EMetaBlob_replay_frame_aux _ _ _ _ Hblob).
  by apply delete_insert_id.
Qed.

Lemma ESlaveUpdate_prepare_commit_witness :
  ESlaveUpdate_replay_all example_layout fresh_mds
    [mk_ESlaveUpdate OP_PREPARE req_a root_and_stray_blob;
     mk_ESlaveUpdate OP_COMMIT req_a empty_blob]
  = EMetaBlob_replay example_layout fresh_mds root_and_stray_blob.
Proof.
  apply (ESlaveUpdate_prepare_commit example_layout fresh_mds req_a).
  reflexivity.
Defined.
